(** * Force10: the optimistic navigation engine

    A shallow embedding of the client package of Force10 (route matcher,
    page cache, preflight evaluator, navigator, the [router.visit]
    interceptor, configuration and entry point), of the server-side
    preflight evaluator and of the file watcher of the Vite plugin, with
    the properties of them that the specification states and further
    properties of the code.

    Conventions of the embedding.
    - A JS string is a [string]; every [ascii] stands for one code unit.
    - A JS number that holds a time stamp, a duration or a count is a [Z].
    - [Date.now()] is an explicit argument [now] (milliseconds).
    - The insertion-ordered [Map] of the cache is an association list in
      insertion order, of values in [Cache] and of object addresses in
      [CacheObjects]; the preflight table is the [gmap] of its own
      properties.
    - Closures created by the interceptor are rows of a table in the
      interceptor state; the variables they capture are the row's fields.
    - Host calls ([router.visit], [router.push], caller callbacks) are
      recorded in order in a trace. *)

From Stdlib Require Import String Ascii ZArith List Lia Bool Sorted Permutation.
From Stdlib Require DecimalString.
From stdpp Require Import gmap strings list.

Open Scope string_scope.
Open Scope Z_scope.

(* ================================================================= *)
(** ** JavaScript string helpers *)

Module JS.

(** [s.startsWith(p)] *)
Definition startsWith (s p : string) : bool := String.prefix p s.

(** last code unit of [s], if any *)
Fixpoint lastChar (s : string) : option ascii :=
  match s with
  | EmptyString => None
  | String c EmptyString => Some c
  | String _ r => lastChar r
  end.

(** [s.endsWith(c)] for a one-character [c] *)
Definition endsWithChar (s : string) (c : ascii) : bool :=
  match lastChar s with
  | Some d => Ascii.eqb d c
  | None => false
  end.

(** [s.slice(1)] *)
Definition slice1 (s : string) : string :=
  match s with
  | EmptyString => EmptyString
  | String _ r => r
  end.

(** [s.slice(0, -1)] *)
Fixpoint dropLast (s : string) : string :=
  match s with
  | EmptyString => EmptyString
  | String _ EmptyString => EmptyString
  | String c r => String c (dropLast r)
  end.

(** [s.slice(1, -1)] *)
Definition slice1m1 (s : string) : string :=
  match s with
  | EmptyString => EmptyString
  | String _ r => dropLast r
  end.

(** [s.split(sep)] for a one-character separator: never empty,
    [''.split('/')] is [['']]. *)
Fixpoint split (sep : ascii) (s : string) : list string :=
  match s with
  | EmptyString => [EmptyString]
  | String c r =>
      if Ascii.eqb c sep then EmptyString :: split sep r
      else match split sep r with
           | x :: xs => String c x :: xs
           | [] => [String c EmptyString]
           end
  end.

(** [s.split(sep)[0]] *)
Definition beforeFirst (sep : ascii) (s : string) : string :=
  match split sep s with
  | x :: _ => x
  | [] => EmptyString
  end.

(** [Boolean(s)] for a string: the empty string is falsy. *)
Definition truthy (s : string) : bool :=
  match s with
  | EmptyString => false
  | _ => true
  end.

(** [xs.includes(s)] *)
Definition includes (xs : list string) (s : string) : bool :=
  existsb (String.eqb s) xs.

(** the code unit occurs in the string *)
Fixpoint hasChar (c : ascii) (s : string) : bool :=
  match s with
  | EmptyString => false
  | String d r => Ascii.eqb d c || hasChar c r
  end.

End JS.

(* ================================================================= *)
(** ** Regular expressions

    The source builds every regular expression as a string and hands it
    to [new RegExp]. The embedding keeps the strings, parses them the way
    the JS pattern grammar does (for the fragment the source can emit:
    pattern characters, identity escapes of syntax characters, [.], a
    negated one-character class, groups, and the quantifiers [*], [+],
    [?] with an optional lazy mark) and decides a match by derivatives. *)

Module RegExp.

Inductive re : Type :=
| Void                       (* matches nothing *)
| Eps                        (* matches the empty string *)
| Chr (c : ascii)            (* one given code unit *)
| Dot                        (* [.]: any code unit but a line terminator *)
| NotChr (c : ascii)         (* [[^c]] *)
| Cat (r1 r2 : re)
| Alt (r1 r2 : re)
| Star (r : re).

(** The syntax characters of the pattern grammar. *)
Definition syntaxChars : string := "^$\.*+?()[]{}|".

Definition isSyntaxChar (c : ascii) : bool := JS.hasChar c syntaxChars.

(** Line terminators that [.] refuses (no [s] flag): LF and CR (the
    other two, U+2028 and U+2029, are beyond the code units an [ascii]
    stands for). *)
Definition isLineTerminator (c : ascii) : bool :=
  Ascii.eqb c "010"%char || Ascii.eqb c "013"%char.

(** What a quantifier character met next would apply to. *)
Inductive qstate : Type :=
| NothingToRepeat            (* start of a group, or after a lazy mark *)
| AfterAtom                  (* the last term may be quantified *)
| AfterQuantifier.           (* the last term may take the lazy mark *)

(** The terms of an alternative, last one first, as one expression. *)
Definition seqOf (terms : list re) : re :=
  fold_left (fun acc t => Cat t acc) terms Eps.

(** [parse stack cur q s]: [cur] holds the terms of the group being
    read (last first), [stack] those of the enclosing groups. [None]
    is a [SyntaxError] (nothing to repeat, unbalanced parenthesis,
    lone backslash) or a construct outside the fragment. A lazy mark
    does not change which strings an anchored pattern accepts. *)
Fixpoint parse (stack : list (list re)) (cur : list re) (q : qstate)
         (s : list ascii) {struct s} : option re :=
  match s with
  | [] =>
      match stack with
      | [] => Some (seqOf cur)
      | _ :: _ => None
      end
  | c :: rest =>
      if Ascii.eqb c "*" then
        match q, cur with
        | AfterAtom, a :: cur' => parse stack (Star a :: cur') AfterQuantifier rest
        | _, _ => None
        end
      else if Ascii.eqb c "+" then
        match q, cur with
        | AfterAtom, a :: cur' =>
            parse stack (Cat a (Star a) :: cur') AfterQuantifier rest
        | _, _ => None
        end
      else if Ascii.eqb c "?" then
        match q, cur with
        | AfterAtom, a :: cur' =>
            parse stack (Alt a Eps :: cur') AfterQuantifier rest
        | AfterQuantifier, _ => parse stack cur NothingToRepeat rest
        | _, _ => None
        end
      else if Ascii.eqb c "(" then
        match rest with
        | c1 :: c2 :: rest2 =>
            if Ascii.eqb c1 "?" && Ascii.eqb c2 ":"
            then parse (cur :: stack) [] NothingToRepeat rest2
            else parse (cur :: stack) [] NothingToRepeat rest
        | _ => parse (cur :: stack) [] NothingToRepeat rest
        end
      else if Ascii.eqb c ")" then
        match stack with
        | outer :: stack' => parse stack' (seqOf cur :: outer) AfterAtom rest
        | [] => None
        end
      else if Ascii.eqb c "\" then
        match rest with
        | c1 :: rest1 =>
            if isSyntaxChar c1 then parse stack (Chr c1 :: cur) AfterAtom rest1
            else None
        | [] => None
        end
      else if Ascii.eqb c "." then parse stack (Dot :: cur) AfterAtom rest
      else if Ascii.eqb c "[" then
        match rest with
        | c1 :: c2 :: c3 :: rest3 =>
            if Ascii.eqb c1 "^" && negb (isSyntaxChar c2) && Ascii.eqb c3 "]"
            then parse stack (NotChr c2 :: cur) AfterAtom rest3
            else None
        | _ => None
        end
      else if isSyntaxChar c then None
      else parse stack (Chr c :: cur) AfterAtom rest
  end.

(** [new RegExp(`^${body}$`)]; [None] when the constructor throws. *)
Definition anchored (body : string) : option re :=
  parse [] [] NothingToRepeat (list_ascii_of_string body).

Fixpoint nullable (r : re) : bool :=
  match r with
  | Void => false
  | Eps => true
  | Chr _ => false
  | Dot => false
  | NotChr _ => false
  | Cat r1 r2 => nullable r1 && nullable r2
  | Alt r1 r2 => nullable r1 || nullable r2
  | Star _ => true
  end.

Fixpoint deriv (a : ascii) (r : re) : re :=
  match r with
  | Void => Void
  | Eps => Void
  | Chr c => if Ascii.eqb a c then Eps else Void
  | Dot => if isLineTerminator a then Void else Eps
  | NotChr c => if Ascii.eqb a c then Void else Eps
  | Cat r1 r2 =>
      if nullable r1 then Alt (Cat (deriv a r1) r2) (deriv a r2)
      else Cat (deriv a r1) r2
  | Alt r1 r2 => Alt (deriv a r1) (deriv a r2)
  | Star r1 => Cat (deriv a r1) (Star r1)
  end.

Fixpoint accepts (r : re) (s : list ascii) : bool :=
  match s with
  | [] => nullable r
  | a :: s' => accepts (deriv a r) s'
  end.

(** [regex.test(s)] / [regex.exec(s) !== null] for an anchored regex. *)
Definition test (r : re) (s : string) : bool :=
  accepts r (list_ascii_of_string s).

End RegExp.

(* ================================================================= *)
(** ** Shared types (types.ts) *)

(** [PreflightResult]: the verdict the server recorded for one guard. *)
Record PreflightResult : Type := {
  pass : bool;
  expiresAt : option Z          (* absolute epoch seconds, optional *)
}.

(** Page props are opaque to the engine except for the entries it reads:
    [props.auth?.user] (only its truthiness), [props._force10?.preflight]
    and [props._force10_server?.invalidate]. *)
Record Props : Type := {
  fields : list (string * string);
  auth_user : option bool;
  force10_preflight : option (gmap string PreflightResult);
  force10_server_invalidate : option (list string)
}.

Record RouteParameter : Type := {
  rp_name : string;
  rp_required : bool
}.

Record ManifestRoute : Type := {
  pattern : string;
  component : string;
  middleware : list string;
  parameters : list RouteParameter
}.

(** [MatchResult]; the extracted [params] are not modelled, nothing the
    engine decides reads them. *)
Record MatchResult : Type := {
  mr_route : ManifestRoute;
  mr_url : string
}.

Record CachedPage : Type := {
  cp_props : Props;
  cp_timestamp : Z;
  cp_url : string;
  cp_component : string
}.

(** The page object of a server response. *)
Record Page : Type := {
  pg_component : string;
  pg_props : Props;
  pg_url : string
}.

Record Force10Config : Type := {
  enabled : bool;
  cache_ttl : Z;
  cache_maxEntries : Z;
  loading_suppressProgress : bool;
  debug : bool;
  routes_exclude : list string
}.

(** [defaultConfig] (config.ts) *)
Definition defaultConfig : Force10Config := {|
  enabled := true;
  cache_ttl := 5 * 60 * 1000;
  cache_maxEntries := 50;
  loading_suppressProgress := true;
  debug := false;
  routes_exclude := []
|}.

(** The [Force10Matcher] interface. *)
Record Force10Matcher : Type := {
  match_ : string -> option MatchResult;
  isExcluded : string -> bool
}.

(** What the engine takes from its host besides the router: [decodeURI]
    on a string that holds a percent sign ([None]: it throws [URIError])
    and [new URL(s)] ([None]: it throws). *)
Record URL : Type := {
  origin : string;
  pathname : string
}.

Record Host : Type := {
  hostDecodeURI : string -> option string;
  newURL : string -> option URL
}.

(* ================================================================= *)
(** ** Route matcher (matcher.ts) *)

Module Matcher.

Record CompiledRoute : Type := {
  route : ManifestRoute;
  regex : RegExp.re;
  paramNames : list string;
  specificity : Z
}.

(** [pattern.split('/').filter(Boolean)] *)
Definition segments (pattern : string) : list string :=
  List.filter JS.truthy (JS.split "/" pattern).

Definition isWildcard (seg : string) : bool :=
  String.eqb seg "*" || String.eqb seg "**".

Definition isParam (seg : string) : bool := JS.startsWith seg ":".

Definition segmentScore (seg : string) : Z :=
  if isWildcard seg then 1
  else if isParam seg then 2
  else 3.

Definition calcSpecificity (pattern : string) : Z :=
  fold_left (fun score seg => score + segmentScore seg) (segments pattern) 0.

(** [str.replace(/[.*+?^${}()|[\]\\]/g, '\\$&')] *)
Fixpoint escapeRegex (str : string) : string :=
  match str with
  | EmptyString => EmptyString
  | String c r =>
      if JS.hasChar c ".*+?^${}()|[]\"
      then String "\" (String c (escapeRegex r))
      else String c (escapeRegex r)
  end.

Definition segmentRegex (seg : string) : string :=
  if isWildcard seg then "(?:/.*)?"
  else if isParam seg then
    if JS.endsWithChar seg "?" then "(?:/([^/]+))?" else "/([^/]+)"
  else "/" ++ escapeRegex seg.

Definition segmentParam (seg : string) : list string :=
  if isWildcard seg then []
  else if isParam seg then
    [if JS.endsWithChar seg "?" then JS.slice1m1 seg else JS.slice1 seg]
  else [].

(** The source of the regular expression between [^] and [$]. *)
Definition patternRegexSource (pattern : string) : string :=
  let segs := segments pattern in
  let regexStr :=
    fold_left (fun acc seg => acc ++ segmentRegex seg) segs "" in
  let regexStr := match segs with [] => "" | _ => regexStr end in
  regexStr ++ "/?".

(** [compilePattern]; [None] when [new RegExp] throws. The module-level
    [regexCache] only memoises this pure function. *)
Definition compilePattern (pattern : string)
  : option (RegExp.re * list string) :=
  match RegExp.anchored (patternRegexSource pattern) with
  | Some r => Some (r, List.concat (List.map segmentParam (segments pattern)))
  | None => None
  end.

Section WithHost.
Variable host : Host.

(** [decodeURI] copies a string without percent escapes. *)
Definition decodeURI (s : string) : option string :=
  if JS.hasChar "%" s then hostDecodeURI host s else Some s.

Definition normalizePath (url : string) : string :=
  let path := JS.beforeFirst "#" url in
  let path := JS.beforeFirst "?" path in
  match decodeURI path with
  | Some decoded => decoded
  | None => path
  end.

(** The source of the regular expression between [^] and [$]. *)
Fixpoint excludePatternSource (pattern : string) : string :=
  match pattern with
  | EmptyString => EmptyString
  | String ch r =>
      (if Ascii.eqb ch "*" then ".*"
       else if Ascii.eqb ch "?" then "."
       else escapeRegex (String ch EmptyString))
      ++ excludePatternSource r
  end.

Definition excludePatternToRegex (pattern : string) : option RegExp.re :=
  RegExp.anchored (excludePatternSource pattern).

Definition compileRoute (r : ManifestRoute) : option CompiledRoute :=
  match compilePattern (pattern r) with
  | Some (re, names) =>
      Some {| route := r; regex := re; paramNames := names;
              specificity := calcSpecificity (pattern r) |}
  | None => None
  end.

(** [Array.prototype.sort] with the comparator
    [(a, b) => b.specificity - a.specificity]: stable, descending. *)
Fixpoint insertBySpecificity (x : CompiledRoute) (l : list CompiledRoute)
  : list CompiledRoute :=
  match l with
  | [] => [x]
  | y :: l' =>
      if specificity y <=? specificity x then x :: l
      else y :: insertBySpecificity x l'
  end.

Definition sortBySpecificity (l : list CompiledRoute) : list CompiledRoute :=
  fold_right insertBySpecificity [] l.

Definition matchCompiled (compiledRoutes : list CompiledRoute)
           (url : string) : option MatchResult :=
  let path := normalizePath url in
  match List.find (fun c => RegExp.test (regex c) path) compiledRoutes with
  | Some c => Some {| mr_route := route c; mr_url := url |}
  | None => None
  end.

Definition isExcludedBy (excludeRegexes : list RegExp.re) (url : string)
  : bool :=
  let path := normalizePath url in
  existsb (fun r => RegExp.test r path) excludeRegexes.

(** [createMatcher]; [None] when a [new RegExp] throws. *)
Definition createMatcher (routes : list ManifestRoute)
           (config : Force10Config) : option Force10Matcher :=
  match mapM compileRoute routes with
  | Some compiled =>
      let compiledRoutes := sortBySpecificity compiled in
      match mapM excludePatternToRegex (routes_exclude config) with
      | Some excludeRegexes =>
          Some {| match_ := matchCompiled compiledRoutes;
                  isExcluded := isExcludedBy excludeRegexes |}
      | None => None
      end
  | None => None
  end.

End WithHost.

End Matcher.

(* ================================================================= *)
(** ** Page cache (cache.ts) *)

Module Cache.

(** The [Map<string, CachedPage>]: entries in insertion order. *)
Definition Store : Type := list (string * CachedPage).

Definition keyIs (k : string) (kv : string * CachedPage) : bool :=
  String.eqb (fst kv) k.

(** [store.get(k)] *)
Definition storeGet (k : string) (store : Store) : option CachedPage :=
  match List.find (keyIs k) store with
  | Some kv => Some (snd kv)
  | None => None
  end.

(** [store.delete(k)] *)
Definition storeDelete (k : string) (store : Store) : Store :=
  List.filter (fun kv => negb (keyIs k kv)) store.

(** [store.set(k, v)]: a present key keeps its place, a new one goes
    last. *)
Fixpoint storeSet (k : string) (v : CachedPage) (store : Store) : Store :=
  match store with
  | [] => [(k, v)]
  | kv :: rest =>
      if keyIs k kv then (k, v) :: rest else kv :: storeSet k v rest
  end.

(** [store.keys()] *)
Definition storeKeys (store : Store) : list string := List.map fst store.

(** [store.size] *)
Definition storeSize (store : Store) : Z := Z.of_nat (length store).

(** [pattern.replace(/[.+^${}()|[\]\\]/g, '\\$&')] *)
Fixpoint escapeSpecials (pattern : string) : string :=
  match pattern with
  | EmptyString => EmptyString
  | String c r =>
      if JS.hasChar c ".+^${}()|[]\"
      then String "\" (String c (escapeSpecials r))
      else String c (escapeSpecials r)
  end.

(** [escaped.replace(/\*/g, '.*')] *)
Fixpoint replaceStars (escaped : string) : string :=
  match escaped with
  | EmptyString => EmptyString
  | String c r =>
      if Ascii.eqb c "*" then String "." (String "*" (replaceStars r))
      else String c (replaceStars r)
  end.

(** The source of the regular expression between [^] and [$]. *)
Definition patternSource (pattern : string) : string :=
  replaceStars (escapeSpecials pattern).

(** [patternToRegex]; [None] when [new RegExp] throws. *)
Definition patternToRegex (pattern : string) : option RegExp.re :=
  RegExp.anchored (patternSource pattern).

(** [{ ...a, ...b }] on the opaque fields: keys of [a] keep their
    place, new keys of [b] follow. *)
Fixpoint assocSet (k v : string) (l : list (string * string))
  : list (string * string) :=
  match l with
  | [] => [(k, v)]
  | (k', v') :: rest =>
      if String.eqb k' k then (k, v) :: rest else (k', v') :: assocSet k v rest
  end.

Definition override {A : Type} (a b : option A) : option A :=
  match b with
  | Some _ => b
  | None => a
  end.

Definition spread (a b : Props) : Props := {|
  fields := fold_left (fun acc kv => assocSet (fst kv) (snd kv) acc)
                      (fields b) (fields a);
  auth_user := override (auth_user a) (auth_user b);
  force10_preflight := override (force10_preflight a) (force10_preflight b);
  force10_server_invalidate :=
    override (force10_server_invalidate a) (force10_server_invalidate b)
|}.

Section WithConfig.
Variable config : Force10Config.

Definition ttl : Z := cache_ttl config.
Definition maxEntries : Z := cache_maxEntries config.

Definition isExpired (now : Z) (entry : CachedPage) : bool :=
  now - cp_timestamp entry >? ttl.

(** The [while] loop of [evictIfNeeded]; [None]: out of fuel. On an
    empty store [store.keys().next().value] is [undefined] and the
    [delete] does nothing. *)
Fixpoint evictIfNeeded (fuel : nat) (store : Store) : option Store :=
  if storeSize store >? maxEntries then
    match fuel with
    | O => None
    | S fuel' =>
        evictIfNeeded fuel'
          match store with
          | [] => store
          | (oldestKey, _) :: _ => storeDelete oldestKey store
          end
    end
  else Some store.

Definition get (now : Z) (url : string) (store : Store)
  : option CachedPage :=
  match storeGet url store with
  | None => None
  | Some entry => if isExpired now entry then None else Some entry
  end.

(** [set]; [None]: the eviction loop does not come to an end. The
    loop either exits within [length store] rounds or never does
    (lemmas [evict_enough_fuel] and [evict_never_ends]). *)
Definition set (url : string) (page : CachedPage) (store : Store)
  : option Store :=
  let store := storeSet url page (storeDelete url store) in
  evictIfNeeded (length store) store.

Definition remove (url : string) (store : Store) : Store :=
  storeDelete url store.

Definition clear (store : Store) : Store := [].

Definition getOrStale (now : Z) (url : string) (store : Store)
  : option (CachedPage * bool) :=
  match storeGet url store with
  | None => None
  | Some entry => Some (entry, isExpired now entry)
  end.

(** [invalidateByPattern]; [None]: [new RegExp] throws and the store
    is left as it was. *)
Definition invalidateByPattern (pattern : string) (store : Store)
  : option Store :=
  match patternToRegex pattern with
  | None => None
  | Some regex =>
      Some (fold_left
              (fun st key =>
                 if RegExp.test regex key then storeDelete key st else st)
              (storeKeys store) store)
  end.

(** [updateProps] on a store that holds no object under two URLs: the
    entry under the URL after the two assignments to the stored object.
    With the identity of the objects: [CacheObjects.updateProps]. *)
Definition updateProps (now : Z) (url : string) (props : Props)
           (store : Store) : Store :=
  match storeGet url store with
  | None => store
  | Some entry =>
      storeSet url
        {| cp_props := spread (cp_props entry) props;
           cp_timestamp := now;
           cp_url := cp_url entry;
           cp_component := cp_component entry |}
        store
  end.

End WithConfig.

End Cache.

(* ================================================================= *)
(** ** Preflight evaluator (preflight.ts)

    The table [_data] is a plain object: [{}] at first, then whatever
    object [update] was handed (the server's JSON). The [gmap] holds
    its own properties; a read [_data[mw]] that finds none of its own
    goes on to [Object.prototype]. *)

Module Preflight.

(** [update]: the table is replaced as a whole. *)
Definition update (data _old : gmap string PreflightResult)
  : gmap string PreflightResult := data.

(** The names under which [Object.prototype] has a member (a function,
    or for [__proto__] the prototype object itself). *)
Definition objectPrototypeMembers : list string :=
  ["constructor"; "hasOwnProperty"; "isPrototypeOf"; "propertyIsEnumerable";
   "toLocaleString"; "toString"; "valueOf"; "__proto__";
   "__defineGetter__"; "__defineSetter__"; "__lookupGetter__";
   "__lookupSetter__"].

(** What [_data[mw]] gives. *)
Inductive Found : Type :=
| Recorded (result : PreflightResult)   (* a property of the table's own *)
| Inherited                             (* a member of [Object.prototype] *)
| Undefined.

Definition read (data : gmap string PreflightResult) (mw : string) : Found :=
  match data !! mw with
  | Some result => Recorded result
  | None =>
      if existsb (String.eqb mw) objectPrototypeMembers then Inherited
      else Undefined
  end.

(** [result.expiresAt && Math.floor(Date.now() / 1000) >= result.expiresAt] *)
Definition expired (now : Z) (result : PreflightResult) : bool :=
  match expiresAt result with
  | None => false
  | Some e => negb (e =? 0) && (now / 1000 >=? e)
  end.

(** The loop of [check]. An inherited member is truthy and has no
    [pass], so [!result.pass] holds of it. *)
Fixpoint checkLoop (data : gmap string PreflightResult) (now : Z)
         (middleware : list string) (hasAnyData : bool) : option bool :=
  match middleware with
  | [] => if hasAnyData then Some true else None
  | mw :: rest =>
      match read data mw with
      | Undefined => checkLoop data now rest hasAnyData
      | Inherited => Some false
      | Recorded result =>
          if negb (pass result) then Some false
          else if expired now result then Some false
          else checkLoop data now rest true
      end
  end.

(** [check]: [Some true], [Some false] or [None] for [null]. *)
Definition check (data : gmap string PreflightResult) (now : Z)
           (middleware : list string) : option bool :=
  checkLoop data now middleware false.

End Preflight.

(* ================================================================= *)
(** ** Host-facing data of the navigator and the interceptor *)

(** The first argument of [router.visit]: a string or a [URL] object. *)
Inductive Href : Type :=
| HrefString (s : string)
| HrefURL (u : URL).

(** A callback found in the options of a request that reaches the host:
    one supplied by the caller (opaque, named by a number) or one of the
    closures the interceptor wraps around it (named by the row of the
    closure table). *)
Inductive Callback : Type :=
| CallerCallback (id : nat)
| BackgroundOnSuccess (nav : nat)
| BackgroundOnError (nav : nat)
| PassthroughOnSuccess (nav : nat)
| PassthroughOnError (nav : nat).

#[global] Instance Callback_eq_dec : EqDecision Callback.
Proof. solve_decision. Defined.

(** Visit options, over the type [C] of the callbacks they hold: a
    caller names its own callbacks by numbers ([VisitOptions nat]), the
    host receives [VisitOptions Callback]. *)
Record VisitOptions (C : Type) : Type := {
  method : option string;
  preserveScroll : option bool;
  preserveState : option bool;
  replace : option bool;
  async : option bool;
  showProgress : option bool;
  onSuccess : option C;
  onError : option C
}.

Arguments method {C} _.
Arguments preserveScroll {C} _.
Arguments preserveState {C} _.
Arguments replace {C} _.
Arguments async {C} _.
Arguments showProgress {C} _.
Arguments onSuccess {C} _.
Arguments onError {C} _.

(** [{}] *)
Definition noOptions {C : Type} : VisitOptions C := {|
  method := None; preserveScroll := None; preserveState := None;
  replace := None; async := None; showProgress := None;
  onSuccess := None; onError := None
|}.

(** The caller's options as the host receives them when they are passed
    on untouched. *)
Definition untouched (options : VisitOptions nat) : VisitOptions Callback := {|
  method := method options;
  preserveScroll := preserveScroll options;
  preserveState := preserveState options;
  replace := replace options;
  async := async options;
  showProgress := showProgress options;
  onSuccess := option_map CallerCallback (onSuccess options);
  onError := option_map CallerCallback (onError options)
|}.

(** [window]: [window.location.origin] and [window.history.state?.page]. *)
Record Window : Type := {
  location_origin : string;
  history_page : option Page
}.

(** The [props] entry of a pushed page: a value or a function of the
    current props. *)
Inductive PropsArg : Type :=
| PropsValue (p : Props)
| PropsFn (f : Props -> Props).

(** The page object handed to [router.push] / [router.replace]. *)
Record PushedPage : Type := {
  pp_component : string;
  pp_url : string;
  pp_props : PropsArg;
  pp_preserveScroll : option bool;
  pp_preserveState : option bool
}.

(** Calls that leave the engine, in the order they are made. *)
Inductive Effect : Type :=
| OriginalVisit (href : Href) (options : option (VisitOptions Callback))
| RouterPush (page : PushedPage)
| RouterReplace (page : PushedPage)
| CallerSuccess (cb : nat) (page : Page)
| CallerError (cb : nat).

(** What an optimistic navigation's closures capture. *)
Record NavClosure : Type := {
  nc_href : Href;
  nc_options : option (VisitOptions nat);
  nc_match : MatchResult;
  backgroundFired : bool
}.

(** [backgroundFired = true] in the row. *)
Definition firedRow (n : NavClosure) : NavClosure :=
  {| nc_href := nc_href n; nc_options := nc_options n;
     nc_match := nc_match n; backgroundFired := true |}.

(** What the callbacks of a cache-gated passthrough capture. *)
Record PassClosure : Type := {
  pc_options : option (VisitOptions nat);
  pc_match : MatchResult
}.

(** The state of one engine instance together with the host state it
    drives: the cache's store, the preflight table, the navigator's
    [_isLoading], the interceptor's [cancelPendingBackground] (the row
    whose cancel closure it holds), the closure tables, the host's
    ['navigate'] listeners and armed timers, whether [router.visit] is
    the patched function, and the trace. *)
Record World : Type := {
  store : Cache.Store;
  preflightData : gmap string PreflightResult;
  isLoadingFlag : bool;
  cancelPendingBackground : option nat;
  navs : list NavClosure;
  passes : list PassClosure;
  listeners : list nat;
  timers : list (nat * Z);
  routerVisitPatched : bool;
  trace : list Effect
}.

Definition initialWorld : World := {|
  store := []; preflightData := ∅; isLoadingFlag := false;
  cancelPendingBackground := None; navs := []; passes := [];
  listeners := []; timers := []; routerVisitPatched := true; trace := []
|}.

Definition setStore (x : Cache.Store) (w : World) : World :=
  {| store := x; preflightData := preflightData w;
     isLoadingFlag := isLoadingFlag w;
     cancelPendingBackground := cancelPendingBackground w;
     navs := navs w; passes := passes w; listeners := listeners w;
     timers := timers w; routerVisitPatched := routerVisitPatched w;
     trace := trace w |}.

Definition setPreflightData (x : gmap string PreflightResult) (w : World)
  : World :=
  {| store := store w; preflightData := x;
     isLoadingFlag := isLoadingFlag w;
     cancelPendingBackground := cancelPendingBackground w;
     navs := navs w; passes := passes w; listeners := listeners w;
     timers := timers w; routerVisitPatched := routerVisitPatched w;
     trace := trace w |}.

Definition setIsLoading (x : bool) (w : World) : World :=
  {| store := store w; preflightData := preflightData w;
     isLoadingFlag := x;
     cancelPendingBackground := cancelPendingBackground w;
     navs := navs w; passes := passes w; listeners := listeners w;
     timers := timers w; routerVisitPatched := routerVisitPatched w;
     trace := trace w |}.

Definition setCancelPending (x : option nat) (w : World) : World :=
  {| store := store w; preflightData := preflightData w;
     isLoadingFlag := isLoadingFlag w;
     cancelPendingBackground := x;
     navs := navs w; passes := passes w; listeners := listeners w;
     timers := timers w; routerVisitPatched := routerVisitPatched w;
     trace := trace w |}.

Definition setNavs (x : list NavClosure) (w : World) : World :=
  {| store := store w; preflightData := preflightData w;
     isLoadingFlag := isLoadingFlag w;
     cancelPendingBackground := cancelPendingBackground w;
     navs := x; passes := passes w; listeners := listeners w;
     timers := timers w; routerVisitPatched := routerVisitPatched w;
     trace := trace w |}.

Definition setPasses (x : list PassClosure) (w : World) : World :=
  {| store := store w; preflightData := preflightData w;
     isLoadingFlag := isLoadingFlag w;
     cancelPendingBackground := cancelPendingBackground w;
     navs := navs w; passes := x; listeners := listeners w;
     timers := timers w; routerVisitPatched := routerVisitPatched w;
     trace := trace w |}.

Definition setListeners (x : list nat) (w : World) : World :=
  {| store := store w; preflightData := preflightData w;
     isLoadingFlag := isLoadingFlag w;
     cancelPendingBackground := cancelPendingBackground w;
     navs := navs w; passes := passes w; listeners := x;
     timers := timers w; routerVisitPatched := routerVisitPatched w;
     trace := trace w |}.

Definition setTimers (x : list (nat * Z)) (w : World) : World :=
  {| store := store w; preflightData := preflightData w;
     isLoadingFlag := isLoadingFlag w;
     cancelPendingBackground := cancelPendingBackground w;
     navs := navs w; passes := passes w; listeners := listeners w;
     timers := x; routerVisitPatched := routerVisitPatched w;
     trace := trace w |}.

Definition setRouterVisitPatched (x : bool) (w : World) : World :=
  {| store := store w; preflightData := preflightData w;
     isLoadingFlag := isLoadingFlag w;
     cancelPendingBackground := cancelPendingBackground w;
     navs := navs w; passes := passes w; listeners := listeners w;
     timers := timers w; routerVisitPatched := x;
     trace := trace w |}.

(** Record one more call at the end of the trace. *)
Definition emit (e : Effect) (w : World) : World :=
  {| store := store w; preflightData := preflightData w;
     isLoadingFlag := isLoadingFlag w;
     cancelPendingBackground := cancelPendingBackground w;
     navs := navs w; passes := passes w; listeners := listeners w;
     timers := timers w; routerVisitPatched := routerVisitPatched w;
     trace := trace w ++ [e] |}.

(** [options?.field] *)
Definition opt {A C : Type} (f : VisitOptions C -> option A)
           (options : option (VisitOptions C)) : option A :=
  match options with
  | Some o => f o
  | None => None
  end.

(** Truthiness of an optional boolean. *)
Definition isTrue (b : option bool) : bool :=
  match b with
  | Some true => true
  | _ => false
  end.

(** How a handler that may throw came to its end. *)
Inductive Completion : Type :=
| Normal
| Thrown.

(* ================================================================= *)
(** ** Navigator (navigator.ts) and interceptor (patch.ts)

    One engine instance: a host, a configuration, a matcher behind its
    interface, and whether the navigator and the interceptor were given
    the preflight evaluator ([preflight?] is optional in both). *)

Section Engine.

Variable host : Host.
Variable config : Force10Config.
Variable matcher : Force10Matcher.
Variable navigatorPreflight : bool.
Variable patchPreflight : bool.

(** *** createNavigator *)

Definition optimisticNavigate (m : MatchResult)
           (options : option (VisitOptions nat)) (now : Z) (w : World) : World :=
  let cached := Cache.getOrStale config now (mr_url m) (store w) in
  let page := {|
    pp_component := component (mr_route m);
    pp_url := mr_url m;
    pp_props :=
      match cached with
      | Some (entry, _) => PropsValue (cp_props entry)
      | None => PropsFn (fun currentProps => currentProps)
      end;
    pp_preserveScroll := opt preserveScroll options;
    pp_preserveState := opt preserveState options
  |} in
  let w := setIsLoading true w in
  if isTrue (opt replace options)
  then emit (RouterReplace page) w
  else emit (RouterPush page) w.

(** [currentPage?.props?.auth?.user], as a truth value *)
Definition currentUser (win : option Window) : bool :=
  match win with
  | Some wd =>
      match history_page wd with
      | Some pg => isTrue (auth_user (pg_props pg))
      | None => false
      end
  | None => false
  end.

Definition shouldOptimisticallyNavigate (win : option Window)
           (m : MatchResult) (now : Z) (w : World) : bool :=
  if negb (enabled config) then false
  else if navigatorPreflight
          && bool_decide (Preflight.check (preflightData w) now
                            (middleware (mr_route m)) = Some false)
  then false
  else if JS.includes (middleware (mr_route m)) "auth"
  then currentUser win
  else true.

Definition isLoading (w : World) : bool := isLoadingFlag w.

Definition setLoaded (w : World) : World := setIsLoading false w.

(** *** applyPatch *)

Definition markFired (i : nat) (w : World) : World :=
  match navs w !! i with
  | Some n => setNavs (<[i := firedRow n]> (navs w)) w
  | None => w
  end.

(** [removeListener()] of navigation [i] *)
Definition removeListener (i : nat) (w : World) : World :=
  setListeners (List.filter (fun j => negb (Nat.eqb j i)) (listeners w)) w.

(** The delay of [setTimeout(fireBackground, 100)], in milliseconds. *)
Definition fallbackDelay : Z := 100.

(** [clearTimeout(fallbackTimer)] of navigation [i] *)
Definition clearTimeout (i : nat) (w : World) : World :=
  setTimers (List.filter (fun t => negb (Nat.eqb (fst t) i)) (timers w)) w.

(** The closure navigation [i] stores in [cancelPendingBackground]. *)
Definition cancelClosure (i : nat) (w : World) : World :=
  match navs w !! i with
  | Some n =>
      let w :=
        if negb (backgroundFired n)
        then setLoaded (clearTimeout i (removeListener i (markFired i w)))
        else w in
      setCancelPending None w
  | None => w
  end.

(** [if (cancelPendingBackground) cancelPendingBackground()] *)
Definition callCancelPending (w : World) : World :=
  match cancelPendingBackground w with
  | Some i => cancelClosure i w
  | None => w
  end.

(** [{ ...options, async: true, replace: true, showProgress: false,
      onSuccess, onError }] of navigation [i] *)
Definition backgroundOptions (i : nat) (options : option (VisitOptions nat))
  : VisitOptions Callback :=
  let o := default noOptions options in
  {| method := method o;
     preserveScroll := preserveScroll o;
     preserveState := preserveState o;
     replace := Some true;
     async := Some true;
     showProgress := Some false;
     onSuccess := Some (BackgroundOnSuccess i);
     onError := Some (BackgroundOnError i) |}.

(** [{ ...options, onSuccess, onError }] of passthrough [p] *)
Definition passthroughOptions (p : nat) (options : option (VisitOptions nat))
  : VisitOptions Callback :=
  let o := default noOptions options in
  {| method := method o;
     preserveScroll := preserveScroll o;
     preserveState := preserveState o;
     replace := replace o;
     async := async o;
     showProgress := showProgress o;
     onSuccess := Some (PassthroughOnSuccess p);
     onError := Some (PassthroughOnError p) |}.

(** The closure [fireBackground] of navigation [i]. *)
Definition fireBackground (i : nat) (w : World) : World :=
  match navs w !! i with
  | Some n =>
      if backgroundFired n then w
      else
        let w := markFired i w in
        let w := removeListener i w in
        let w := clearTimeout i w in
        let w := setCancelPending None w in
        emit (OriginalVisit (nc_href n)
                (Some (backgroundOptions i (nc_options n)))) w
  | None => w
  end.

(** Which way a call of [patchedVisit] goes, in the order of the
    source's early returns. *)
Inductive Decision : Type :=
| SkipHashOnly
| SkipSamePage
| SkipExternal
| SkipInvalidURL
| SkipNonGet
| SkipNoMatch
| SkipShouldNot
| Passthrough (m : MatchResult)
| Optimistic (m : MatchResult).

(** [options?.method && options.method !== 'get'] *)
Definition nonGet (options : option (VisitOptions nat)) : bool :=
  match opt method options with
  | Some mth => JS.truthy mth && negb (String.eqb mth "get")
  | None => false
  end.

(** From the non-GET check on, with the final [urlPath]. *)
Definition classifyPath (win : option Window) (urlPath : string)
           (options : option (VisitOptions nat)) (now : Z) (w : World)
  : Decision :=
  if nonGet options then SkipNonGet
  else
    match match_ matcher urlPath with
    | None => SkipNoMatch
    | Some m =>
        if negb (shouldOptimisticallyNavigate win m now w) then SkipShouldNot
        else
          let cached := Cache.getOrStale config now (mr_url m) (store w) in
          if negb (bool_decide (is_Some cached)) && patchPreflight
             && bool_decide (Preflight.check (preflightData w) now
                               (middleware (mr_route m)) = None)
          then Passthrough m
          else Optimistic m
    end.

Definition classify (win : option Window) (href : Href)
           (options : option (VisitOptions nat)) (now : Z) (w : World)
  : Decision :=
  let urlPath :=
    match href with
    | HrefURL u => pathname u
    | HrefString s => s
    end in
  if JS.startsWith urlPath "#" then SkipHashOnly
  else
    let currentPageUrl :=
      match win with
      | Some wd => option_map pg_url (history_page wd)
      | None => None
      end in
    if bool_decide (currentPageUrl = Some urlPath) then SkipSamePage
    else if JS.startsWith urlPath "http://"
            || JS.startsWith urlPath "https://"
    then
      match newURL host urlPath with
      | Some parsedUrl =>
          let currentOrigin :=
            match win with
            | Some wd => location_origin wd
            | None => ""
            end in
          if negb (String.eqb (origin parsedUrl) currentOrigin)
          then SkipExternal
          else classifyPath win (pathname parsedUrl) options now w
      | None => SkipInvalidURL
      end
    else classifyPath win urlPath options now w.

(** [patchedVisit] after the cancellation at its head. *)
Definition visitAfterCancel (win : option Window) (href : Href)
           (options : option (VisitOptions nat)) (now : Z) (w : World) : World :=
  match classify win href options now w with
  | Passthrough m =>
      let p := length (passes w) in
      let w := setPasses (passes w ++ [{| pc_options := options;
                                          pc_match := m |}]) w in
      emit (OriginalVisit href (Some (passthroughOptions p options))) w
  | Optimistic m =>
      let i := length (navs w) in
      let w := setNavs (navs w ++ [{| nc_href := href;
                                      nc_options := options;
                                      nc_match := m;
                                      backgroundFired := false |}]) w in
      let w := setListeners (listeners w ++ [i]) w in
      let w := setTimers (timers w ++ [(i, fallbackDelay)]) w in
      let w := setCancelPending (Some i) w in
      optimisticNavigate m options now w
  | _ => emit (OriginalVisit href (option_map untouched options)) w
  end.

Definition patchedVisit (win : option Window) (href : Href)
           (options : option (VisitOptions nat)) (now : Z) (w : World) : World :=
  visitAfterCancel win href options now (callCancelPending w).

(** [if (options?.onSuccess) options.onSuccess(page)] *)
Definition callerOnSuccess (options : option (VisitOptions nat)) (page : Page)
           (w : World) : World :=
  match opt onSuccess options with
  | Some cb => emit (CallerSuccess cb page) w
  | None => w
  end.

(** [if (options?.onError) options.onError(errors)] *)
Definition callerOnError (options : option (VisitOptions nat)) (w : World)
  : World :=
  match opt onError options with
  | Some cb => emit (CallerError cb) w
  | None => w
  end.

(** [preflight.update(page.props._force10.preflight)] when present *)
Definition feedPreflight (page : Page) (w : World) : World :=
  match force10_preflight (pg_props page) with
  | Some data => setPreflightData (Preflight.update data (preflightData w)) w
  | None => w
  end.

Definition cachedPageOf (page : Page) (now : Z) : CachedPage :=
  {| cp_props := pg_props page; cp_timestamp := now;
     cp_url := pg_url page; cp_component := pg_component page |}.

(** [for (const pattern of serverDirectives.invalidate)
       cache.invalidateByPattern(pattern)]: stops where a pattern
    throws. *)
Fixpoint invalidateAll (patterns : list string) (st : Cache.Store)
  : Cache.Store * Completion :=
  match patterns with
  | [] => (st, Normal)
  | pattern :: rest =>
      match Cache.invalidateByPattern pattern st with
      | Some st' => invalidateAll rest st'
      | None => (st, Thrown)
      end
  end.

(** [backgroundOptions.onSuccess] of navigation [i]; [None]: the call
    does not come to an end. *)
Definition backgroundOnSuccess (i : nat) (page : Page) (now : Z)
           (w : World) : option (World * Completion) :=
  match navs w !! i with
  | None => Some (w, Normal)
  | Some n =>
      let m := nc_match n in
      let w := if patchPreflight then feedPreflight page w else w in
      if negb (String.eqb (pg_component page) (component (mr_route m)))
      then
        let w := setStore (Cache.remove (mr_url m) (store w)) w in
        let w := setLoaded w in
        Some (callerOnSuccess (nc_options n) page w, Normal)
      else
        match Cache.set config (mr_url m) (cachedPageOf page now) (store w)
        with
        | None => None
        | Some st =>
            match invalidateAll
                    (default [] (force10_server_invalidate (pg_props page)))
                    st
            with
            | (st', Thrown) => Some (setStore st' w, Thrown)
            | (st', Normal) =>
                let w := setStore st' w in
                let w := setLoaded w in
                Some (callerOnSuccess (nc_options n) page w, Normal)
            end
        end
  end.

(** [backgroundOptions.onError] of navigation [i] *)
Definition backgroundOnError (i : nat) (w : World) : World :=
  match navs w !! i with
  | None => w
  | Some n => callerOnError (nc_options n) (setLoaded w)
  end.

(** [passthroughOptions.onSuccess] of passthrough [p]; [None]: the
    call does not come to an end. *)
Definition passthroughOnSuccess (p : nat) (page : Page) (now : Z)
           (w : World) : option World :=
  match passes w !! p with
  | None => Some w
  | Some c =>
      let m := pc_match c in
      let w := feedPreflight page w in
      if String.eqb (pg_component page) (component (mr_route m)) then
        match Cache.set config (mr_url m) (cachedPageOf page now) (store w)
        with
        | None => None
        | Some st => Some (callerOnSuccess (pc_options c) page (setStore st w))
        end
      else Some (callerOnSuccess (pc_options c) page w)
  end.

(** [passthroughOptions.onError] of passthrough [p] *)
Definition passthroughOnError (p : nat) (w : World) : World :=
  match passes w !! p with
  | None => w
  | Some c => callerOnError (pc_options c) w
  end.

(** [patch.remove()] *)
Definition removePatch (w : World) : World :=
  callCancelPending (setRouterVisitPatched false w).

(** [patch.apply()] *)
Definition applyPatchAgain (w : World) : World :=
  setRouterVisitPatched true w.

(** *** The event loop

    What can happen to an engine instance, one event at a time: a call
    of the patched [visit]; the host emitting ['navigate'] to the
    listeners it holds; a fallback timer running out; any other call
    of a [fireBackground] closure; the host answering a request through
    a callback it was given; [remove()] and [apply()]. The host does
    not call back into the engine while a call is running. *)
Inductive Event : Type :=
| EvVisit (win : option Window) (href : Href)
          (options : option (VisitOptions nat)) (now : Z)
| EvNavigate
| EvTimeout (i : nat)
| EvFireBackground (i : nat)
| EvSuccess (cb : Callback) (page : Page) (now : Z)
| EvError (cb : Callback)
| EvRemove
| EvApply.

(** One event; [None]: the engine hangs in it. *)
Definition step (ev : Event) (w : World) : option World :=
  match ev with
  | EvVisit win href options now => Some (patchedVisit win href options now w)
  | EvNavigate =>
      Some (fold_left (fun w' i => fireBackground i w') (listeners w) w)
  | EvTimeout i =>
      if existsb (fun t => Nat.eqb (fst t) i) (timers w)
      then Some (fireBackground i (clearTimeout i w))
      else Some w
  | EvFireBackground i => Some (fireBackground i w)
  | EvSuccess cb page now =>
      match cb with
      | BackgroundOnSuccess i =>
          option_map fst (backgroundOnSuccess i page now w)
      | PassthroughOnSuccess p => passthroughOnSuccess p page now w
      | _ => Some w
      end
  | EvError cb =>
      match cb with
      | BackgroundOnError i => Some (backgroundOnError i w)
      | PassthroughOnError p => Some (passthroughOnError p w)
      | _ => Some w
      end
  | EvRemove => Some (removePatch w)
  | EvApply => Some (applyPatchAgain w)
  end.

Fixpoint run (evs : list Event) (w : World) : option World :=
  match evs with
  | [] => Some w
  | ev :: rest =>
      match step ev w with
      | Some w' => run rest w'
      | None => None
      end
  end.

(** The background request of navigation [i] in the trace. *)
Definition isBackgroundRequest (i : nat) (e : Effect) : bool :=
  match e with
  | OriginalVisit _ (Some o) =>
      bool_decide (onSuccess o = Some (BackgroundOnSuccess i))
  | _ => false
  end.

Definition backgroundRequests (i : nat) (w : World) : nat :=
  length (List.filter (isBackgroundRequest i) (trace w)).

Definition isOriginalVisit (e : Effect) : bool :=
  match e with
  | OriginalVisit _ _ => true
  | _ => false
  end.

Definition originalVisits (w : World) : nat :=
  length (List.filter isOriginalVisit (trace w)).

(** Navigations whose background request is armed and has neither
    fired nor been cancelled. *)
Definition pendingBackgrounds (w : World) : nat :=
  length (List.filter (fun n => negb (backgroundFired n)) (navs w)).

End Engine.

(* ================================================================= *)
(** ** Configuration (config.ts) and debug output (debug.ts)

    [deepMerge] works on untyped objects, so the embedding has the JS
    values a configuration can hold. An object is the list of its own
    properties in insertion order; its keys are assumed not to be
    integer-like strings (which [Object.keys] would list first) nor
    [__proto__]. *)

Module Config.

#[warnings="-register-all"] Inductive Value : Type :=
| VUndefined
| VNull
| VBool (b : bool)
| VNumber (n : Z)
| VString (s : string)
| VArray (items : list Value)
| VObject (props : list (string * Value)).

Definition Obj : Type := list (string * Value).

(** [o[k]]: [undefined] for a key the object does not have. *)
Definition objGet (k : string) (o : Obj) : Value :=
  match List.find (fun kv => String.eqb (fst kv) k) o with
  | Some kv => snd kv
  | None => VUndefined
  end.

(** [o[k] = v]: a present key keeps its place, a new one goes last. *)
Fixpoint objSet (k : string) (v : Value) (o : Obj) : Obj :=
  match o with
  | [] => [(k, v)]
  | (k', v') :: rest =>
      if String.eqb k' k then (k, v) :: rest else (k', v') :: objSet k v rest
  end.

(** [Object.keys(o)] *)
Definition objKeys (o : Obj) : list string := List.map fst o.

(** [{ ...a, ...b }] *)
Definition spread (a b : Obj) : Obj :=
  fold_left (fun acc kv => objSet (fst kv) (snd kv) acc) b a.

(** [Boolean(v)] *)
Definition truthy (v : Value) : bool :=
  match v with
  | VUndefined => false
  | VNull => false
  | VBool b => b
  | VNumber n => negb (n =? 0)
  | VString s => JS.truthy s
  | VArray _ => true
  | VObject _ => true
  end.

Definition defaultConfig : Obj :=
  [("enabled", VBool true);
   ("cache", VObject [("strategy", VString "stale-while-revalidate");
                      ("ttl", VNumber (5 * 60 * 1000));
                      ("maxEntries", VNumber 50)]);
   ("loading", VObject [("suppressProgress", VBool true)]);
   ("debug", VBool false);
   ("routes", VObject [("exclude", VArray [])])].

(** [deepMerge]: the loop over [Object.keys(source)], starting from
    the copy [{ ...target }]. *)
Definition deepMerge (target source : Obj) : Obj :=
  fold_left
    (fun result key =>
       let sourceVal := objGet key source in
       let targetVal := objGet key target in
       match sourceVal, targetVal with
       | VObject so, VObject to => objSet key (VObject (spread to so)) result
       | VUndefined, _ => result
       | _, _ => objSet key sourceVal result
       end)
    (objKeys source) target.

(** The module-level [_config] is threaded through: each function
    takes the current value and returns the new one, which is also the
    value the source function returns. *)
Definition initialConfig : Obj := deepMerge defaultConfig [].

Definition createConfig (userConfig : option Obj) (_config : Obj) : Obj :=
  deepMerge defaultConfig (default [] userConfig).

Definition getConfig (_config : Obj) : Obj := _config.

Definition updateConfig (updates : Obj) (_config : Obj) : Obj :=
  deepMerge _config updates.

End Config.

Module Debug.

(** A call of [console.log] or [console.warn]; the first argument is
    always ['[Force10]'], [data] is passed on when it is not
    [undefined]. *)
Inductive ConsoleCall : Type :=
| ConsoleLog (message : string) (data : option string)
| ConsoleWarn (message : string) (data : option string).

Definition log (message : string) (data : option string)
           (_config : Config.Obj) (console : list ConsoleCall)
  : list ConsoleCall :=
  if negb (Config.truthy (Config.objGet "debug" (Config.getConfig _config)))
  then console
  else console ++ [ConsoleLog message data].

Definition warn (message : string) (data : option string)
           (_config : Config.Obj) (console : list ConsoleCall)
  : list ConsoleCall :=
  if negb (Config.truthy (Config.objGet "debug" (Config.getConfig _config)))
  then console
  else console ++ [ConsoleWarn message data].

End Debug.

(* ================================================================= *)
(** ** Server-side evaluator (PreflightChecker.php)

    A PHP array with string keys is the list of its entries in
    insertion order (no middleware string is integer-like, which PHP
    would turn into an integer key). What the built-in evaluators read
    ([auth()], the session, the configuration, [time()]) is a record. *)

Module PreflightChecker.

Record Request : Type := {
  user : option bool;               (* [auth()->user()]: its [hasVerifiedEmail()] *)
  passwordConfirmedAt : option Z;   (* [session('auth.password_confirmed_at')] *)
  passwordTimeout : option Z;       (* [config('auth.password_timeout')], if set *)
  time : Z                          (* [time()], epoch seconds *)
}.

Definition Evaluator : Type := Request -> PreflightResult.

(** [$array[$key]], [None] where [isset] fails. *)
Definition arrayGet {A : Type} (key : string) (array : list (string * A))
  : option A :=
  match List.find (fun kv => String.eqb (fst kv) key) array with
  | Some kv => Some (snd kv)
  | None => None
  end.

(** [$array[$key] = $value] *)
Fixpoint arraySet {A : Type} (key : string) (value : A)
         (array : list (string * A)) : list (string * A) :=
  match array with
  | [] => [(key, value)]
  | (k, v) :: rest =>
      if String.eqb k key then (key, value) :: rest
      else (k, v) :: arraySet key value rest
  end.

(** [array_unique]: the first occurrence of each value, in order. *)
Fixpoint array_unique (values : list string) : list string :=
  match values with
  | [] => []
  | x :: rest =>
      x :: List.filter (fun y => negb (String.eqb y x)) (array_unique rest)
  end.

(** [Str::before($subject, ':')]: the part before the first [:], the
    whole string when there is none. *)
Definition Str_before (subject : string) : string := JS.beforeFirst ":" subject.

(** [auth()->check()] *)
Definition authCheck (r : Request) : bool := bool_decide (is_Some (user r)).

Definition evaluateAuth : Evaluator :=
  fun r => {| pass := authCheck r; expiresAt := None |}.

Definition evaluateGuest : Evaluator :=
  fun r => {| pass := negb (authCheck r); expiresAt := None |}.

(** [auth()->user()?->hasVerifiedEmail() ?? false] *)
Definition evaluateVerified : Evaluator :=
  fun r => {| pass := default false (user r); expiresAt := None |}.

Definition evaluatePasswordConfirm : Evaluator :=
  fun r =>
    let timeout := default 10800 (passwordTimeout r) in
    match passwordConfirmedAt r with
    | None => {| pass := false; expiresAt := None |}
    | Some confirmedAt =>
        if confirmedAt =? 0 then {| pass := false; expiresAt := None |}
        else
          let expiresAt := confirmedAt + timeout in
          {| pass := time r <? expiresAt; expiresAt := Some expiresAt |}
    end.

(** [register] *)
Definition register (middleware : string) (evaluator : Evaluator)
           (evaluators : list (string * Evaluator))
  : list (string * Evaluator) :=
  arraySet middleware evaluator evaluators.

(** [__construct]: the four built-in evaluators. *)
Definition construct : list (string * Evaluator) :=
  register "password.confirm" evaluatePasswordConfirm
    (register "verified" evaluateVerified
       (register "guest" evaluateGuest
          (register "auth" evaluateAuth []))).

(** [evaluate] *)
Definition evaluate (evaluators : list (string * Evaluator))
           (request : Request) (manifestMiddleware : list string)
  : list (string * PreflightResult) :=
  fold_left
    (fun results mw =>
       let name := Str_before mw in
       match arrayGet name evaluators with
       | Some evaluator => arraySet mw (evaluator request) results
       | None => results
       end)
    (array_unique manifestMiddleware) [].

End PreflightChecker.

(* ================================================================= *)
(** ** Vite plugin (packages/vite/src/index.ts): the file watcher

    The part of [configureServer] that decides on a changed file and
    debounces the regeneration of the manifest. A timer is named by a
    number; [generateManifest] is the host's ([php artisan]), its
    result comes with the event that runs it. *)

Module Vite.

(** [s.includes(sub)] *)
Fixpoint includes (s sub : string) : bool :=
  JS.startsWith s sub ||
  match s with
  | EmptyString => false
  | String _ r => includes r sub
  end.

(** [s.endsWith(suffix)] *)
Fixpoint endsWith (s suffix : string) : bool :=
  String.eqb s suffix ||
  match s with
  | EmptyString => false
  | String _ r => endsWith r suffix
  end.

Definition DEFAULT_WATCH_PATTERNS : list string :=
  ["routes/*.php"; "app/Http/Controllers/**/*.php"].

(** The test [handleChange] makes for one pattern. *)
Definition matchesPattern (filePath pattern : string) : bool :=
  let parts := JS.split "*" pattern in
  let prefix := List.hd "" parts in
  let suffix := List.last parts "" in
  includes filePath prefix && endsWith filePath suffix.

Definition isWatchedFile (watchPatterns : list string) (filePath : string)
  : bool :=
  existsb (matchesPattern filePath) watchPatterns.

(** What the debounced callback does to the host. *)
Inductive Action : Type :=
| GenerateManifest                 (* [generateManifest(root)] *)
| FullReload.                      (* [server.ws.send({ type: 'full-reload' })] *)

(** [debounceTimer], the timers the host holds armed, the next timer
    name, and the actions so far. *)
Record Server : Type := {
  debounceTimer : option nat;
  armed : list nat;
  nextTimer : nat;
  actions : list Action
}.

Definition initialServer : Server :=
  {| debounceTimer := None; armed := []; nextTimer := 0; actions := [] |}.

(** [clearTimeout(t)] *)
Definition clearTimeout (t : nat) (s : Server) : Server :=
  {| debounceTimer := debounceTimer s;
     armed := List.filter (fun j => negb (Nat.eqb j t)) (armed s);
     nextTimer := nextTimer s; actions := actions s |}.

(** [handleChange(filePath)] *)
Definition handleChange (watchPatterns : list string) (filePath : string)
           (s : Server) : Server :=
  if negb (isWatchedFile watchPatterns filePath) then s
  else
    let s := match debounceTimer s with
             | Some t => clearTimeout t s
             | None => s
             end in
    {| debounceTimer := Some (nextTimer s);
       armed := armed s ++ [nextTimer s];
       nextTimer := S (nextTimer s);
       actions := actions s |}.

(** The callback of [setTimeout(..., 300)] for timer [t], run by the
    host when the timer is still armed; [success] is what
    [generateManifest] returns. *)
Definition timerFires (t : nat) (success : bool) (s : Server) : Server :=
  if existsb (Nat.eqb t) (armed s) then
    {| debounceTimer := debounceTimer s;
       armed := List.filter (fun j => negb (Nat.eqb j t)) (armed s);
       nextTimer := nextTimer s;
       actions := actions s ++ GenerateManifest ::
                    (if success then [FullReload] else []) |}
  else s.

(** The watcher's ['change'] and ['add'] events, and a timer running
    out. *)
Inductive Event : Type :=
| Changed (filePath : string)
| Added (filePath : string)
| TimedOut (t : nat) (success : bool).

Definition step (watchPatterns : list string) (ev : Event) (s : Server)
  : Server :=
  match ev with
  | Changed filePath => handleChange watchPatterns filePath s
  | Added filePath => handleChange watchPatterns filePath s
  | TimedOut t success => timerFires t success s
  end.

Definition run (watchPatterns : list string) (evs : list Event) (s : Server)
  : Server :=
  fold_left (fun s ev => step watchPatterns ev s) evs s.

End Vite.

(* ================================================================= *)
(** ** Entry point (index.ts)

    The module-level [_navigator] and [_initialized], the router's
    [visit] property, and the module instances [initForce10] makes. An
    instance is named by a number, in the order of creation; what its
    interceptor and navigator do after [initForce10] is the engine
    above. Besides this module nothing assigns [router.visit]. *)

Module Index.

(** The value of [router.visit]. *)
Inductive Visit : Type :=
| RouterVisit                      (* the router's own function *)
| PatchedVisit (i : nat).          (* [patchedVisit] of instance [i] *)

(** The manifest as [initForce10] reads it: [routes] may be missing;
    [preload] is optional, and a call of it ends normally or throws. *)
Record Manifest : Type := {
  routes : option (list ManifestRoute);
  preload : option Completion
}.

(** What [initForce10] makes in one go: the configuration the cache,
    the matcher, the navigator and the interceptor share, the routes of
    the matcher, the table of the preflight evaluator as
    [initForce10] leaves it, and the [originalVisit] the interceptor
    captured. *)
Record Instance : Type := {
  inst_config : Config.Obj;
  inst_routes : list ManifestRoute;
  inst_preflight : gmap string PreflightResult;
  originalVisit : Visit
}.

Record Runtime : Type := {
  _config : Config.Obj;                (* config.ts *)
  console : list Debug.ConsoleCall;
  _navigator : option nat;
  _initialized : bool;
  routerVisit : Visit;
  instances : list Instance;
  preloadCalls : nat                   (* calls of [manifest.preload] *)
}.

Definition initialRuntime : Runtime := {|
  _config := Config.initialConfig; console := []; _navigator := None;
  _initialized := false; routerVisit := RouterVisit; instances := [];
  preloadCalls := 0
|}.

Definition setConfig (x : Config.Obj) (rt : Runtime) : Runtime :=
  {| _config := x; console := console rt; _navigator := _navigator rt;
     _initialized := _initialized rt; routerVisit := routerVisit rt;
     instances := instances rt; preloadCalls := preloadCalls rt |}.

Definition setConsole (x : list Debug.ConsoleCall) (rt : Runtime) : Runtime :=
  {| _config := _config rt; console := x; _navigator := _navigator rt;
     _initialized := _initialized rt; routerVisit := routerVisit rt;
     instances := instances rt; preloadCalls := preloadCalls rt |}.

Definition setNavigator (x : option nat) (rt : Runtime) : Runtime :=
  {| _config := _config rt; console := console rt; _navigator := x;
     _initialized := _initialized rt; routerVisit := routerVisit rt;
     instances := instances rt; preloadCalls := preloadCalls rt |}.

Definition setInitialized (x : bool) (rt : Runtime) : Runtime :=
  {| _config := _config rt; console := console rt;
     _navigator := _navigator rt; _initialized := x;
     routerVisit := routerVisit rt; instances := instances rt;
     preloadCalls := preloadCalls rt |}.

Definition setRouterVisit (x : Visit) (rt : Runtime) : Runtime :=
  {| _config := _config rt; console := console rt;
     _navigator := _navigator rt; _initialized := _initialized rt;
     routerVisit := x; instances := instances rt;
     preloadCalls := preloadCalls rt |}.

Definition addInstance (x : Instance) (rt : Runtime) : Runtime :=
  {| _config := _config rt; console := console rt;
     _navigator := _navigator rt; _initialized := _initialized rt;
     routerVisit := routerVisit rt; instances := instances rt ++ [x];
     preloadCalls := preloadCalls rt |}.

Definition callPreload (rt : Runtime) : Runtime :=
  {| _config := _config rt; console := console rt;
     _navigator := _navigator rt; _initialized := _initialized rt;
     routerVisit := routerVisit rt; instances := instances rt;
     preloadCalls := S (preloadCalls rt) |}.

(** [log(message)] and [warn(message)] of debug.ts *)
Definition log (message : string) (rt : Runtime) : Runtime :=
  setConsole (Debug.log message None (_config rt) (console rt)) rt.

Definition warn (message : string) (rt : Runtime) : Runtime :=
  setConsole (Debug.warn message None (_config rt) (console rt)) rt.

(** [createConfig(config)], which index.ts exports as well *)
Definition createConfig (config : option Config.Obj) (rt : Runtime)
  : Runtime :=
  setConfig (Config.createConfig config (_config rt)) rt.

(** A number in a template literal. *)
Definition numberString (n : nat) : string :=
  DecimalString.NilZero.string_of_uint (Nat.to_uint n).

(** [manifest.routes] where the manifest has it. *)
Definition routesOf (manifest : option Manifest)
  : option (list ManifestRoute) :=
  match manifest with
  | Some m => routes m
  | None => None
  end.

(** [!manifest || !manifest.routes || manifest.routes.length === 0] *)
Definition noRoutes (manifest : option Manifest) : bool :=
  match routesOf manifest with
  | Some l => Nat.eqb (length l) 0
  | None => true
  end.

(** The table of a new preflight evaluator after
    [if (f10Data?.preflight) preflight.update(f10Data.preflight)]. *)
Definition initialPreflight (wd : Window) : gmap string PreflightResult :=
  match history_page wd with
  | Some currentPage =>
      match force10_preflight (pg_props currentPage) with
      | Some data => Preflight.update data ∅
      | None => ∅
      end
  | None => ∅
  end.

(** The head and the tail of [applyPatch], for the instance it is
    called for: [originalVisit] is what [router.visit] holds at the
    call. *)
Definition applyPatch (i : nat) (resolvedConfig : Config.Obj)
           (rts : list ManifestRoute)
           (preflight : gmap string PreflightResult) (rt : Runtime)
  : Runtime :=
  let inst := {| inst_config := resolvedConfig; inst_routes := rts;
                 inst_preflight := preflight;
                 originalVisit := routerVisit rt |} in
  let rt := addInstance inst rt in
  let rt := log "Patching router.visit (original is function)" rt in
  let rt := setRouterVisit (PatchedVisit i) rt in
  log "Patch applied. router.visit is now patched: true" rt.

(** The function [initForce10] returns: [() => {}], or the cleanup of
    an instance. *)
Inductive Cleanup : Type :=
| NoOp
| Remove (i : nat).

(** How a call of [initForce10] ends. *)
Inductive Outcome : Type :=
| Returned (cleanup : Cleanup)
| Threw.

(** [initForce10(manifest, config)]; [window] is [None] where
    [typeof window === 'undefined']. *)
Definition initForce10 (window : option Window) (manifest : option Manifest)
           (config : option Config.Obj) (rt : Runtime) : Outcome * Runtime :=
  match window with
  | None => (Returned NoOp, rt)
  | Some wd =>
      if _initialized rt
      then (Returned NoOp, warn "Force10 is already initialized. Skipping." rt)
      else
        let rt := createConfig config rt in
        let resolvedConfig := _config rt in
        if negb (Config.truthy (Config.objGet "enabled" resolvedConfig))
        then (Returned NoOp, log "Force10 is disabled via config." rt)
        else if noRoutes manifest
        then (Returned NoOp,
              warn "No routes in manifest. Force10 will be a no-op." rt)
        else
          let rts := default [] (routesOf manifest) in
          let i := length (instances rt) in
          let rt := setNavigator (Some i) rt in
          let rt := applyPatch i resolvedConfig rts (initialPreflight wd) rt in
          let rt := setInitialized true rt in
          let rt := log ("Initialized with " ++ numberString (length rts)
                           ++ " routes.") rt in
          match manifest ≫= preload with
          | None => (Returned (Remove i), rt)
          | Some Thrown => (Threw, callPreload rt)
          | Some Normal =>
              (Returned (Remove i),
               log "Preloading component chunks for all manifest routes."
                 (callPreload rt))
          end
  end.

(** The cleanup [initForce10] returns for instance [i]; of
    [patch.remove()] the assignment to [router.visit] is here, the
    cancellation of a pending background request is the engine's. *)
Definition cleanup (i : nat) (rt : Runtime) : Runtime :=
  match instances rt !! i with
  | Some inst =>
      let rt := setRouterVisit (originalVisit inst) rt in
      let rt := setNavigator None rt in
      let rt := setInitialized false rt in
      log "Force10 removed." rt
  | None => rt
  end.

Definition callCleanup (c : Cleanup) (rt : Runtime) : Runtime :=
  match c with
  | NoOp => rt
  | Remove i => cleanup i rt
  end.

(** [isForce10Loading()]; [isLoading i] is what the navigator of
    instance [i] answers. *)
Definition isForce10Loading (isLoading : nat -> bool) (rt : Runtime) : bool :=
  match _navigator rt with
  | Some i => isLoading i
  | None => false
  end.

(** What the application does with the module: it calls [initForce10]
    and keeps what it returns, calls a function it was returned (the
    [k]-th), at any time and any number of times, or calls
    [createConfig]. *)
Inductive Call : Type :=
| CallInit (window : option Window) (manifest : option Manifest)
           (config : option Config.Obj)
| CallCleanup (k : nat)
| CallCreateConfig (config : option Config.Obj).

(** The runtime and the functions returned so far. *)
Definition App : Type := Runtime * list Cleanup.

Definition step (c : Call) (app : App) : App :=
  let (rt, held) := app in
  match c with
  | CallInit window manifest config =>
      match initForce10 window manifest config rt with
      | (Returned cl, rt') => (rt', (held ++ [cl])%list)
      | (Threw, rt') => (rt', held)
      end
  | CallCleanup k =>
      match held !! k with
      | Some cl => (callCleanup cl rt, held)
      | None => (rt, held)
      end
  | CallCreateConfig config => (createConfig config rt, held)
  end.

Definition run (calls : list Call) (app : App) : App :=
  fold_left (fun app c => step c app) calls app.

End Index.

(* ================================================================= *)
(** ** Page cache, with the identity of its objects (cache.ts)

    [set] puts the caller's object itself into the [Map] and
    [updateProps] assigns to the fields of the stored object, so an
    object stored under two URLs changes under both. Here an object is
    an address into a heap and the [Map] holds addresses. [Cache] above
    is this cache read through its addresses ([view]); the two agree on
    a cache that holds no object under two URLs, as the interceptor's
    does, whose every [cache.set] stores a new object literal. *)

Module CacheObjects.

Record State : Type := {
  slots : list (string * nat);     (* the [Map], in insertion order *)
  heap : list CachedPage           (* the objects, by address *)
}.

Definition slotIs (k : string) (kv : string * nat) : bool :=
  String.eqb (fst kv) k.

(** [store.get(k)]: the object. *)
Definition slotGet (k : string) (l : list (string * nat)) : option nat :=
  match List.find (slotIs k) l with
  | Some kv => Some (snd kv)
  | None => None
  end.

(** [store.delete(k)] *)
Definition slotDelete (k : string) (l : list (string * nat))
  : list (string * nat) :=
  List.filter (fun kv => negb (slotIs k kv)) l.

(** [store.set(k, a)] *)
Fixpoint slotSet (k : string) (a : nat) (l : list (string * nat))
  : list (string * nat) :=
  match l with
  | [] => [(k, a)]
  | kv :: rest => if slotIs k kv then (k, a) :: rest else kv :: slotSet k a rest
  end.

(** The loop of [evictIfNeeded]; [None]: out of fuel. *)
Fixpoint evictIfNeeded (maxEntries : Z) (fuel : nat) (l : list (string * nat))
  : option (list (string * nat)) :=
  if Z.of_nat (length l) >? maxEntries then
    match fuel with
    | O => None
    | S fuel' =>
        evictIfNeeded maxEntries fuel'
          match l with
          | [] => l
          | (oldestKey, _) :: _ => slotDelete oldestKey l
          end
    end
  else Some l.

(** What [store.get(url)] holds at the moment. *)
Definition storeGet (url : string) (c : State) : option CachedPage :=
  match slotGet url (slots c) with
  | Some a => heap c !! a
  | None => None
  end.

(** An object literal of the caller: the state with the new object,
    and its address. *)
Definition newObject (page : CachedPage) (c : State) : nat * State :=
  (length (heap c), {| slots := slots c; heap := heap c ++ [page] |}).

(** [set(url, page)] for the object [page] at address [a]; [None]: the
    eviction loop does not come to an end. *)
Definition set (config : Force10Config) (url : string) (a : nat) (c : State)
  : option State :=
  let l := slotSet url a (slotDelete url (slots c)) in
  match evictIfNeeded (cache_maxEntries config) (length l) l with
  | Some l' => Some {| slots := l'; heap := heap c |}
  | None => None
  end.

(** [updateProps]: the two assignments to the stored object. *)
Definition updateProps (now : Z) (url : string) (props : Props) (c : State)
  : State :=
  match slotGet url (slots c) with
  | None => c
  | Some a =>
      match heap c !! a with
      | None => c
      | Some entry =>
          {| slots := slots c;
             heap := <[a := {| cp_props := Cache.spread (cp_props entry) props;
                               cp_timestamp := now;
                               cp_url := cp_url entry;
                               cp_component := cp_component entry |}]>
                       (heap c) |}
      end
  end.

Definition get (config : Force10Config) (now : Z) (url : string) (c : State)
  : option CachedPage :=
  match storeGet url c with
  | None => None
  | Some entry => if Cache.isExpired config now entry then None else Some entry
  end.

Definition getOrStale (config : Force10Config) (now : Z) (url : string)
           (c : State) : option (CachedPage * bool) :=
  match storeGet url c with
  | None => None
  | Some entry => Some (entry, Cache.isExpired config now entry)
  end.

(** The cache read through its addresses. *)
Definition view (c : State) : Cache.Store :=
  omap (fun kv => match heap c !! snd kv with
                  | Some entry => Some (fst kv, entry)
                  | None => None
                  end) (slots c).

End CacheObjects.

(* ================================================================= *)
(** ** Auxiliary definitions used to state the properties *)

(** The operations of the cache that change its store. *)
Inductive CacheOp : Type :=
| OpSet (url : string) (page : CachedPage)
| OpRemove (url : string)
| OpClear
| OpInvalidateByPattern (pattern : string)
| OpUpdateProps (now : Z) (url : string) (props : Props).

(** One operation; [None]: it does not come to an end. An
    [invalidateByPattern] that throws leaves the store as it was. *)
Definition applyOp (config : Force10Config) (op : CacheOp)
           (st : Cache.Store) : option Cache.Store :=
  match op with
  | OpSet url page => Cache.set config url page st
  | OpRemove url => Some (Cache.remove url st)
  | OpClear => Some (Cache.clear st)
  | OpInvalidateByPattern pattern =>
      Some (default st (Cache.invalidateByPattern pattern st))
  | OpUpdateProps now url props => Some (Cache.updateProps now url props st)
  end.

Fixpoint applyOps (config : Force10Config) (ops : list CacheOp)
         (st : Cache.Store) : option Cache.Store :=
  match ops with
  | [] => Some st
  | op :: rest =>
      match applyOp config op st with
      | Some st' => applyOps config rest st'
      | None => None
      end
  end.

(** The invariant of the cache's store: one entry per key, at most
    [maxEntries] entries. *)
Definition storeOk (config : Force10Config) (st : Cache.Store) : Prop :=
  NoDup (Cache.storeKeys st) /\
  Cache.storeSize st <= Cache.maxEntries config.

(** The page of a [router.push] / [router.replace] call. *)
Definition renderedPage (e : Effect) : option PushedPage :=
  match e with
  | RouterPush page => Some page
  | RouterReplace page => Some page
  | _ => None
  end.

(** A recorded verdict fails the check: [pass] is false, or a nonzero
    [expiresAt] is not later than the current time in whole seconds. *)
Definition verdictFails (now : Z) (v : PreflightResult) : Prop :=
  pass v = false \/
  exists e, expiresAt v = Some e /\ e <> 0 /\ e <= now / 1000.

(** Failure of a verdict by the second: [pass] is false, or the second
    [expiresAt] has come. *)
Definition verdictLapsed (now : Z) (v : PreflightResult) : Prop :=
  pass v = false \/ exists e, expiresAt v = Some e /\ e <= now / 1000.

(** Failure of a verdict as the specification words it: [pass] is false
    or [expiresAt] is strictly in the past. *)
Definition verdictFailsStrictlyPast (now : Z) (v : PreflightResult) : Prop :=
  pass v = false \/ exists e, expiresAt v = Some e /\ e * 1000 < now.

(** A host for closed examples: its [decodeURI] rejects every string
    with a percent sign and its [URL] parser every string. The examples
    hold no percent sign and no absolute URL. *)
Definition stubHost : Host :=
  {| hostDecodeURI := fun _ => None; newURL := fun _ => None |}.

Definition emptyProps : Props :=
  {| fields := []; auth_user := None; force10_preflight := None;
     force10_server_invalidate := None |}.

(** The background request of navigation [i] has fired or has been
    cancelled. *)
Definition firedAt (i : nat) (w : World) : Prop :=
  exists n, navs w !! i = Some n /\ backgroundFired n = true.

(** The background request of navigation [i] is armed and pending. *)
Definition pendingAt (i : nat) (w : World) : Prop :=
  exists n, navs w !! i = Some n /\ backgroundFired n = false.

(** The interceptor holds the cancel closure of every pending
    navigation. *)
Definition trackedPending (w : World) : Prop :=
  forall j, pendingAt j w -> cancelPendingBackground w = Some j.

(** No navigation has a pending background request. *)
Definition noPending (w : World) : Prop :=
  forall j, ~ pendingAt j w.

(** [w'] differs from [w] in nothing the background gate looks at: same
    closure rows, same [cancelPendingBackground], same background
    requests issued. *)
Definition sameGate (w w' : World) : Prop :=
  navs w' = navs w /\
  cancelPendingBackground w' = cancelPendingBackground w /\
  forall i, backgroundRequests i w' = backgroundRequests i w.

(** From [w] to [w'] the background request of navigation [i], fired
    or cancelled, stays so and is not issued again. *)
Definition settled (i : nat) (w w' : World) : Prop :=
  firedAt i w' /\ backgroundRequests i w' = backgroundRequests i w.

(** From [w] to [w'] the latch of navigation [i] does not reopen, and
    its background request is issued at most once more, and then only
    by closing the latch. *)
Definition advance (i : nat) (w w' : World) : Prop :=
  (firedAt i w -> firedAt i w') /\
  (backgroundRequests i w' = backgroundRequests i w \/
   (~ firedAt i w /\ firedAt i w' /\
    backgroundRequests i w' = S (backgroundRequests i w))).

(** No background request was issued for a navigation whose latch is
    open (or that does not exist yet), and at most one for any. *)
Definition firedAtMostOnce (w : World) : Prop :=
  forall i, (backgroundRequests i w <= 1)%nat /\
            (~ firedAt i w -> backgroundRequests i w = 0%nat).

(** Only navigation [i] may have a pending background request. *)
Definition onlyPending (i : nat) (w : World) : Prop :=
  forall j, pendingAt j w -> j = i.

(** The two triggers of navigation [i]'s background request (the host's
    ['navigate'] event and the fallback timer), or a direct call of its
    [fireBackground]. *)
Definition isTrigger (i : nat) (ev : Event) : bool :=
  match ev with
  | EvNavigate => true
  | EvTimeout j => Nat.eqb j i
  | EvFireBackground j => Nat.eqb j i
  | _ => false
  end.

(** Reading [src] takes the parser from any state to a state that does
    not depend on what follows, with the same enclosing groups. *)
Definition parsesThrough (src : string) : Prop :=
  forall stack cur q, exists cur' q', forall rest,
    RegExp.parse stack cur q (list_ascii_of_string src ++ rest)%list =
      RegExp.parse stack cur' q' rest.

(** The strings a regular expression matches in full. *)
Inductive matches : RegExp.re -> list ascii -> Prop :=
| matches_eps : matches RegExp.Eps []
| matches_chr c : matches (RegExp.Chr c) [c]
| matches_dot c :
    RegExp.isLineTerminator c = false -> matches RegExp.Dot [c]
| matches_notchr c d : d <> c -> matches (RegExp.NotChr c) [d]
| matches_cat r1 r2 s1 s2 :
    matches r1 s1 -> matches r2 s2 -> matches (RegExp.Cat r1 r2) (s1 ++ s2)
| matches_alt_l r1 r2 s : matches r1 s -> matches (RegExp.Alt r1 r2) s
| matches_alt_r r1 r2 s : matches r2 s -> matches (RegExp.Alt r1 r2) s
| matches_star_nil r : matches (RegExp.Star r) []
| matches_star_app r s1 s2 :
    matches r s1 -> matches (RegExp.Star r) s2 ->
    matches (RegExp.Star r) (s1 ++ s2).

(** A glob pattern accepts a string, in the specification's words: [*]
    stands for any run of characters and [?] for any one character (no
    line terminator among them, as for [.] in a regular expression);
    any other character stands for itself. *)
Inductive globAccepts : list ascii -> list ascii -> Prop :=
| glob_end : globAccepts [] []
| glob_star p run s :
    List.Forall (fun c => RegExp.isLineTerminator c = false) run ->
    globAccepts p s -> globAccepts ("*"%char :: p) (run ++ s)
| glob_one p c s :
    RegExp.isLineTerminator c = false ->
    globAccepts p s -> globAccepts ("?"%char :: p) (c :: s)
| glob_char p c s :
    c <> "*"%char -> c <> "?"%char ->
    globAccepts p s -> globAccepts (c :: p) (c :: s).

(** The regular expression of one glob character, and of a pattern. *)
Definition globTerm (ch : ascii) : RegExp.re :=
  if Ascii.eqb ch "*" then RegExp.Star RegExp.Dot
  else if Ascii.eqb ch "?" then RegExp.Dot
  else RegExp.Chr ch.

Definition globRegex (pattern : list ascii) : RegExp.re :=
  fold_right (fun ch acc => RegExp.Cat (globTerm ch) acc) RegExp.Eps pattern.

(** The three kinds of pattern segment. *)
Definition isStaticSegment (seg : string) : bool :=
  negb (Matcher.isWildcard seg) && negb (Matcher.isParam seg).

Definition isParamSegment (seg : string) : bool :=
  negb (Matcher.isWildcard seg) && Matcher.isParam seg.

Definition countSegments (kind : string -> bool) (pattern : string) : Z :=
  Z.of_nat (length (List.filter kind (Matcher.segments pattern))).

(** The route's compiled pattern accepts the normalised URL: a
    structural match. *)
Definition routeAccepts (host : Host) (r : ManifestRoute) (url : string)
  : bool :=
  match Matcher.compilePattern (pattern r) with
  | Some (re, _) => RegExp.test re (Matcher.normalizePath host url)
  | None => false
  end.

(** Routes in descending order of specificity. *)
Definition descendingRoutes (l : list ManifestRoute) : Prop :=
  StronglySorted
    (fun a b => Matcher.calcSpecificity (pattern b)
                <= Matcher.calcSpecificity (pattern a)) l.

Definition descendingCompiled (l : list Matcher.CompiledRoute) : Prop :=
  StronglySorted
    (fun a b => Matcher.specificity b <= Matcher.specificity a) l.

(** The candidate the matcher settles on among the compiled routes that
    satisfy [P], read off the manifest order: the highest specificity
    wins, the earlier entry on a tie. *)
Fixpoint bestCompiled (P : Matcher.CompiledRoute -> bool)
         (l : list Matcher.CompiledRoute) : option Matcher.CompiledRoute :=
  match l with
  | [] => None
  | x :: rest =>
      if P x then
        match bestCompiled P rest with
        | Some y =>
            if Matcher.specificity y >? Matcher.specificity x
            then Some y else Some x
        | None => Some x
        end
      else bestCompiled P rest
  end.

(** The verdict makes the loop of [check] return false. *)
Definition failsb (now : Z) (v : PreflightResult) : bool :=
  negb (pass v) || Preflight.expired now v.

(** Reading the guard in the table makes the loop return false. *)
Definition guardFails (data : gmap string PreflightResult) (now : Z)
           (g : string) : bool :=
  match Preflight.read data g with
  | Preflight.Recorded v => failsb now v
  | Preflight.Inherited => true
  | Preflight.Undefined => false
  end.

(** Reading the guard in the table finds something. *)
Definition guardKnown (data : gmap string PreflightResult) (g : string)
  : bool :=
  match Preflight.read data g with
  | Preflight.Undefined => false
  | _ => true
  end.

(** Data of the closed examples. *)
Definition exampleConfig : Force10Config :=
  {| enabled := true; cache_ttl := 1000; cache_maxEntries := 3;
     loading_suppressProgress := true; debug := false;
     routes_exclude := [] |}.

Definition examplePage (url : string) (timestamp : Z) : CachedPage :=
  {| cp_props := emptyProps; cp_timestamp := timestamp; cp_url := url;
     cp_component := "TestComponent" |}.

Definition exampleRoute (p c : string) : ManifestRoute :=
  {| pattern := p; component := c; middleware := []; parameters := [] |}.

Definition usersShow : ManifestRoute :=
  {| pattern := "/users/:id"; component := "Users/Show"; middleware := [];
     parameters := [{| rp_name := "id"; rp_required := true |}] |}.

Definition usersCreate : ManifestRoute :=
  exampleRoute "/users/create" "Users/Create".

(** A wizard page with an optional step, Laravel's
    [/users/create/{step?}]. *)
Definition usersCreateStep : ManifestRoute :=
  {| pattern := "/users/create/:step?"; component := "Users/CreateStep";
     middleware := [];
     parameters := [{| rp_name := "step"; rp_required := false |}] |}.

(** The configuration of the exclusion test: [/admin*] is excluded. *)
Definition excludingConfig : Force10Config :=
  {| enabled := true; cache_ttl := 5 * 60 * 1000; cache_maxEntries := 50;
     loading_suppressProgress := true; debug := false;
     routes_exclude := ["/admin*"; "/api/*"] |}.

(** The window of the interceptor tests: the current page is
    [/dashboard], with an authenticated user. *)
Definition dashboardWindow : Window :=
  {| location_origin := "http://localhost";
     history_page :=
       Some {| pg_component := "Dashboard";
               pg_props := {| fields := []; auth_user := Some true;
                              force10_preflight := None;
                              force10_server_invalidate := None |};
               pg_url := "/dashboard" |} |}.

(** A server response for [Users/Index] whose own URL carries a query
    string. *)
Definition usersPageOne : Page :=
  {| pg_component := "Users/Index"; pg_props := emptyProps;
     pg_url := "/users?page=1" |}.

Definition usersIndex : ManifestRoute :=
  exampleRoute "/users" "Users/Index".

(** A matcher that matches nothing. *)
Definition nullMatcher : Force10Matcher :=
  {| match_ := fun _ => None; isExcluded := fun _ => false |}.

(** The matcher of the manifest [{/users -> Users/Index}]. *)
Definition usersMatcher : Force10Matcher :=
  default nullMatcher
          (Matcher.createMatcher stubHost [usersIndex] defaultConfig).

(** The matcher of the manifest [{/admin -> Admin}] under
    [excludingConfig]. *)
Definition adminMatcher : Force10Matcher :=
  default nullMatcher
          (Matcher.createMatcher stubHost [exampleRoute "/admin" "Admin"]
                                 excludingConfig).

(** The state after an optimistic navigation to [/users] from the
    initial state. *)
Definition usersArmed : World :=
  patchedVisit stubHost defaultConfig usersMatcher false false
               (Some dashboardWindow) (HrefString "/users") None 0
               initialWorld.

(** A passing verdict that expires at second 100. *)
Definition boundaryVerdicts : gmap string PreflightResult :=
  {[ "password.confirm" := {| pass := true; expiresAt := Some 100 |} ]}.

(** The value of an opaque prop: the first binding of the key. *)
Definition fieldOf (k : string) (l : list (string * string)) : option string :=
  match List.find (fun kv => String.eqb (fst kv) k) l with
  | Some kv => Some (snd kv)
  | None => None
  end.

(** The string [s] holds [sub] as a substring. *)
Definition holdsSubstring (sub s : string) : Prop :=
  exists a b, s = a ++ sub ++ b.

(** Where the pattern grammar stands after each character of a cache
    pattern, as [patternToRegex] rewrites it: [*] becomes the quantified
    [.*], [?] stays a quantifier or a lazy mark, any other character
    becomes an atom. [None]: nothing to repeat. *)
Definition afterPatternChar (q : RegExp.qstate) (c : ascii)
  : option RegExp.qstate :=
  if Ascii.eqb c "*" then Some RegExp.AfterQuantifier
  else if Ascii.eqb c "?" then
    match q with
    | RegExp.AfterAtom => Some RegExp.AfterQuantifier
    | RegExp.AfterQuantifier => Some RegExp.NothingToRepeat
    | RegExp.NothingToRepeat => None
    end
  else Some RegExp.AfterAtom.

Fixpoint afterPattern (q : RegExp.qstate) (pattern : list ascii)
  : option RegExp.qstate :=
  match pattern with
  | [] => Some q
  | c :: rest =>
      match afterPatternChar q c with
      | Some q' => afterPattern q' rest
      | None => None
      end
  end.

(** What the segments of a route pattern accept, segment by segment: a
    static segment stands for [/] and its own text; a parameter for [/]
    and a non-empty run of characters without [/], or for nothing when
    it is optional ([:name?]); a wildcard for [/] and any run of
    characters other than line terminators, or for nothing. *)
Inductive segmentsAccept : list string -> list ascii -> Prop :=
| accept_end : segmentsAccept [] []
| accept_static seg segs s :
    isStaticSegment seg = true ->
    segmentsAccept segs s ->
    segmentsAccept (seg :: segs)
                   ("/"%char :: list_ascii_of_string seg ++ s)%list
| accept_param seg segs v s :
    isParamSegment seg = true ->
    v <> [] -> ~ In "/"%char v ->
    segmentsAccept segs s ->
    segmentsAccept (seg :: segs) ("/"%char :: v ++ s)%list
| accept_param_absent seg segs s :
    isParamSegment seg = true ->
    JS.endsWithChar seg "?" = true ->
    segmentsAccept segs s ->
    segmentsAccept (seg :: segs) s
| accept_wildcard seg segs run s :
    Matcher.isWildcard seg = true ->
    List.Forall (fun c => RegExp.isLineTerminator c = false) run ->
    segmentsAccept segs s ->
    segmentsAccept (seg :: segs) ("/"%char :: run ++ s)%list
| accept_wildcard_absent seg segs s :
    Matcher.isWildcard seg = true ->
    segmentsAccept segs s ->
    segmentsAccept (seg :: segs) s.

(** A route pattern accepts a path: its segments accept it, up to one
    trailing [/]. *)
Definition patternAccepts (pattern : string) (path : list ascii) : Prop :=
  exists s, segmentsAccept (Matcher.segments pattern) s /\
            (path = s \/ path = (s ++ ["/"%char])%list).

(** The terms the pattern grammar reads in the regular expression of
    one segment. *)
Definition paramGroup : RegExp.re :=
  RegExp.seqOf [RegExp.Cat (RegExp.NotChr "/") (RegExp.Star (RegExp.NotChr "/"))].

Definition segmentTerms (seg : string) : list RegExp.re :=
  if Matcher.isWildcard seg then
    [RegExp.Alt (RegExp.seqOf [RegExp.Star RegExp.Dot; RegExp.Chr "/"])
                RegExp.Eps]
  else if Matcher.isParam seg then
    if JS.endsWithChar seg "?"
    then [RegExp.Alt (RegExp.seqOf [paramGroup; RegExp.Chr "/"]) RegExp.Eps]
    else [RegExp.Chr "/"; paramGroup]
  else RegExp.Chr "/" :: List.map RegExp.Chr (list_ascii_of_string seg).

(** The terms of a sequence, first one first, as one expression. *)
Definition sequence (terms : list RegExp.re) : RegExp.re :=
  fold_right (fun t acc => RegExp.Cat t acc) RegExp.Eps terms.

(** The calls an engine that intercepts nothing hands to the host: one
    call of the original [visit] per call of the patched one, with the
    caller's own arguments. *)
Definition passedThrough (evs : list Event) : list Effect :=
  flat_map (fun ev =>
              match ev with
              | EvVisit _ href options _ =>
                  [OriginalVisit href (option_map untouched options)]
              | _ => []
              end) evs.

(** An engine that has never intercepted a call: no closure rows, no
    pending cancellation, no listener, no timer, an empty cache. *)
Definition idle (w : World) : Prop :=
  navs w = [] /\ passes w = [] /\ cancelPendingBackground w = None /\
  listeners w = [] /\ timers w = [] /\ store w = [] /\
  isLoadingFlag w = false.

(** [typeof href === 'string' ? href : href.pathname], the [urlPath] the
    interceptor starts from. *)
Definition hrefPath (href : Href) : string :=
  match href with
  | HrefURL u => pathname u
  | HrefString s => s
  end.

(** A configuration with [enabled: false]. *)
Definition disabledConfig : Force10Config :=
  {| enabled := false; cache_ttl := 5 * 60 * 1000; cache_maxEntries := 50;
     loading_suppressProgress := true; debug := false;
     routes_exclude := [] |}.

(** A response for [Users/Index] that asks to invalidate the pattern
    [?page=*]. *)
Definition usersPageBadPattern : Page :=
  {| pg_component := "Users/Index";
     pg_props := {| fields := []; auth_user := None;
                    force10_preflight := None;
                    force10_server_invalidate := Some ["?page=*"] |};
     pg_url := "/users" |}.

(** The configuration object as the engine reads it: [None] where a
    field does not hold a value of its declared type. *)
Definition stringsOf (items : list Config.Value) : option (list string) :=
  mapM (fun v => match v with Config.VString s => Some s | _ => None end) items.

Definition readConfig (o : Config.Obj) : option Force10Config :=
  match Config.objGet "enabled" o, Config.objGet "cache" o,
        Config.objGet "loading" o, Config.objGet "debug" o,
        Config.objGet "routes" o with
  | Config.VBool en, Config.VObject c, Config.VObject l, Config.VBool d,
    Config.VObject r =>
      match Config.objGet "ttl" c, Config.objGet "maxEntries" c,
            Config.objGet "suppressProgress" l, Config.objGet "exclude" r with
      | Config.VNumber t, Config.VNumber mx, Config.VBool sp,
        Config.VArray ex =>
          match stringsOf ex with
          | Some exs =>
              Some {| enabled := en; cache_ttl := t; cache_maxEntries := mx;
                      loading_suppressProgress := sp; debug := d;
                      routes_exclude := exs |}
          | None => None
          end
      | _, _, _, _ => None
      end
  | _, _, _, _, _ => None
  end.

(** A well-typed [Partial<Force10Config>] whose nested objects may be
    partial too, as the README writes them. *)
Record PartialConfig : Type := {
  p_enabled : option bool;
  p_cache : option (option Z * option Z);        (* ttl, maxEntries *)
  p_loading : option (option bool);              (* suppressProgress *)
  p_debug : option bool;
  p_routes : option (option (list string))       (* exclude *)
}.

Definition field (k : string) (v : option Config.Value) : Config.Obj :=
  match v with
  | Some x => [(k, x)]
  | None => []
  end.

(** The object literal of a partial configuration: a key for each
    field that is given. *)
Definition objectOf (p : PartialConfig) : Config.Obj :=
  (field "enabled" (option_map Config.VBool (p_enabled p))
   ++ field "cache"
        (option_map
           (fun c => Config.VObject
                       (field "ttl" (option_map Config.VNumber (fst c))
                        ++ field "maxEntries"
                             (option_map Config.VNumber (snd c)))%list)
           (p_cache p))
   ++ field "loading"
        (option_map
           (fun l => Config.VObject
                       (field "suppressProgress" (option_map Config.VBool l)))
           (p_loading p))
   ++ field "debug" (option_map Config.VBool (p_debug p))
   ++ field "routes"
        (option_map
           (fun r => Config.VObject
                       (field "exclude"
                          (option_map
                             (fun l => Config.VArray
                                         (List.map Config.VString l)) r)))
           (p_routes p)))%list.

(** Field by field, the given value or else the current one. *)
Definition overrideConfig (c : Force10Config) (p : PartialConfig)
  : Force10Config :=
  {| enabled := default (enabled c) (p_enabled p);
     cache_ttl :=
       default (cache_ttl c) (p_cache p ≫= fst);
     cache_maxEntries :=
       default (cache_maxEntries c) (p_cache p ≫= snd);
     loading_suppressProgress :=
       default (loading_suppressProgress c) (mjoin (p_loading p));
     debug := default (debug c) (p_debug p);
     routes_exclude :=
       default (routes_exclude c) (mjoin (p_routes p)) |}.


(** The request a second later on, the session unchanged: [time()]
    reads [t]. *)
Definition atTime (t : Z) (r : PreflightChecker.Request)
  : PreflightChecker.Request :=
  {| PreflightChecker.user := PreflightChecker.user r;
     PreflightChecker.passwordConfirmedAt :=
       PreflightChecker.passwordConfirmedAt r;
     PreflightChecker.passwordTimeout := PreflightChecker.passwordTimeout r;
     PreflightChecker.time := t |}.

(** The verdicts of the server as the client's table holds them after
    [preflight.update]. *)
Definition receivedVerdicts (results : list (string * PreflightResult))
  : gmap string PreflightResult :=
  list_to_map results.

(** A signed-in user with a verified address who confirmed the password
    at second 1000, the timeout left at its default. *)
Definition exampleRequest : PreflightChecker.Request :=
  {| PreflightChecker.user := Some true;
     PreflightChecker.passwordConfirmedAt := Some 1000;
     PreflightChecker.passwordTimeout := None;
     PreflightChecker.time := 2000 |}.

(** A glob whose only special character is [*], standing for any run
    of characters: the parts between the stars, in order, with anything
    between them. *)
Inductive starGlob : list string -> string -> Prop :=
| star_last part : starGlob [part] part
| star_more part any rest s :
    rest <> [] -> starGlob rest s ->
    starGlob (part :: rest) (part ++ any ++ s).

(** A change or an addition of a watched file. *)
Definition isWatchedChange (watchPatterns : list string) (ev : Vite.Event)
  : bool :=
  match ev with
  | Vite.Changed filePath => Vite.isWatchedFile watchPatterns filePath
  | Vite.Added filePath => Vite.isWatchedFile watchPatterns filePath
  | Vite.TimedOut _ _ => false
  end.

(** Regenerations of the manifest among the actions. *)
Definition regenerations (s : Vite.Server) : nat :=
  length (List.filter (fun a => match a with
                                | Vite.GenerateManifest => true
                                | Vite.FullReload => false
                                end) (Vite.actions s)).

(** The host holds no timer armed but the one [debounceTimer] names,
    and hands out fresh names. *)
Definition debounced (s : Vite.Server) : Prop :=
  (forall t, In t (Vite.armed s) -> Vite.debounceTimer s = Some t) /\
  NoDup (Vite.armed s) /\
  (forall t, In t (Vite.armed s) -> (t < Vite.nextTimer s)%nat).

(** Force10 is off: [router.visit] is the router's own function and
    the module holds no navigator. *)
Definition switchedOff (rt : Index.Runtime) : Prop :=
  Index.routerVisit rt = Index.RouterVisit /\
  Index._initialized rt = false /\
  Index._navigator rt = None.

(** Force10 is on with instance [i], the newest one: [router.visit] is
    its [patchedVisit] and the module holds its navigator. *)
Definition switchedOn (i : nat) (rt : Index.Runtime) : Prop :=
  Index.routerVisit rt = Index.PatchedVisit i /\
  Index._initialized rt = true /\
  Index._navigator rt = Some i /\
  S i = length (Index.instances rt).

(** What holds of the application in every state: Force10 is off, or
    on with the newest instance; every interceptor captured the
    router's own [visit]; the cleanups returned are those of instances
    made. *)
Definition lifecycle (app : Index.App) : Prop :=
  (switchedOff (fst app) \/ exists i, switchedOn i (fst app)) /\
  (forall inst, In inst (Index.instances (fst app)) ->
                Index.originalVisit inst = Index.RouterVisit) /\
  (forall k i, snd app !! k = Some (Index.Remove i) ->
               (i < length (Index.instances (fst app)))%nat).

(** The defaults with every entry changed but [enabled] and
    [cache.maxEntries]: entries are stale at once. *)
Definition impatientConfig : Force10Config := {|
  enabled := true;
  cache_ttl := 0;
  cache_maxEntries := 50;
  loading_suppressProgress := false;
  debug := true;
  routes_exclude := ["/users*"]
|}.

(** [window.location.origin], [''] without a window. *)
Definition currentOrigin (win : option Window) : string :=
  match win with
  | Some wd => location_origin wd
  | None => ""
  end.

(** The path the interceptor asks the matcher about: the [href]'s
    own, or for an absolute [http(s)] URL of the window's origin the
    [pathname] that [new URL] gives. *)
Definition visitedPath (host : Host) (win : option Window) (href : Href)
  : option string :=
  if JS.startsWith (hrefPath href) "http://"
     || JS.startsWith (hrefPath href) "https://"
  then
    match newURL host (hrefPath href) with
    | Some parsedUrl =>
        if String.eqb (origin parsedUrl) (currentOrigin win)
        then Some (pathname parsedUrl) else None
    | None => None
    end
  else Some (hrefPath href).

(* ================================================================= *)
(** * Properties *)

(** ** Page cache *)

(** Distinctness and absence of keys in a short explicit list. *)
Ltac solve_keys :=
  repeat (apply NoDup_cons; split);
  try apply NoDup_nil_2;
  rewrite ?not_elem_of_cons, ?elem_of_nil;
  intuition congruence.

Section CacheFacts.

Variable config : Force10Config.

Lemma storeKeys_cons k v (st : Cache.Store) :
  Cache.storeKeys ((k, v) :: st) = k :: Cache.storeKeys st.
Proof. reflexivity. Qed.

Lemma storeKeys_app (st1 st2 : Cache.Store) :
  Cache.storeKeys (st1 ++ st2)%list =
    (Cache.storeKeys st1 ++ Cache.storeKeys st2)%list.
Proof. unfold Cache.storeKeys. apply map_app. Qed.

Lemma storeDelete_cons k k' v (st : Cache.Store) :
  Cache.storeDelete k ((k', v) :: st) =
    if String.eqb k' k then Cache.storeDelete k st
    else (k', v) :: Cache.storeDelete k st.
Proof.
  unfold Cache.storeDelete. simpl. unfold Cache.keyIs at 1. simpl.
  now destruct (String.eqb k' k).
Qed.

Lemma storeDelete_absent k (st : Cache.Store) :
  k ∉ Cache.storeKeys st -> Cache.storeDelete k st = st.
Proof.
  induction st as [|[k' v] st IH]; intros Hk; [reflexivity|].
  rewrite storeKeys_cons in Hk. apply not_elem_of_cons in Hk as [Hne Hk].
  rewrite storeDelete_cons.
  destruct (String.eqb_spec k' k); [congruence|]. f_equal. now apply IH.
Qed.

Lemma storeDelete_keys k (st : Cache.Store) x :
  x ∈ Cache.storeKeys (Cache.storeDelete k st) <->
  x ∈ Cache.storeKeys st /\ x <> k.
Proof.
  induction st as [|[k' v] st IH].
  - simpl. rewrite elem_of_nil. tauto.
  - rewrite storeDelete_cons, storeKeys_cons, elem_of_cons.
    destruct (String.eqb_spec k' k) as [->|Hne].
    + rewrite IH. intuition congruence.
    + rewrite storeKeys_cons, elem_of_cons, IH. intuition congruence.
Qed.

Lemma storeDelete_NoDup k (st : Cache.Store) :
  NoDup (Cache.storeKeys st) ->
  NoDup (Cache.storeKeys (Cache.storeDelete k st)).
Proof.
  induction st as [|[k' v] st IH]; intros Hnd; [constructor|].
  rewrite storeKeys_cons in Hnd. apply NoDup_cons in Hnd as [Hnotin Hnd].
  rewrite storeDelete_cons.
  destruct (String.eqb_spec k' k); [now apply IH|].
  rewrite storeKeys_cons. apply NoDup_cons. split; [|now apply IH].
  rewrite storeDelete_keys. tauto.
Qed.

Lemma storeDelete_length k (st : Cache.Store) :
  (length (Cache.storeDelete k st) <= length st)%nat.
Proof. apply filter_length_le. Qed.

Lemma storeSet_absent k v (st : Cache.Store) :
  k ∉ Cache.storeKeys st -> Cache.storeSet k v st = (st ++ [(k, v)])%list.
Proof.
  induction st as [|[k' v'] st IH]; simpl; intros Hk; [reflexivity|].
  apply not_elem_of_cons in Hk as [Hne Hk].
  unfold Cache.keyIs; simpl.
  destruct (String.eqb_spec k' k); [congruence|]. f_equal. now apply IH.
Qed.

Lemma storeSet_keys_present k v (st : Cache.Store) :
  k ∈ Cache.storeKeys st ->
  Cache.storeKeys (Cache.storeSet k v st) = Cache.storeKeys st.
Proof.
  induction st as [|[k' v'] st IH]; simpl; intros Hk.
  - now apply elem_of_nil in Hk.
  - unfold Cache.keyIs; simpl.
    destruct (String.eqb_spec k' k) as [->|Hne]; simpl; [reflexivity|].
    f_equal. apply IH. apply elem_of_cons in Hk as [?|?]; congruence.
Qed.

Lemma storeGet_cons k k' v (st : Cache.Store) :
  Cache.storeGet k ((k', v) :: st) =
    if String.eqb k' k then Some v else Cache.storeGet k st.
Proof.
  unfold Cache.storeGet. simpl. unfold Cache.keyIs at 1. simpl.
  now destruct (String.eqb k' k).
Qed.

Lemma storeGet_None_key k (st : Cache.Store) :
  Cache.storeGet k st = None <-> k ∉ Cache.storeKeys st.
Proof.
  induction st as [|[k' v] st IH].
  - split; [intros _ H; now apply elem_of_nil in H | reflexivity].
  - rewrite storeGet_cons, storeKeys_cons, not_elem_of_cons.
    destruct (String.eqb_spec k' k) as [->|Hne].
    + split; [discriminate | tauto].
    + rewrite IH. intuition congruence.
Qed.

Lemma storeGet_Some_key k e (st : Cache.Store) :
  Cache.storeGet k st = Some e -> k ∈ Cache.storeKeys st.
Proof.
  intros Hget.
  destruct (decide (k ∈ Cache.storeKeys st)) as [?|Hn]; [assumption|].
  apply storeGet_None_key in Hn. congruence.
Qed.

Lemma storeGet_app_last k v (st : Cache.Store) :
  k ∉ Cache.storeKeys st -> Cache.storeGet k (st ++ [(k, v)])%list = Some v.
Proof.
  induction st as [|[k' v'] st IH]; simpl; intros Hk.
  - rewrite storeGet_cons. now rewrite String.eqb_refl.
  - apply not_elem_of_cons in Hk as [Hne Hk]. rewrite storeGet_cons.
    destruct (String.eqb_spec k' k); [congruence|]. now apply IH.
Qed.

(** With [maxEntries >= 0] the eviction loop needs at most one round
    per entry, and drops the oldest entries down to the bound. *)
Lemma evict_enough_fuel (fuel : nat) (st : Cache.Store) :
  0 <= Cache.maxEntries config ->
  NoDup (Cache.storeKeys st) ->
  (length st <= fuel)%nat ->
  Cache.evictIfNeeded config fuel st =
    Some (drop (length st - Z.to_nat (Cache.maxEntries config)) st).
Proof.
  intros Hmax. revert st.
  induction fuel as [|fuel IH]; intros st Hnd Hlen; simpl;
    unfold Cache.storeSize;
    destruct (Z.gtb_spec (Z.of_nat (length st)) (Cache.maxEntries config))
      as [Hgt|Hle].
  - lia.
  - destruct st; [reflexivity | simpl in Hlen; lia].
  - destruct st as [|[k v] st]; [simpl in Hgt; lia|].
    rewrite storeKeys_cons in Hnd. apply NoDup_cons in Hnd as [Hnotin Hnd].
    assert (Hdel : Cache.storeDelete k ((k, v) :: st) = st).
    { rewrite storeDelete_cons, String.eqb_refl.
      now apply storeDelete_absent. }
    rewrite Hdel, IH by (auto; simpl in Hlen; lia).
    f_equal. simpl length in *.
    replace (S (length st) - Z.to_nat (Cache.maxEntries config))%nat
      with (S (length st - Z.to_nat (Cache.maxEntries config))) by lia.
    reflexivity.
  - replace (length st - Z.to_nat (Cache.maxEntries config))%nat
      with 0%nat by lia.
    reflexivity.
Qed.

(** With [maxEntries < 0] the loop never exits, whatever the fuel. *)
Lemma evict_never_ends (fuel : nat) (st : Cache.Store) :
  Cache.maxEntries config < 0 -> Cache.evictIfNeeded config fuel st = None.
Proof.
  intros Hneg. revert st. induction fuel as [|fuel IH]; intros st; simpl;
    unfold Cache.storeSize;
    destruct (Z.gtb_spec (Z.of_nat (length st)) (Cache.maxEntries config));
    try lia; auto.
Qed.

Lemma drop_keys_NoDup n (st : Cache.Store) :
  NoDup (Cache.storeKeys st) -> NoDup (Cache.storeKeys (drop n st)).
Proof.
  revert st. induction n as [|n IH]; intros st Hnd; [assumption|].
  destruct st as [|[k v] st]; [assumption|]. simpl.
  apply IH. rewrite storeKeys_cons in Hnd. now apply NoDup_cons in Hnd as [_ ?].
Qed.

Lemma inserted_NoDup url page (st : Cache.Store) :
  NoDup (Cache.storeKeys st) ->
  NoDup (Cache.storeKeys (Cache.storeDelete url st ++ [(url, page)])%list).
Proof.
  intros Hnd. rewrite storeKeys_app. apply NoDup_app. split; [|split].
  - now apply storeDelete_NoDup.
  - intros x Hx Hin. apply list_elem_of_singleton in Hin. subst x.
    apply storeDelete_keys in Hx. tauto.
  - apply NoDup_singleton.
Qed.

Lemma set_spec url page (st : Cache.Store) :
  0 <= Cache.maxEntries config ->
  NoDup (Cache.storeKeys st) ->
  Cache.set config url page st =
    Some (drop (length (Cache.storeDelete url st ++ [(url, page)])%list
                - Z.to_nat (Cache.maxEntries config))
               (Cache.storeDelete url st ++ [(url, page)])%list).
Proof.
  intros Hmax Hnd. unfold Cache.set.
  assert (Habs : url ∉ Cache.storeKeys (Cache.storeDelete url st)).
  { rewrite storeDelete_keys. tauto. }
  rewrite (storeSet_absent _ _ _ Habs).
  apply evict_enough_fuel; auto using inserted_NoDup.
Qed.

Lemma set_ok url page (st : Cache.Store) :
  0 <= Cache.maxEntries config ->
  NoDup (Cache.storeKeys st) ->
  exists st', Cache.set config url page st = Some st' /\ storeOk config st'.
Proof.
  intros Hmax Hnd. eexists. split; [now apply set_spec|].
  split.
  - apply drop_keys_NoDup. now apply inserted_NoDup.
  - unfold Cache.storeSize. rewrite length_drop. lia.
Qed.

Lemma filter_filter_andb {A} (P Q : A -> bool) (l : list A) :
  List.filter P (List.filter Q l) = List.filter (fun x => Q x && P x) l.
Proof.
  induction l as [|x l IH]; simpl; [reflexivity|].
  destruct (Q x); simpl; [destruct (P x)|]; now rewrite IH.
Qed.

Lemma invalidate_fold regex (ks : list string) (st : Cache.Store) :
  fold_left
    (fun st key => if RegExp.test regex key then Cache.storeDelete key st else st)
    ks st =
  List.filter
    (fun kv => negb (RegExp.test regex (fst kv)
                     && existsb (String.eqb (fst kv)) ks)) st.
Proof.
  revert st. induction ks as [|k ks IH]; intros st; simpl.
  - induction st as [|kv st IHst]; simpl; [reflexivity|].
    rewrite andb_false_r. simpl. now f_equal.
  - rewrite IH. destruct (RegExp.test regex k) eqn:Hk.
    + unfold Cache.storeDelete. rewrite filter_filter_andb.
      apply filter_ext. intros [k' v]. unfold Cache.keyIs. simpl.
      destruct (String.eqb_spec k' k) as [->|Hne]; simpl.
      * now rewrite Hk.
      * reflexivity.
    + apply filter_ext. intros [k' v]. simpl.
      destruct (String.eqb_spec k' k) as [->|Hne]; simpl; [|reflexivity].
      now rewrite Hk.
Qed.

(** [invalidateByPattern] keeps exactly the entries whose key the
    compiled pattern refuses. *)
Lemma invalidate_spec pattern regex (st : Cache.Store) :
  Cache.patternToRegex pattern = Some regex ->
  Cache.invalidateByPattern pattern st =
    Some (List.filter (fun kv => negb (RegExp.test regex (fst kv))) st).
Proof.
  intros Hre. unfold Cache.invalidateByPattern. rewrite Hre. f_equal.
  rewrite invalidate_fold. apply filter_ext_in. intros [k v] Hin. simpl.
  destruct (RegExp.test regex k); [|reflexivity]. simpl.
  assert (Hex : existsb (String.eqb k) (Cache.storeKeys st) = true).
  { apply existsb_exists. exists k. split; [|apply String.eqb_refl].
    unfold Cache.storeKeys. apply in_map_iff. exists (k, v). auto. }
  now rewrite Hex.
Qed.

Lemma filter_keys_NoDup (P : string * CachedPage -> bool) (st : Cache.Store) :
  NoDup (Cache.storeKeys st) -> NoDup (Cache.storeKeys (List.filter P st)).
Proof.
  induction st as [|[k v] st IH]; intros Hnd; [constructor|].
  rewrite storeKeys_cons in Hnd. apply NoDup_cons in Hnd as [Hnotin Hnd].
  simpl. destruct (P (k, v)); [|now apply IH].
  rewrite storeKeys_cons. apply NoDup_cons. split; [|now apply IH].
  intros Hin. apply Hnotin. unfold Cache.storeKeys in *.
  apply list_elem_of_In in Hin. apply list_elem_of_In.
  apply in_map_iff in Hin as [kv [Hk Hin]]. apply filter_In in Hin as [Hin _].
  apply in_map_iff. eauto.
Qed.

Lemma invalidate_ok pattern (st : Cache.Store) :
  storeOk config st ->
  storeOk config (default st (Cache.invalidateByPattern pattern st)).
Proof.
  intros [Hnd Hsz].
  destruct (Cache.patternToRegex pattern) as [regex|] eqn:Hre.
  - rewrite (invalidate_spec _ _ _ Hre). simpl. split.
    + now apply filter_keys_NoDup.
    + unfold Cache.storeSize in *.
      pose proof (filter_length_le
                    (fun kv => negb (RegExp.test regex (fst kv))) st). lia.
  - unfold Cache.invalidateByPattern. rewrite Hre. now split.
Qed.

Lemma remove_ok url (st : Cache.Store) :
  storeOk config st -> storeOk config (Cache.remove url st).
Proof.
  intros [Hnd Hsz]. split.
  - now apply storeDelete_NoDup.
  - unfold Cache.storeSize, Cache.remove in *.
    pose proof (storeDelete_length url st). lia.
Qed.

Lemma storeSet_length_present k v (st : Cache.Store) :
  k ∈ Cache.storeKeys st -> length (Cache.storeSet k v st) = length st.
Proof.
  intros Hk. rewrite <- (length_map fst (Cache.storeSet k v st)).
  fold (Cache.storeKeys (Cache.storeSet k v st)).
  rewrite storeSet_keys_present by assumption.
  unfold Cache.storeKeys. apply length_map.
Qed.

Lemma updateProps_ok now url props (st : Cache.Store) :
  storeOk config st -> storeOk config (Cache.updateProps now url props st).
Proof.
  intros [Hnd Hsz]. unfold Cache.updateProps.
  destruct (Cache.storeGet url st) as [e|] eqn:Hget; [|now split].
  apply storeGet_Some_key in Hget. split.
  - now rewrite storeSet_keys_present.
  - unfold Cache.storeSize in *. now rewrite storeSet_length_present.
Qed.

Lemma applyOp_ok op (st : Cache.Store) :
  0 <= Cache.maxEntries config ->
  storeOk config st ->
  exists st', applyOp config op st = Some st' /\ storeOk config st'.
Proof.
  intros Hmax Hok. destruct op as [url page|url| |pattern|now url props]; simpl.
  - apply set_ok; [assumption | apply Hok].
  - eexists. split; [reflexivity | now apply remove_ok].
  - eexists. split; [reflexivity|]. split; [constructor|].
    unfold Cache.storeSize. simpl. lia.
  - eexists. split; [reflexivity | now apply invalidate_ok].
  - eexists. split; [reflexivity | now apply updateProps_ok].
Qed.

Lemma applyOps_ok ops (st : Cache.Store) :
  0 <= Cache.maxEntries config ->
  storeOk config st ->
  exists st', applyOps config ops st = Some st' /\ storeOk config st'.
Proof.
  intros Hmax. revert st. induction ops as [|op ops IH]; intros st Hok; simpl.
  - eauto.
  - destruct (applyOp_ok op st Hmax Hok) as [st1 [-> Hok1]]. now apply IH.
Qed.

End CacheFacts.

(** C5. With a bound [maxEntries >= 0]: every sequence of cache
    operations from the empty store comes to an end in a store with one
    entry per key and at most [maxEntries] entries; [set] deletes the key,
    appends the entry as the most recent one and drops the oldest entries
    until the size is within the bound; and with [maxEntries = 3], four
    [set]s on distinct keys leave exactly the last three keys, the first
    one gone and the fourth retrievable ([getOrStale] returns it, and so
    does [get] while it is fresh). *)
Theorem cache_bounded_oldest_first (config : Force10Config) :
  0 <= cache_maxEntries config ->
  (forall ops, exists st,
      applyOps config ops [] = Some st /\
      NoDup (Cache.storeKeys st) /\
      Cache.storeSize st <= cache_maxEntries config) /\
  (forall st url page,
      NoDup (Cache.storeKeys st) ->
      let inserted := (Cache.storeDelete url st ++ [(url, page)])%list in
      Cache.set config url page st =
        Some (drop (length inserted - Z.to_nat (cache_maxEntries config))
                   inserted)) /\
  (cache_maxEntries config = 3 ->
   forall k1 k2 k3 k4 p1 p2 p3 p4 t,
     NoDup [k1; k2; k3; k4] ->
     exists st,
       applyOps config [OpSet k1 p1; OpSet k2 p2; OpSet k3 p3; OpSet k4 p4] []
         = Some st /\
       Cache.storeKeys st = [k2; k3; k4] /\
       Cache.getOrStale config t k1 st = None /\
       Cache.get config t k1 st = None /\
       Cache.getOrStale config t k4 st
         = Some (p4, Cache.isExpired config t p4) /\
       (Cache.isExpired config t p4 = false ->
        Cache.get config t k4 st = Some p4)).
Proof.
  intros Hmax. split; [|split].
  - intros ops. apply applyOps_ok; [assumption|].
    split; [constructor | unfold Cache.storeSize; simpl; assumption].
  - intros st url page Hnd inserted. now apply set_spec.
  - intros H3 k1 k2 k3 k4 p1 p2 p3 p4 t Hnd.
    apply NoDup_cons in Hnd as [H1 Hnd]. apply NoDup_cons in Hnd as [H2 Hnd].
    apply NoDup_cons in Hnd as [H3' _].
    repeat rewrite not_elem_of_cons in H1.
    repeat rewrite not_elem_of_cons in H2.
    repeat rewrite not_elem_of_cons in H3'.
    destruct H1 as (H12 & H13 & H14 & _). destruct H2 as (H23 & H24 & _).
    destruct H3' as (H34 & _).
    assert (Hset : forall st url page,
               NoDup (Cache.storeKeys st) -> url ∉ Cache.storeKeys st ->
               Cache.set config url page st =
                 Some (drop (length (st ++ [(url, page)])%list - 3)
                            (st ++ [(url, page)])%list)).
    { intros st url page Hnd Habs. rewrite set_spec by assumption.
      rewrite storeDelete_absent by assumption.
      unfold Cache.maxEntries. now rewrite H3. }
    assert (Hne : forall a b : string, a <> b -> String.eqb a b = false)
      by (intros a b; apply String.eqb_neq).
    unfold applyOps, applyOp.
    rewrite Hset by (simpl; solve_keys). simpl.
    rewrite Hset by (simpl; solve_keys). simpl.
    rewrite Hset by (simpl; solve_keys). simpl.
    rewrite Hset by (simpl; solve_keys). simpl.
    eexists. split; [reflexivity|]. split; [reflexivity|].
    unfold Cache.get, Cache.getOrStale. rewrite !storeGet_cons.
    rewrite ?(Hne k2 k1), ?(Hne k3 k1), ?(Hne k4 k1), ?(Hne k2 k4),
      ?(Hne k3 k4), ?String.eqb_refl by congruence.
    split; [reflexivity|]. split; [reflexivity|]. split; [reflexivity|].
    now intros ->.
Qed.

Lemma cache_bounded_oldest_first_witness :
  0 <= cache_maxEntries exampleConfig /\
  exists st,
    applyOps exampleConfig
      [OpSet "/page1" (examplePage "/page1" 0);
       OpSet "/page2" (examplePage "/page2" 0);
       OpSet "/page3" (examplePage "/page3" 0);
       OpSet "/page4" (examplePage "/page4" 0)] [] = Some st /\
    Cache.storeKeys st = ["/page2"; "/page3"; "/page4"] /\
    Cache.get exampleConfig 0 "/page1" st = None.
Proof.
  assert (Hmax : 0 <= cache_maxEntries exampleConfig) by (simpl; lia).
  split; [exact Hmax|].
  destruct (cache_bounded_oldest_first exampleConfig Hmax) as (_ & _ & Hfour).
  destruct (Hfour eq_refl "/page1" "/page2" "/page3" "/page4"
              (examplePage "/page1" 0) (examplePage "/page2" 0)
              (examplePage "/page3" 0) (examplePage "/page4" 0) 0)
    as (st & Hrun & Hkeys & _ & Hget & _ & _).
  - solve_keys.
  - exists st. auto.
Defined.

(** C6. [get] returns none exactly when the URL has no stored entry or
    the entry is stale ([now - storedAt > ttl]) and the entry otherwise;
    [getOrStale] returns none exactly when the URL has no stored entry,
    and otherwise the entry with a flag that is true exactly when
    [now - storedAt > ttl]. *)
Theorem cache_get_and_getOrStale (config : Force10Config) (now : Z)
        (url : string) (st : Cache.Store) :
  (Cache.get config now url st = None <->
     Cache.storeGet url st = None \/
     exists entry, Cache.storeGet url st = Some entry /\
                   now - cp_timestamp entry > cache_ttl config) /\
  (forall entry,
     Cache.storeGet url st = Some entry ->
     ~ now - cp_timestamp entry > cache_ttl config ->
     Cache.get config now url st = Some entry) /\
  (Cache.getOrStale config now url st = None <->
     Cache.storeGet url st = None) /\
  (forall entry,
     Cache.storeGet url st = Some entry ->
     exists isStale,
       Cache.getOrStale config now url st = Some (entry, isStale) /\
       (isStale = true <-> now - cp_timestamp entry > cache_ttl config)).
Proof.
  unfold Cache.get, Cache.getOrStale, Cache.isExpired, Cache.ttl.
  destruct (Cache.storeGet url st) as [e|].
  - destruct (Z.gtb_spec (now - cp_timestamp e) (cache_ttl config))
      as [Hgt|Hle].
    + split; [|split; [|split]].
      * split; [intros _; right; exists e; split; [reflexivity | lia]
               | reflexivity].
      * intros entry [= <-] Hn. lia.
      * split; discriminate.
      * intros entry [= <-]. exists true. split; [reflexivity|].
        split; [intros _; lia | reflexivity].
    + split; [|split; [|split]].
      * split; [discriminate|].
        intros [Hn|(entry & [= <-] & Hgt)]; [discriminate | lia].
      * intros entry [= <-] _. reflexivity.
      * split; discriminate.
      * intros entry [= <-]. exists false. split; [reflexivity|].
        split; [discriminate | lia].
  - split; [|split; [|split]].
    + split; [intros _; now left | reflexivity].
    + discriminate.
    + split; reflexivity.
    + discriminate.
Qed.

(** ** Preflight evaluator *)

Section PreflightFacts.

Variable data : gmap string PreflightResult.
Variable now : Z.

Lemma failsb_spec v : failsb now v = true <-> verdictFails now v.
Proof.
  unfold failsb, verdictFails, Preflight.expired.
  destruct (pass v); simpl.
  - destruct (expiresAt v) as [e|].
    + destruct (Z.eqb_spec e 0); destruct (Z.geb_spec (now / 1000) e); simpl;
        split; try discriminate; try reflexivity.
      * intros [?|(e' & [= <-] & ? & ?)]; [discriminate | lia].
      * intros [?|(e' & [= <-] & ? & ?)]; [discriminate | lia].
      * intros _. right. exists e. repeat split; auto; lia.
      * intros [?|(e' & [= <-] & ? & ?)]; [discriminate | lia].
    + split; [discriminate|]. intros [?|(e' & ? & _)]; discriminate.
  - split; [now left | reflexivity].
Qed.

Lemma checkLoop_spec (guards : list string) (hasAnyData : bool) :
  Preflight.checkLoop data now guards hasAnyData =
    if existsb (guardFails data now) guards then Some false
    else if hasAnyData || existsb (guardKnown data) guards then Some true
    else None.
Proof.
  revert hasAnyData. induction guards as [|g guards IH]; intros b; simpl.
  - now rewrite orb_false_r.
  - unfold guardFails at 1, guardKnown at 1.
    destruct (Preflight.read data g) as [v| |]; simpl.
    + unfold failsb. destruct (pass v); simpl.
      * destruct (Preflight.expired now v); simpl; [reflexivity|].
        rewrite IH. now rewrite orb_true_r.
      * reflexivity.
    + reflexivity.
    + apply IH.
Qed.

(** Under a name that is not one of [Object.prototype]'s, a read finds
    what is recorded and nothing else. *)
Lemma read_own (g : string) :
  ~ In g Preflight.objectPrototypeMembers ->
  Preflight.read data g =
    match data !! g with
    | Some v => Preflight.Recorded v
    | None => Preflight.Undefined
    end.
Proof.
  intros Hown. unfold Preflight.read. destruct (data !! g); [reflexivity|].
  destruct (existsb (String.eqb g) Preflight.objectPrototypeMembers) eqn:E;
    [|reflexivity].
  apply existsb_exists in E as (x & Hin & Hx).
  apply String.eqb_eq in Hx. subst x. contradiction.
Qed.

Lemma read_recorded (g : string) (v : PreflightResult) :
  data !! g = Some v -> Preflight.read data g = Preflight.Recorded v.
Proof. intros Hv. unfold Preflight.read. now rewrite Hv. Qed.

End PreflightFacts.

(** C7 (amended). For guards that are not named like a member of
    [Object.prototype], over recorded verdicts whose [expiresAt], where
    there is one, is not 0: [check] returns false exactly when some
    guard of the list has a recorded verdict with [pass = false] or
    with an [expiresAt] not later than the current time in whole
    seconds ([floor(now / 1000) >= expiresAt]); true exactly when some
    guard of the list has a recorded verdict and no recorded one fails
    in that sense; none exactly when no guard of the list has a
    recorded verdict; and none on the empty list. *)
Theorem preflight_check_three_valued (data : gmap string PreflightResult)
        (now : Z) (guards : list string) :
  (forall g, In g guards -> ~ In g Preflight.objectPrototypeMembers) ->
  (forall g v, In g guards -> data !! g = Some v -> expiresAt v <> Some 0) ->
  (Preflight.check data now guards = Some false <->
     exists g v, In g guards /\ data !! g = Some v /\ verdictLapsed now v) /\
  (Preflight.check data now guards = Some true <->
     (exists g, In g guards /\ is_Some (data !! g)) /\
     (forall g v, In g guards -> data !! g = Some v -> ~ verdictLapsed now v)) /\
  (Preflight.check data now guards = None <->
     forall g, In g guards -> data !! g = None) /\
  Preflight.check data now [] = None.
Proof.
  intros Hown Hnonzero.
  unfold Preflight.check. rewrite checkLoop_spec. simpl.
  assert (Hlapsed : forall g v, In g guards -> data !! g = Some v ->
            (verdictFails now v <-> verdictLapsed now v)).
  { intros g v Hin Hv. unfold verdictFails, verdictLapsed. split.
    - intros [Hp|(e & He & _ & Hle)]; [now left | right; eauto].
    - intros [Hp|(e & He & Hle)]; [now left|]. right. exists e.
      repeat split; auto. intros ->. now apply (Hnonzero g v). }
  assert (Hfail : existsb (guardFails data now) guards = true <->
            exists g v, In g guards /\ data !! g = Some v /\ verdictLapsed now v).
  { rewrite existsb_exists. split.
    - intros (g & Hin & Hg). unfold guardFails in Hg.
      rewrite (read_own data g (Hown g Hin)) in Hg.
      destruct (data !! g) as [v|] eqn:Hv; [|discriminate].
      exists g, v. rewrite <- (Hlapsed g v Hin Hv), <- failsb_spec. auto.
    - intros (g & v & Hin & Hv & Hf). exists g. split; [assumption|].
      unfold guardFails. rewrite (read_recorded data g v Hv).
      apply failsb_spec. now apply (Hlapsed g v Hin Hv). }
  assert (Hknown : existsb (guardKnown data) guards = true <->
            exists g, In g guards /\ is_Some (data !! g)).
  { rewrite existsb_exists. split.
    - intros (g & Hin & Hg). exists g. split; [assumption|].
      unfold guardKnown in Hg. rewrite (read_own data g (Hown g Hin)) in Hg.
      destruct (data !! g); [eauto | discriminate].
    - intros (g & Hin & [v Hv]). exists g. split; [assumption|].
      unfold guardKnown. now rewrite (read_recorded data g v Hv). }
  destruct (existsb (guardFails data now) guards) eqn:Ef.
  - destruct (proj1 Hfail eq_refl) as (g & v & Hin & Hv & Hf).
    split; [|split; [|split]]; [| | |reflexivity].
    + split; [intros _; eauto | reflexivity].
    + split; [discriminate|]. intros [_ Hall]. exfalso. eapply Hall; eauto.
    + split; [discriminate|]. intros Hnone. rewrite Hnone in Hv by assumption.
      discriminate.
  - assert (Hnofail : forall g v, In g guards -> data !! g = Some v ->
                                  ~ verdictLapsed now v).
    { intros g v Hin Hv Hf.
      assert (false = true) by (apply Hfail; eauto).
      discriminate. }
    destruct (existsb (guardKnown data) guards) eqn:Ek.
    + destruct (proj1 Hknown eq_refl) as (g & Hin & [v Hv]).
      split; [|split; [|split]]; [| | |reflexivity].
      * split; [discriminate|]. intros (g' & v' & Hin' & Hv' & Hf').
        exfalso. eapply Hnofail; eauto.
      * split; [intros _; split; eauto | reflexivity].
      * split; [discriminate|]. intros Hnone.
        rewrite Hnone in Hv by assumption. discriminate.
    + assert (Hnone : forall g, In g guards -> data !! g = None).
      { intros g Hin. destruct (data !! g) as [v|] eqn:Hv; [|reflexivity].
        assert (false = true) by (apply Hknown; eauto).
        discriminate. }
      split; [|split; [|split]]; [| | |reflexivity].
      * split; [discriminate|]. intros (g & v & Hin & Hv & _).
        rewrite Hnone in Hv by assumption. discriminate.
      * split; [discriminate|]. intros [(g & Hin & [v Hv]) _].
        rewrite Hnone in Hv by assumption. discriminate.
      * split; [intros _; assumption | reflexivity].
Qed.

Lemma preflight_check_three_valued_witness :
  (forall g, In g ["auth"; "password.confirm"] ->
             ~ In g Preflight.objectPrototypeMembers) /\
  (forall g v, In g ["auth"; "password.confirm"] ->
               boundaryVerdicts !! g = Some v -> expiresAt v <> Some 0) /\
  (Preflight.check boundaryVerdicts 100000 ["auth"; "password.confirm"]
   = Some false <->
   exists g v, In g ["auth"; "password.confirm"] /\
               boundaryVerdicts !! g = Some v /\ verdictLapsed 100000 v).
Proof.
  assert (Hown : forall g, In g ["auth"; "password.confirm"] ->
                           ~ In g Preflight.objectPrototypeMembers).
  { intros g [<-|[<-|[]]] Hin; simpl in Hin;
      repeat (destruct Hin as [Hin|Hin]; [discriminate|]); exact Hin. }
  assert (Hnonzero : forall g v, In g ["auth"; "password.confirm"] ->
            boundaryVerdicts !! g = Some v -> expiresAt v <> Some 0).
  { intros g v [<-|[<-|[]]] Hv; vm_compute in Hv; [discriminate|].
    injection Hv as <-. discriminate. }
  split; [exact Hown|]. split; [exact Hnonzero|].
  exact (proj1 (preflight_check_three_valued boundaryVerdicts 100000
                  ["auth"; "password.confirm"] Hown Hnonzero)).
Defined.

(** C7 as stated fails on the boundary: a passing verdict whose
    [expiresAt] is the current second, not a second strictly in the
    past, already makes [check] return false. *)
Lemma preflight_check_strictly_past_counterexample :
  Preflight.check boundaryVerdicts 100000 ["password.confirm"] = Some false /\
  ~ (exists g v, In g ["password.confirm"] /\
                 boundaryVerdicts !! g = Some v /\
                 verdictFailsStrictlyPast 100000 v).
Proof.
  split; [reflexivity|].
  intros (g & v & [<-|[]] & Hv & Hf).
  vm_compute in Hv. injection Hv as <-.
  destruct Hf as [Hp|(e & He & Hlt)]; [discriminate|].
  injection He as <-. lia.
Qed.

(** ** Navigator *)

(** C10. [optimisticNavigate] renders the predicted view (its component
    and URL) through [router.push] or [router.replace]; the props of the
    rendered page are the cached entry's props verbatim whenever the
    cache holds an entry for the target URL, fresh or stale, and
    otherwise a function that returns the current props unchanged; the
    loading flag is set when it returns, [setLoaded] clears it and
    [isLoading] reports it. *)
Theorem optimistic_navigate_best_data (config : Force10Config)
        (m : MatchResult) (options : option (VisitOptions nat)) (now : Z)
        (w : World) :
  let w' := optimisticNavigate config m options now w in
  (exists e page,
     trace w' = (trace w ++ [e])%list /\
     e = (if isTrue (opt replace options)
          then RouterReplace page else RouterPush page) /\
     pp_component page = component (mr_route m) /\
     pp_url page = mr_url m /\
     (forall entry isStale,
        Cache.getOrStale config now (mr_url m) (store w)
          = Some (entry, isStale) ->
        pp_props page = PropsValue (cp_props entry)) /\
     (Cache.getOrStale config now (mr_url m) (store w) = None ->
      exists f, pp_props page = PropsFn f /\ forall props, f props = props)) /\
  isLoading w' = true /\
  isLoading (setLoaded w') = false /\
  (forall w0, isLoading w0 = isLoadingFlag w0) /\
  (forall w0, isLoading (setLoaded w0) = false).
Proof.
  unfold optimisticNavigate. cbv zeta.
  split; [|split; [|split; [|split]]].
  - destruct (isTrue (opt replace options));
      (eexists; eexists; split; [reflexivity|]; split; [reflexivity|];
       split; [reflexivity|]; split; [reflexivity|]; split;
       [ intros entry isStale ->; reflexivity
       | intros ->; eexists; split; [reflexivity | reflexivity] ]).
  - now destruct (isTrue (opt replace options)).
  - reflexivity.
  - reflexivity.
  - reflexivity.
Qed.

(** ** Regular expressions the engine builds *)

(** A case per code unit. *)
Ltac ascii_cases c := destruct c as [[] [] [] [] [] [] [] []].

Lemma chars_app (s1 s2 : string) :
  list_ascii_of_string (s1 ++ s2) =
    (list_ascii_of_string s1 ++ list_ascii_of_string s2)%list.
Proof. induction s1 as [|c s1 IH]; simpl; [reflexivity | now rewrite IH]. Qed.

Lemma parsesThrough_empty : parsesThrough "".
Proof. intros stack cur q. exists cur, q. reflexivity. Qed.

Lemma parsesThrough_app (s1 s2 : string) :
  parsesThrough s1 -> parsesThrough s2 -> parsesThrough (s1 ++ s2).
Proof.
  intros H1 H2 stack cur q.
  destruct (H1 stack cur q) as (cur1 & q1 & E1).
  destruct (H2 stack cur1 q1) as (cur2 & q2 & E2).
  exists cur2, q2. intros rest.
  now rewrite chars_app, <- app_assoc, E1, E2.
Qed.

Lemma parsesThrough_anchored (src : string) :
  parsesThrough src -> exists r, RegExp.anchored src = Some r.
Proof.
  intros H. destruct (H [] [] RegExp.NothingToRepeat) as (cur & q & E).
  unfold RegExp.anchored. specialize (E []). rewrite app_nil_r in E.
  rewrite E. simpl. eauto.
Qed.

(** A code unit [escapeRegex] leaves alone is a pattern character. *)
Lemma parse_plain_char c stack cur q rest :
  JS.hasChar c ".*+?^${}()|[]\" = false ->
  RegExp.parse stack cur q (c :: rest) =
    RegExp.parse stack (RegExp.Chr c :: cur) RegExp.AfterAtom rest.
Proof. ascii_cases c; intros H; try discriminate H; reflexivity. Qed.

(** A code unit [escapeRegex] escapes is a syntax character. *)
Lemma escaped_is_syntax c :
  JS.hasChar c ".*+?^${}()|[]\" = true -> RegExp.isSyntaxChar c = true.
Proof. ascii_cases c; intros H; try discriminate H; reflexivity. Qed.

Lemma escapeRegex_cons c (s : string) :
  Matcher.escapeRegex (String c s) =
    if JS.hasChar c ".*+?^${}()|[]\"
    then String "\" (String c (Matcher.escapeRegex s))
    else String c (Matcher.escapeRegex s).
Proof. reflexivity. Qed.

Lemma parse_escaped_char c stack cur q rest :
  RegExp.isSyntaxChar c = true ->
  RegExp.parse stack cur q ("\"%char :: c :: rest) =
    RegExp.parse stack (RegExp.Chr c :: cur) RegExp.AfterAtom rest.
Proof.
  intros H.
  change (RegExp.parse stack cur q ("\"%char :: c :: rest))
    with (if RegExp.isSyntaxChar c
          then RegExp.parse stack (RegExp.Chr c :: cur) RegExp.AfterAtom rest
          else None).
  now rewrite H.
Qed.

Lemma parsesThrough_escapeRegex (s : string) :
  parsesThrough (Matcher.escapeRegex s).
Proof.
  induction s as [|c s IH]; [apply parsesThrough_empty|].
  intros stack cur q. rewrite escapeRegex_cons.
  destruct (IH stack (RegExp.Chr c :: cur) RegExp.AfterAtom)
    as (cur' & q' & E).
  exists cur', q'. intros rest. rewrite <- E.
  destruct (JS.hasChar c ".*+?^${}()|[]\") eqn:Hc.
  - apply parse_escaped_char, escaped_is_syntax, Hc.
  - apply parse_plain_char, Hc.
Qed.

Lemma parsesThrough_segmentRegex (seg : string) :
  parsesThrough (Matcher.segmentRegex seg).
Proof.
  unfold Matcher.segmentRegex.
  destruct (Matcher.isWildcard seg); [|destruct (Matcher.isParam seg)].
  - intros stack cur q. eexists _, _. intros rest. reflexivity.
  - destruct (JS.endsWithChar seg "?");
      intros stack cur q; eexists _, _; intros rest; reflexivity.
  - apply (parsesThrough_app "/").
    + intros stack cur q. eexists _, _. intros rest. reflexivity.
    + apply parsesThrough_escapeRegex.
Qed.

Lemma parsesThrough_segments (segs : list string) (acc : string) :
  parsesThrough acc ->
  parsesThrough (fold_left (fun acc seg => acc ++ Matcher.segmentRegex seg)
                           segs acc).
Proof.
  revert acc. induction segs as [|seg segs IH]; intros acc Hacc; simpl.
  - assumption.
  - apply IH. apply parsesThrough_app; [assumption|].
    apply parsesThrough_segmentRegex.
Qed.

(** [compilePattern] never throws. *)
Lemma compilePattern_total (pattern : string) :
  exists r, RegExp.anchored (Matcher.patternRegexSource pattern) = Some r.
Proof.
  apply parsesThrough_anchored. unfold Matcher.patternRegexSource.
  apply parsesThrough_app.
  - destruct (Matcher.segments pattern) as [|seg segs] eqn:E.
    + apply parsesThrough_empty.
    + rewrite <- E. apply parsesThrough_segments, parsesThrough_empty.
  - intros stack cur q. eexists _, _. intros rest. reflexivity.
Qed.

Lemma excludePatternSource_cons ch (r : string) :
  Matcher.excludePatternSource (String ch r) =
    (if Ascii.eqb ch "*" then ".*"
     else if Ascii.eqb ch "?" then "."
     else Matcher.escapeRegex (String ch EmptyString))
    ++ Matcher.excludePatternSource r.
Proof. reflexivity. Qed.

Lemma parsesThrough_excludePattern (pattern : string) :
  parsesThrough (Matcher.excludePatternSource pattern).
Proof.
  induction pattern as [|ch r IH]; [apply parsesThrough_empty|].
  rewrite excludePatternSource_cons. apply parsesThrough_app; [|assumption].
  destruct (Ascii.eqb ch "*"); [|destruct (Ascii.eqb ch "?")].
  - intros stack cur q. eexists _, _. intros rest. reflexivity.
  - intros stack cur q. eexists _, _. intros rest. reflexivity.
  - apply parsesThrough_escapeRegex.
Qed.

(** [excludePatternToRegex] never throws. *)
Lemma excludePatternToRegex_total (pattern : string) :
  exists r, Matcher.excludePatternToRegex pattern = Some r.
Proof.
  apply parsesThrough_anchored, parsesThrough_excludePattern.
Qed.

(** The derivative matcher decides the language of the expression. *)
Lemma matches_eps_inv s : matches RegExp.Eps s -> s = [].
Proof. now inversion 1. Qed.

Lemma matches_chr_inv c s : matches (RegExp.Chr c) s -> s = [c].
Proof. now inversion 1. Qed.

Lemma matches_dot_inv s :
  matches RegExp.Dot s -> exists c, s = [c] /\ RegExp.isLineTerminator c = false.
Proof. inversion 1; subst; eauto. Qed.

Lemma matches_notchr_inv c s :
  matches (RegExp.NotChr c) s -> exists d, s = [d] /\ d <> c.
Proof. inversion 1; subst; eauto. Qed.

Lemma matches_cat_inv r1 r2 s :
  matches (RegExp.Cat r1 r2) s ->
  exists s1 s2, s = (s1 ++ s2)%list /\ matches r1 s1 /\ matches r2 s2.
Proof. inversion 1; subst; eauto. Qed.

Lemma matches_alt_inv r1 r2 s :
  matches (RegExp.Alt r1 r2) s -> matches r1 s \/ matches r2 s.
Proof. inversion 1; subst; auto. Qed.

Lemma nullable_matches r : RegExp.nullable r = true <-> matches r [].
Proof.
  induction r as [| |c| |c|r1 IH1 r2 IH2|r1 IH1 r2 IH2|r IH]; simpl.
  - split; [discriminate | inversion 1].
  - split; [constructor | reflexivity].
  - split; [discriminate | intros H; apply matches_chr_inv in H; discriminate].
  - split; [discriminate|].
    intros H. apply matches_dot_inv in H as (c & H & _). discriminate.
  - split; [discriminate|].
    intros H. apply matches_notchr_inv in H as (d & H & _). discriminate.
  - rewrite andb_true_iff, IH1, IH2. split.
    + intros [H1 H2]. apply (matches_cat _ _ [] [] H1 H2).
    + intros H. apply matches_cat_inv in H as (s1 & s2 & E & H1 & H2).
      symmetry in E. apply app_eq_nil in E as [-> ->]. auto.
  - rewrite orb_true_iff, IH1, IH2. split.
    + intros [H|H]; [now apply matches_alt_l | now apply matches_alt_r].
    + apply matches_alt_inv.
  - split; [constructor | reflexivity].
Qed.

Lemma matches_star_cons r a s :
  matches (RegExp.Star r) (a :: s) ->
  exists s1 s2, s = (s1 ++ s2)%list /\ matches r (a :: s1) /\
                matches (RegExp.Star r) s2.
Proof.
  intros H. remember (RegExp.Star r) as r' eqn:Er.
  remember (a :: s) as s' eqn:Es. revert s Es.
  induction H as [| | | | | | |r0|r0 s1 s2 H1 _ H2 IH2];
    try discriminate Er; intros s Es; [discriminate Es|].
  injection Er as ->. destruct s1 as [|b s1]; simpl in Es.
  - now apply IH2.
  - injection Es as -> <-. eauto.
Qed.

Lemma matches_cat_cons r1 r2 a s :
  matches (RegExp.Cat r1 r2) (a :: s) <->
  (exists s1 s2, s = (s1 ++ s2)%list /\ matches r1 (a :: s1) /\ matches r2 s2)
  \/ (matches r1 [] /\ matches r2 (a :: s)).
Proof.
  split.
  - intros H. apply matches_cat_inv in H as (s1 & s2 & E & H1 & H2).
    destruct s1 as [|b s1]; simpl in E.
    + right. subst. auto.
    + injection E as <- ->. left. eauto.
  - intros [(s1 & s2 & -> & H1 & H2)|[H1 H2]].
    + apply (matches_cat _ _ (a :: s1) s2 H1 H2).
    + apply (matches_cat _ _ [] (a :: s) H1 H2).
Qed.

Lemma deriv_matches a r s :
  matches (RegExp.deriv a r) s <-> matches r (a :: s).
Proof.
  revert s.
  induction r as [| |c| |c|r1 IH1 r2 IH2|r1 IH1 r2 IH2|r IH]; intros s; simpl.
  - split; inversion 1.
  - split; [inversion 1|]. intros H. apply matches_eps_inv in H. discriminate.
  - destruct (Ascii.eqb_spec a c) as [->|Hne]; split; intros H.
    + apply matches_eps_inv in H as ->. constructor.
    + apply matches_chr_inv in H. simplify_eq. constructor.
    + inversion H.
    + apply matches_chr_inv in H. simplify_eq.
  - destruct (RegExp.isLineTerminator a) eqn:Hlt; split; intros H.
    + inversion H.
    + apply matches_dot_inv in H as (c & E & Hc). simplify_eq. congruence.
    + apply matches_eps_inv in H as ->. now constructor.
    + apply matches_dot_inv in H as (c & E & Hc). simplify_eq. constructor.
  - destruct (Ascii.eqb_spec a c) as [->|Hne]; split; intros H.
    + inversion H.
    + apply matches_notchr_inv in H as (d & E & Hd). simplify_eq.
    + apply matches_eps_inv in H as ->. now constructor.
    + apply matches_notchr_inv in H as (d & E & Hd). simplify_eq. constructor.
  - assert (Hcat : matches (RegExp.Cat (RegExp.deriv a r1) r2) s <->
                   exists s1 s2, s = (s1 ++ s2)%list /\ matches r1 (a :: s1) /\
                                 matches r2 s2).
    { split.
      - intros H. apply matches_cat_inv in H as (s1 & s2 & -> & H1 & H2).
        exists s1, s2. rewrite <- IH1. auto.
      - intros (s1 & s2 & -> & H1 & H2).
        constructor; [now apply IH1 | assumption]. }
    rewrite matches_cat_cons. destruct (RegExp.nullable r1) eqn:Hn.
    + apply nullable_matches in Hn. split.
      * intros H. apply matches_alt_inv in H as [H|H].
        -- left. now apply Hcat.
        -- right. split; [assumption|]. now apply IH2.
      * intros [H|[_ H]].
        -- apply matches_alt_l. now apply Hcat.
        -- apply matches_alt_r. now apply IH2.
    + rewrite Hcat. split; [now left|].
      intros [H|[H _]]; [assumption|].
      apply nullable_matches in H. congruence.
  - split; intros H.
    + apply matches_alt_inv in H as [H|H];
        [apply matches_alt_l; now apply IH1 | apply matches_alt_r; now apply IH2].
    + apply matches_alt_inv in H as [H|H];
        [apply matches_alt_l; now apply IH1 | apply matches_alt_r; now apply IH2].
  - split; intros H.
    + apply matches_cat_inv in H as (s1 & s2 & -> & H1 & H2).
      apply IH in H1. apply (matches_star_app _ (a :: s1) s2 H1 H2).
    + apply matches_star_cons in H as (s1 & s2 & -> & H1 & H2).
      constructor; [now apply IH | assumption].
Qed.

Lemma accepts_matches r s : RegExp.accepts r s = true <-> matches r s.
Proof.
  revert r. induction s as [|a s IH]; intros r; simpl.
  - apply nullable_matches.
  - rewrite IH. apply deriv_matches.
Qed.

(** One glob character compiles to its term. *)
Lemma parse_glob_char ch stack cur q :
  exists q', forall rest,
    RegExp.parse stack cur q
      (list_ascii_of_string
         (if Ascii.eqb ch "*" then ".*"
          else if Ascii.eqb ch "?" then "."
          else Matcher.escapeRegex (String ch EmptyString)) ++ rest)%list =
    RegExp.parse stack (globTerm ch :: cur) q' rest.
Proof.
  unfold globTerm.
  destruct (Ascii.eqb ch "*"); [|destruct (Ascii.eqb ch "?")].
  - eexists. intros rest. reflexivity.
  - eexists. intros rest. reflexivity.
  - eexists. intros rest. rewrite escapeRegex_cons.
    destruct (JS.hasChar ch ".*+?^${}()|[]\") eqn:Hc.
    + apply parse_escaped_char, escaped_is_syntax, Hc.
    + apply parse_plain_char, Hc.
Qed.

Lemma parse_glob (pattern : string) stack cur q :
  exists q', forall rest,
    RegExp.parse stack cur q
      (list_ascii_of_string (Matcher.excludePatternSource pattern) ++ rest)%list =
    RegExp.parse stack
      (rev (List.map globTerm (list_ascii_of_string pattern)) ++ cur)%list
      q' rest.
Proof.
  revert cur q. induction pattern as [|ch r IH]; intros cur q.
  - exists q. reflexivity.
  - rewrite excludePatternSource_cons.
    destruct (parse_glob_char ch stack cur q) as [q1 Hq1].
    destruct (IH (globTerm ch :: cur) q1) as [q2 Hq2].
    exists q2. intros rest. rewrite chars_app, <- app_assoc, Hq1, Hq2.
    simpl. now rewrite <- app_assoc.
Qed.

Lemma seqOf_rev (terms : list RegExp.re) :
  RegExp.seqOf (rev terms) =
    fold_right (fun t acc => RegExp.Cat t acc) RegExp.Eps terms.
Proof.
  unfold RegExp.seqOf. induction terms as [|t l IH]; simpl; [reflexivity|].
  rewrite fold_left_app. simpl. now rewrite IH.
Qed.

(** The exclude-pattern compilation of a glob is its regular
    expression, term by term. *)
Lemma excludePatternToRegex_glob (pattern : string) :
  Matcher.excludePatternToRegex pattern =
    Some (globRegex (list_ascii_of_string pattern)).
Proof.
  unfold Matcher.excludePatternToRegex, RegExp.anchored.
  destruct (parse_glob pattern [] [] RegExp.NothingToRepeat) as [q' H].
  specialize (H []). rewrite !app_nil_r in H. rewrite H. simpl.
  rewrite seqOf_rev. unfold globRegex. f_equal. clear H.
  induction (list_ascii_of_string pattern) as [|c l IH]; simpl;
    [reflexivity | now f_equal].
Qed.

Lemma matches_star_dot s :
  matches (RegExp.Star RegExp.Dot) s <->
  List.Forall (fun c => RegExp.isLineTerminator c = false) s.
Proof.
  split.
  - intros H. remember (RegExp.Star RegExp.Dot) as r eqn:Er.
    induction H; try discriminate Er.
    + constructor.
    + injection Er as ->. apply List.Forall_app. split; [|auto].
      apply matches_dot_inv in H as (c & -> & Hc). repeat constructor; assumption.
  - induction 1 as [|c s Hc _ IH]; [constructor|].
    apply (matches_star_app _ [c] s); [now constructor | assumption].
Qed.

(** The compiled glob accepts what the glob accepts in the
    specification's words. *)
Lemma globRegex_matches (pattern s : list ascii) :
  matches (globRegex pattern) s <-> globAccepts pattern s.
Proof.
  revert s. induction pattern as [|ch p IH]; intros s; simpl.
  - split; [intros H; apply matches_eps_inv in H as ->; constructor|].
    inversion 1. constructor.
  - unfold globTerm. split.
    + intros H. apply matches_cat_inv in H as (s1 & s2 & -> & H1 & H2).
      apply IH in H2.
      destruct (Ascii.eqb_spec ch "*") as [->|Hs];
        [|destruct (Ascii.eqb_spec ch "?") as [->|Hq]].
      * apply matches_star_dot in H1. now constructor.
      * apply matches_dot_inv in H1 as (c & -> & Hc). now constructor.
      * apply matches_chr_inv in H1 as ->. now constructor.
    + intros H.
      destruct (Ascii.eqb_spec ch "*") as [->|Hs];
        [|destruct (Ascii.eqb_spec ch "?") as [->|Hq]].
      * inversion H; subst; try congruence.
        constructor; [now apply matches_star_dot | now apply IH].
      * inversion H; subst; try congruence.
        apply (matches_cat _ _ [c] s0); [now constructor | now apply IH].
      * inversion H; subst; try congruence.
        apply (matches_cat _ _ [ch] s0); [constructor | now apply IH].
Qed.

(** Without a question mark in the pattern the cache and the matcher
    hand the same source to [new RegExp]. *)
Lemma sources_agree (pattern : string) :
  JS.hasChar "?" pattern = false ->
  Cache.patternSource pattern = Matcher.excludePatternSource pattern.
Proof.
  induction pattern as [|c r IH]; [reflexivity|].
  intros H. simpl in H. apply orb_false_elim in H as [Hc Hr].
  specialize (IH Hr). unfold Cache.patternSource in *.
  rewrite excludePatternSource_cons, <- IH. clear - Hc.
  ascii_cases c; try discriminate Hc; reflexivity.
Qed.

Lemma filtered_keys (P : string -> bool) (st : Cache.Store) (key : string) :
  key ∈ Cache.storeKeys st ->
  (key ∉ Cache.storeKeys (List.filter (fun kv => negb (P (fst kv))) st) <->
   P key = true).
Proof.
  intros Hin. unfold Cache.storeKeys in *.
  rewrite list_elem_of_In in Hin. rewrite list_elem_of_In.
  rewrite in_map_iff in Hin. rewrite in_map_iff.
  destruct Hin as ([k v] & Hk & Hin). simpl in Hk. subst k. split.
  - intros Hnot. destruct (P key) eqn:HP; [reflexivity|]. exfalso.
    apply Hnot. exists (key, v). split; [reflexivity|].
    apply filter_In. simpl. now rewrite HP.
  - intros HP ([k' v'] & Hk' & Hin'). simpl in Hk'. subst k'.
    apply filter_In in Hin' as [_ Hb]. simpl in Hb. now rewrite HP in Hb.
Qed.

(** X26. For every pattern without a question mark,
    [invalidateByPattern] compiles the pattern to the same regular
    expression as the matcher's exclude-pattern compilation (which never
    throws, and accepts a key exactly when the glob does, [*] standing
    for any run of characters other than line terminators) and removes
    exactly the cached keys that expression accepts;
    [invalidateByPattern('/users/*')] removes [/users/1] and [/users/2]
    but not [/about]. *)
Theorem invalidate_agrees_with_exclude (pattern : string) :
  JS.hasChar "?" pattern = false ->
  (exists regex,
     Matcher.excludePatternToRegex pattern = Some regex /\
     Cache.patternToRegex pattern = Some regex /\
     (forall key,
        RegExp.test regex key = true <->
        globAccepts (list_ascii_of_string pattern) (list_ascii_of_string key)) /\
     forall st, exists st',
       Cache.invalidateByPattern pattern st = Some st' /\
       st' = List.filter (fun kv => negb (RegExp.test regex (fst kv))) st /\
       forall key, key ∈ Cache.storeKeys st ->
                   (key ∉ Cache.storeKeys st' <-> RegExp.test regex key = true)) /\
  (forall p1 p2 p3,
     Cache.invalidateByPattern "/users/*"
       [("/users/1", p1); ("/about", p2); ("/users/2", p3)]
     = Some [("/about", p2)]).
Proof.
  intros Hq. split; [|reflexivity].
  pose proof (excludePatternToRegex_glob pattern) as Hre.
  exists (globRegex (list_ascii_of_string pattern)). split; [assumption|].
  assert (Hc : Cache.patternToRegex pattern
               = Some (globRegex (list_ascii_of_string pattern))).
  { unfold Cache.patternToRegex. rewrite sources_agree by assumption.
    exact Hre. }
  split; [assumption|]. split.
  { intros key. unfold RegExp.test.
    rewrite accepts_matches. apply globRegex_matches. }
  set (regex := globRegex (list_ascii_of_string pattern)) in *.
  intros st.
  exists (List.filter (fun kv => negb (RegExp.test regex (fst kv))) st).
  split; [|split].
  - now apply invalidate_spec.
  - reflexivity.
  - intros key Hin. now apply filtered_keys.
Qed.

Lemma invalidate_agrees_with_exclude_witness :
  JS.hasChar "?" "/users/*" = false /\
  exists regex,
    Matcher.excludePatternToRegex "/users/*" = Some regex /\
    Cache.patternToRegex "/users/*" = Some regex /\
    RegExp.test regex "/users/1" = true /\
    RegExp.test regex "/about" = false.
Proof.
  split; [reflexivity|].
  destruct (invalidate_agrees_with_exclude "/users/*" eq_refl)
    as [(regex & Hm & Hc & _ & _) _].
  exists regex. split; [assumption|]. split; [assumption|].
  unfold Cache.patternToRegex in Hc. vm_compute in Hc.
  injection Hc as <-. split; reflexivity.
Defined.

(** C9. [cache.patternToRegex] escapes every character that is
    special in a regular expression but the question mark, which the
    matcher's [excludePatternToRegex] translates to [.] and
    [escapeRegex] escapes. The mark reaches [new RegExp] as a
    quantifier: the cache's compilation of [/users?page=2] makes the
    [s] optional, so [invalidateByPattern('/users?page=2')] keeps the
    key [/users?page=2], which the glob and the exclude-pattern
    compilation of the same pattern accept, and removes the key
    [/userpage=2], which that compilation refuses; and
    [invalidateByPattern] throws on [?page=*], which the
    exclude-pattern compilation takes (it accepts [/page=2]). *)
Theorem invalidate_mishandles_question_mark :
  (exists regex,
     Matcher.excludePatternToRegex "/users?page=2" = Some regex /\
     RegExp.test regex "/users?page=2" = true /\
     RegExp.test regex "/userpage=2" = false) /\
  globAccepts (list_ascii_of_string "/users?page=2")
              (list_ascii_of_string "/users?page=2") /\
  Cache.invalidateByPattern "/users?page=2"
    [("/users?page=2", examplePage "/users?page=2" 0);
     ("/userpage=2", examplePage "/userpage=2" 0)]
  = Some [("/users?page=2", examplePage "/users?page=2" 0)] /\
  (exists regex,
     Matcher.excludePatternToRegex "?page=*" = Some regex /\
     RegExp.test regex "/page=2" = true) /\
  Cache.invalidateByPattern "?page=*"
    [("/page=2", examplePage "/page=2" 0)] = None.
Proof.
  split; [eexists; split; [reflexivity|]; split; reflexivity|].
  split.
  { simpl. repeat (apply glob_char; [discriminate | discriminate|]).
    apply glob_one; [reflexivity|].
    repeat (apply glob_char; [discriminate | discriminate|]).
    apply glob_end. }
  split; [reflexivity|].
  split; [eexists; split; reflexivity | reflexivity].
Qed.

(** ** Route matcher *)

Section MatcherFacts.

Variable host : Host.

#[local] Abbreviation spec := Matcher.specificity.
#[local] Abbreviation descending := descendingCompiled.

Lemma insert_In x y (l : list Matcher.CompiledRoute) :
  In y (Matcher.insertBySpecificity x l) <-> y = x \/ In y l.
Proof.
  induction l as [|z l IH]; simpl; [intuition|].
  destruct (spec z <=? spec x); simpl; [intuition|].
  rewrite IH. intuition.
Qed.

Lemma insert_descending x (l : list Matcher.CompiledRoute) :
  descending l -> descending (Matcher.insertBySpecificity x l).
Proof.
  induction l as [|y l IH]; intros Hs; simpl.
  - repeat constructor.
  - apply StronglySorted_inv in Hs as [Hs Hall].
    destruct (Z.leb_spec (spec y) (spec x)) as [Hle|Hgt].
    + constructor; [constructor; assumption|].
      constructor; [assumption|].
      eapply Forall_impl; [exact Hall|]. simpl. intros z Hz. lia.
    + constructor; [now apply IH|].
      apply List.Forall_forall. intros z Hz. apply insert_In in Hz as [->|Hz].
      * lia.
      * rewrite List.Forall_forall in Hall. now apply Hall.
Qed.

Lemma sort_descending (l : list Matcher.CompiledRoute) :
  descending (Matcher.sortBySpecificity l).
Proof.
  induction l as [|x l IH]; simpl; [constructor|].
  now apply insert_descending.
Qed.

Lemma insert_Permutation x (l : list Matcher.CompiledRoute) :
  Permutation (Matcher.insertBySpecificity x l) (x :: l).
Proof.
  induction l as [|y l IH]; simpl; [reflexivity|].
  destruct (spec y <=? spec x); [reflexivity|].
  rewrite IH. apply perm_swap.
Qed.

Lemma sort_Permutation (l : list Matcher.CompiledRoute) :
  Permutation (Matcher.sortBySpecificity l) l.
Proof.
  induction l as [|x l IH]; simpl; [reflexivity|].
  rewrite insert_Permutation. now constructor.
Qed.

Lemma find_descending_le P (l : list Matcher.CompiledRoute) x z :
  descending l -> Forall (fun y => spec y <= spec x) l ->
  find P l = Some z -> spec z <= spec x.
Proof.
  intros _ Hall Hf. apply find_some in Hf as [Hin _].
  rewrite List.Forall_forall in Hall. now apply Hall.
Qed.

(** Where the first match sits after one more insertion. *)
Lemma find_insert P x (l : list Matcher.CompiledRoute) :
  descending l ->
  find P (Matcher.insertBySpecificity x l) =
    if P x then
      match find P l with
      | Some y => if spec y >? spec x then Some y else Some x
      | None => Some x
      end
    else find P l.
Proof.
  induction l as [|y l IH]; intros Hs; simpl.
  - reflexivity.
  - apply StronglySorted_inv in Hs as [Hs Hall].
    destruct (Z.leb_spec (spec y) (spec x)) as [Hle|Hgt]; simpl.
    + destruct (P x); [|reflexivity].
      destruct (P y).
      * destruct (Z.gtb_spec (spec y) (spec x)); [lia | reflexivity].
      * destruct (find P l) as [z|] eqn:Hf; [|reflexivity].
        assert (spec z <= spec y).
        { apply find_some in Hf as [Hin _].
          rewrite List.Forall_forall in Hall. now apply Hall. }
        destruct (Z.gtb_spec (spec z) (spec x)); [lia | reflexivity].
    + rewrite IH by assumption. destruct (P y).
      * destruct (P x); [|reflexivity].
        destruct (Z.gtb_spec (spec y) (spec x)); [reflexivity | lia].
      * reflexivity.
Qed.

(** The first match in the sorted order, read off the manifest order. *)
Lemma find_sort P (l : list Matcher.CompiledRoute) :
  find P (Matcher.sortBySpecificity l) = bestCompiled P l.
Proof.
  induction l as [|x l IH]; simpl; [reflexivity|].
  rewrite find_insert by apply sort_descending. now rewrite IH.
Qed.

Lemma bestCompiled_In P (l : list Matcher.CompiledRoute) y :
  bestCompiled P l = Some y -> In y l /\ P y = true.
Proof.
  revert y. induction l as [|x l IH]; intros y; simpl; [discriminate|].
  destruct (P x) eqn:HP.
  - destruct (bestCompiled P l) as [z|].
    + destruct (spec z >? spec x); intros [= <-].
      * destruct (IH z eq_refl). auto.
      * auto.
    + intros [= <-]. auto.
  - intros H. destruct (IH y H). auto.
Qed.

Lemma compileRoute_Some (r : ManifestRoute) :
  exists re names,
    Matcher.compilePattern (pattern r) = Some (re, names) /\
    Matcher.compileRoute r =
      Some {| Matcher.route := r; Matcher.regex := re;
              Matcher.paramNames := names;
              Matcher.specificity := Matcher.calcSpecificity (pattern r) |}.
Proof.
  unfold Matcher.compileRoute, Matcher.compilePattern.
  destruct (compilePattern_total (pattern r)) as [re ->].
  eexists _, _. split; reflexivity.
Qed.

Lemma compileRoute_fields (r : ManifestRoute) c :
  Matcher.compileRoute r = Some c ->
  Matcher.route c = r /\
  spec c = Matcher.calcSpecificity (pattern r) /\
  forall url, RegExp.test (Matcher.regex c) (Matcher.normalizePath host url)
              = routeAccepts host r url.
Proof.
  destruct (compileRoute_Some r) as (re & names & Hp & ->).
  intros [= <-]. simpl. repeat split. intros url.
  unfold routeAccepts. now rewrite Hp.
Qed.

Lemma compile_all (routes : list ManifestRoute) :
  exists compiled,
    mapM Matcher.compileRoute routes = Some compiled /\
    Forall2 (fun r c => Matcher.compileRoute r = Some c) routes compiled.
Proof.
  induction routes as [|r routes (compiled & Hm & Hall)].
  - exists []. split; [reflexivity | constructor].
  - destruct (compileRoute_Some r) as (re & names & _ & Hc).
    eexists (_ :: compiled). split.
    + simpl. rewrite Hc. simpl. rewrite Hm. reflexivity.
    + constructor; assumption.
Qed.

Lemma exclude_all (patterns : list string) :
  exists regexes, mapM Matcher.excludePatternToRegex patterns = Some regexes.
Proof.
  induction patterns as [|p patterns (regexes & Hm)].
  - exists []. reflexivity.
  - destruct (excludePatternToRegex_total p) as [re Hre].
    exists (re :: regexes). simpl. rewrite Hre. simpl. now rewrite Hm.
Qed.

(** [createMatcher] never throws. *)
Lemma createMatcher_total (routes : list ManifestRoute) (config : Force10Config) :
  exists compiled excludeRegexes,
    Forall2 (fun r c => Matcher.compileRoute r = Some c) routes compiled /\
    mapM Matcher.excludePatternToRegex (routes_exclude config)
      = Some excludeRegexes /\
    Matcher.createMatcher host routes config =
      Some {| match_ := Matcher.matchCompiled host
                          (Matcher.sortBySpecificity compiled);
              isExcluded := Matcher.isExcludedBy host excludeRegexes |}.
Proof.
  destruct (compile_all routes) as (compiled & Hm & Hall).
  destruct (exclude_all (routes_exclude config)) as (regexes & He).
  exists compiled, regexes. split; [assumption|]. split; [assumption|].
  unfold Matcher.createMatcher. now rewrite Hm, He.
Qed.

Lemma compiled_sound (routes : list ManifestRoute) compiled :
  Forall2 (fun r c => Matcher.compileRoute r = Some c) routes compiled ->
  List.map Matcher.route compiled = routes /\
  List.Forall (fun c => Matcher.compileRoute (Matcher.route c) = Some c)
              compiled.
Proof.
  induction 1 as [|r c routes compiled Hc _ [IHm IHf]].
  - split; constructor.
  - destruct (compileRoute_fields r c Hc) as (Hr & _).
    split; simpl.
    + now rewrite Hr, IHm.
    + constructor; [now rewrite Hr | assumption].
Qed.

Lemma find_map_route (Q : ManifestRoute -> bool)
      (l : list Matcher.CompiledRoute) :
  find Q (List.map Matcher.route l) =
    option_map Matcher.route (find (fun c => Q (Matcher.route c)) l).
Proof.
  induction l as [|c l IH]; simpl; [reflexivity|].
  destruct (Q (Matcher.route c)); [reflexivity | exact IH].
Qed.

Lemma find_ext_In {A} (P Q : A -> bool) (l : list A) :
  (forall x, In x l -> P x = Q x) -> find P l = find Q l.
Proof.
  induction l as [|x l IH]; intros H; simpl; [reflexivity|].
  rewrite (H x) by now left. destruct (Q x); [reflexivity|].
  apply IH. intros y Hy. apply H. now right.
Qed.

Lemma map_route_descending (l : list Matcher.CompiledRoute) :
  List.Forall (fun c => Matcher.compileRoute (Matcher.route c) = Some c) l ->
  descending l -> descendingRoutes (List.map Matcher.route l).
Proof.
  intros Hall Hs. induction Hs as [|c l Hs IH Hle]; simpl; [constructor|].
  apply List.Forall_cons_iff in Hall as [Hc Hall].
  constructor; [now apply IH|].
  apply List.Forall_forall. intros r Hr.
  apply in_map_iff in Hr as (c' & <- & Hin).
  rewrite List.Forall_forall in Hle, Hall.
  destruct (compileRoute_fields _ _ Hc) as (_ & <- & _).
  destruct (compileRoute_fields _ _ (Hall c' Hin)) as (_ & <- & _).
  now apply Hle.
Qed.

Lemma calcSpecificity_fold (segs : list string) (acc : Z) :
  fold_left (fun score seg => score + Matcher.segmentScore seg) segs acc =
    acc + 3 * Z.of_nat (length (List.filter isStaticSegment segs))
        + 2 * Z.of_nat (length (List.filter isParamSegment segs))
        + 1 * Z.of_nat (length (List.filter Matcher.isWildcard segs)).
Proof.
  revert acc. induction segs as [|seg segs IH]; intros acc; simpl; [lia|].
  rewrite IH. unfold Matcher.segmentScore, isStaticSegment, isParamSegment.
  destruct (Matcher.isWildcard seg); [|destruct (Matcher.isParam seg)];
    simpl length; lia.
Qed.

Lemma users_create_entry (r : ManifestRoute) c :
  pattern r = "/users/create" ->
  Matcher.compileRoute r = Some c ->
  RegExp.test (Matcher.regex c) (Matcher.normalizePath host "/users/create")
    = true /\ spec c = 6.
Proof.
  intros Hp Hc. destruct (compileRoute_fields r c Hc) as (_ & -> & ->).
  unfold routeAccepts. rewrite Hp. split; reflexivity.
Qed.

Lemma users_create_best (routes : list ManifestRoute) compiled :
  Forall2 (fun r c => Matcher.compileRoute r = Some c) routes compiled ->
  (forall r, In r routes -> pattern r <> "/users/create" ->
             routeAccepts host r "/users/create" = true ->
             Matcher.calcSpecificity (pattern r) < 6) ->
  let P := fun c => RegExp.test (Matcher.regex c)
                      (Matcher.normalizePath host "/users/create") in
  (forall y, bestCompiled P compiled = Some y -> spec y <= 6) /\
  (forall e,
     find (fun r => String.eqb (pattern r) "/users/create") routes = Some e ->
     exists c, bestCompiled P compiled = Some c /\ Matcher.route c = e /\
               spec c = 6).
Proof.
  intros Hall Hother P.
  induction Hall as [|r c routes compiled Hc Hall IH].
  - split; [discriminate 1 | discriminate 1].
  - assert (Hrest : forall r0, In r0 routes -> pattern r0 <> "/users/create" ->
               routeAccepts host r0 "/users/create" = true ->
               Matcher.calcSpecificity (pattern r0) < 6).
    { intros r0 Hin. apply Hother. now right. }
    destruct (IH Hrest) as [IHle IHfind]. clear IH.
    destruct (compileRoute_fields r c Hc) as (Hroute & Hspec & Hacc).
    assert (Hc6 : P c = true -> spec c <= 6).
    { intros HP. destruct (String.eqb_spec (pattern r) "/users/create") as [E|E].
      - destruct (users_create_entry r c E Hc) as [_ ->]. lia.
      - unfold P in HP. rewrite Hacc in HP. rewrite Hspec.
        assert (Matcher.calcSpecificity (pattern r) < 6)
          by (apply Hother; [now left | assumption | assumption]).
        lia. }
    split.
    + intros y. simpl. destruct (P c) eqn:HP.
      * destruct (bestCompiled P compiled) as [z|].
        -- destruct (spec z >? spec c); intros [= <-]; auto.
        -- intros [= <-]. auto.
      * apply IHle.
    + intros e. simpl.
      destruct (String.eqb_spec (pattern r) "/users/create") as [E|E].
      * intros [= <-].
        destruct (users_create_entry r c E Hc) as [HP H6].
        fold (P c) in HP. rewrite HP. exists c.
        split; [|split; assumption].
        destruct (bestCompiled P compiled) as [z|] eqn:Hz; [|reflexivity].
        specialize (IHle z eq_refl).
        destruct (Z.gtb_spec (spec z) (spec c)); [lia | reflexivity].
      * intros Hfind. destruct (IHfind e Hfind) as (ce & Hbest & Hre & H6).
        exists ce. split; [|split; assumption]. rewrite Hbest.
        destruct (P c) eqn:HP; [|reflexivity].
        assert (spec c < 6).
        { unfold P in HP. rewrite Hacc in HP. rewrite Hspec.
          apply Hother; [now left | assumption | assumption]. }
        destruct (Z.gtb_spec (spec ce) (spec c)); [reflexivity | lia].
Qed.

End MatcherFacts.

(** C8 (amended). The specificity of a pattern is 3 per static segment
    plus 2 per parameter segment plus 1 per wildcard segment;
    [createMatcher] orders the routes by descending specificity and
    [match] returns the first route of that order whose pattern accepts
    the normalised URL; and for every route table with a [/users/create]
    entry (beside [/users/:id] or any other routes) in which every other
    route that structurally matches [/users/create] has a specificity
    below 6, [match('/users/create')] returns the first [/users/create]
    entry. *)
Theorem match_prefers_higher_specificity (host : Host)
        (config : Force10Config) (routes : list ManifestRoute)
        (e : ManifestRoute) :
  find (fun r => String.eqb (pattern r) "/users/create") routes = Some e ->
  (forall r, In r routes -> pattern r <> "/users/create" ->
             routeAccepts host r "/users/create" = true ->
             Matcher.calcSpecificity (pattern r) < 6) ->
  (forall p,
     Matcher.calcSpecificity p =
       3 * countSegments isStaticSegment p
       + 2 * countSegments isParamSegment p
       + 1 * countSegments Matcher.isWildcard p) /\
  exists m order,
    Matcher.createMatcher host routes config = Some m /\
    Permutation order routes /\
    descendingRoutes order /\
    (forall url,
       match_ m url =
         option_map (fun r => {| mr_route := r; mr_url := url |})
                    (find (fun r => routeAccepts host r url) order)) /\
    match_ m "/users/create"
      = Some {| mr_route := e; mr_url := "/users/create" |}.
Proof.
  intros Hfind Hother. split.
  - intros p. unfold Matcher.calcSpecificity, countSegments.
    rewrite calcSpecificity_fold. lia.
  - destruct (createMatcher_total host routes config)
      as (compiled & regexes & Hall & _ & ->).
    destruct (compiled_sound host routes compiled Hall) as [Hmap Hsound].
    exists {| match_ := Matcher.matchCompiled host
                          (Matcher.sortBySpecificity compiled);
              isExcluded := Matcher.isExcludedBy host regexes |},
      (List.map Matcher.route (Matcher.sortBySpecificity compiled)).
    assert (Hsorted_sound :
              List.Forall
                (fun c => Matcher.compileRoute (Matcher.route c) = Some c)
                (Matcher.sortBySpecificity compiled)).
    { apply List.Forall_forall. intros c Hin.
      rewrite List.Forall_forall in Hsound. apply Hsound.
      eapply Permutation_in; [apply sort_Permutation | exact Hin]. }
    split; [reflexivity|]. split; [|split; [|split]].
    + rewrite <- Hmap. apply Permutation_map, sort_Permutation.
    + apply (map_route_descending host); [assumption | apply sort_descending].
    + intros url. simpl. unfold Matcher.matchCompiled.
      rewrite find_map_route.
      rewrite (find_ext_In
                 (fun c => RegExp.test (Matcher.regex c)
                             (Matcher.normalizePath host url))
                 (fun c => routeAccepts host (Matcher.route c) url)).
      * destruct (find _ (Matcher.sortBySpecificity compiled));
          reflexivity.
      * intros c Hin. rewrite List.Forall_forall in Hsorted_sound.
        now destruct (compileRoute_fields host _ _ (Hsorted_sound c Hin))
          as (_ & _ & ->).
    + simpl. unfold Matcher.matchCompiled. rewrite find_sort.
      destruct (users_create_best host routes compiled Hall Hother)
        as [_ Hbest].
      destruct (Hbest e Hfind) as (c & -> & <- & _). reflexivity.
Qed.

Lemma match_prefers_higher_specificity_witness :
  find (fun r => String.eqb (pattern r) "/users/create")
       [usersShow; usersCreate] = Some usersCreate /\
  exists m,
    Matcher.createMatcher stubHost [usersShow; usersCreate] defaultConfig
      = Some m /\
    match_ m "/users/create"
      = Some {| mr_route := usersCreate; mr_url := "/users/create" |}.
Proof.
  split; [reflexivity|].
  destruct (match_prefers_higher_specificity stubHost defaultConfig
              [usersShow; usersCreate] usersCreate eq_refl)
    as (_ & m & order & Hm & _ & _ & _ & Hmatch).
  - intros r [<-|[<-|[]]] Hne Hacc.
    + reflexivity.
    + exfalso. now apply Hne.
  - exists m. split; assumption.
Defined.

(** C8 as stated fails on a table that holds both routes and a third
    one: [/users/create/:step?] scores 8, accepts [/users/create] since
    its parameter is optional, and is the entry [match] returns. *)
Lemma match_users_create_counterexample :
  In usersShow [usersShow; usersCreate; usersCreateStep] /\
  In usersCreate [usersShow; usersCreate; usersCreateStep] /\
  exists m,
    Matcher.createMatcher stubHost [usersShow; usersCreate; usersCreateStep]
      defaultConfig = Some m /\
    match_ m "/users/create"
      = Some {| mr_route := usersCreateStep; mr_url := "/users/create" |} /\
    match_ m "/users/create"
      <> Some {| mr_route := usersCreate; mr_url := "/users/create" |}.
Proof.
  split; [now left|]. split; [right; now left|].
  eexists. split; [reflexivity|]. split; [reflexivity|].
  vm_compute. discriminate.
Qed.

(** ** Interceptor *)

Section InterceptorFacts.

Variable host : Host.
Variable config : Force10Config.
Variable matcher : Force10Matcher.
Variable navigatorPreflight : bool.
Variable patchPreflight : bool.

#[local] Abbreviation visit :=
  (patchedVisit host config matcher navigatorPreflight patchPreflight).
#[local] Abbreviation afterCancel :=
  (visitAfterCancel host config matcher navigatorPreflight patchPreflight).
#[local] Abbreviation decision :=
  (classify host config matcher navigatorPreflight patchPreflight).
#[local] Abbreviation step1 :=
  (step host config matcher navigatorPreflight patchPreflight).
#[local] Abbreviation runAll :=
  (run host config matcher navigatorPreflight patchPreflight).

Lemma fired_or_pending (n : NavClosure) :
  backgroundFired n = true \/ backgroundFired n = false.
Proof. destruct (backgroundFired n); auto. Qed.

Lemma fired_not_pending i w : firedAt i w -> pendingAt i w -> False.
Proof. intros (n & Hn & Hf) (n' & Hn' & Hp). congruence. Qed.

Lemma bg_emit i e w :
  backgroundRequests i (emit e w) =
    (backgroundRequests i w + if isBackgroundRequest i e then 1 else 0)%nat.
Proof.
  unfold backgroundRequests. simpl. rewrite List.filter_app, length_app. simpl.
  now destruct (isBackgroundRequest i e).
Qed.

Lemma markFired_navs i w j :
  navs (markFired i w) !! j =
    if decide (j = i) then firedRow <$> navs w !! i else navs w !! j.
Proof.
  unfold markFired. destruct (navs w !! i) as [n|] eqn:Hn; simpl.
  - destruct (decide (j = i)) as [->|Hne].
    + apply list_lookup_insert_eq. eapply lookup_lt_Some, Hn.
    + now apply list_lookup_insert_ne.
  - destruct (decide (j = i)) as [->|Hne]; [now rewrite Hn | reflexivity].
Qed.

Lemma markFired_length i w : length (navs (markFired i w)) = length (navs w).
Proof.
  unfold markFired. destruct (navs w !! i); simpl; [|reflexivity].
  apply length_insert.
Qed.

Lemma markFired_keeps_fired i j w : firedAt j w -> firedAt j (markFired i w).
Proof.
  intros (n & Hn & Hf). unfold firedAt. rewrite markFired_navs.
  destruct (decide (j = i)) as [->|Hne]; [|eauto].
  rewrite Hn. simpl. eauto.
Qed.

(** What [fireBackground] does when the latch is open. *)
Lemma fire_pending i w n :
  navs w !! i = Some n -> backgroundFired n = false ->
  fireBackground i w =
    emit (OriginalVisit (nc_href n) (Some (backgroundOptions i (nc_options n))))
         (setCancelPending None
            (clearTimeout i (removeListener i (markFired i w)))).
Proof. intros Hn Hf. unfold fireBackground. now rewrite Hn, Hf. Qed.

(** The latch: once fired or cancelled, [fireBackground] does nothing. *)
Lemma fire_fired i w : firedAt i w -> fireBackground i w = w.
Proof. intros (n & Hn & Hf). unfold fireBackground. now rewrite Hn, Hf. Qed.

Lemma fire_missing i w : navs w !! i = None -> fireBackground i w = w.
Proof. intros Hn. unfold fireBackground. now rewrite Hn. Qed.

Lemma fire_navs i w j :
  navs (fireBackground i w) !! j =
    if decide (j = i) then firedRow <$> navs w !! i else navs w !! j.
Proof.
  unfold fireBackground. destruct (navs w !! i) as [n|] eqn:Hn.
  - destruct (backgroundFired n) eqn:Hf.
    + destruct (decide (j = i)) as [->|]; [|reflexivity].
      rewrite Hn. simpl. f_equal. destruct n. simpl in Hf. now subst.
    + simpl. rewrite markFired_navs. now rewrite Hn.
  - destruct (decide (j = i)) as [->|]; [now rewrite Hn | reflexivity].
Qed.

Lemma fire_makes_fired i w :
  is_Some (navs w !! i) -> firedAt i (fireBackground i w).
Proof.
  intros [n Hn]. unfold firedAt. rewrite fire_navs.
  rewrite decide_True by reflexivity. rewrite Hn. simpl. eauto.
Qed.

Lemma fire_keeps_fired i j w : firedAt j w -> firedAt j (fireBackground i w).
Proof.
  intros (n & Hn & Hf). unfold firedAt. rewrite fire_navs.
  destruct (decide (j = i)) as [->|Hne]; [|eauto].
  rewrite Hn. simpl. eauto.
Qed.

Lemma fire_keeps_pending i j w :
  j <> i -> pendingAt j w -> pendingAt j (fireBackground i w).
Proof.
  intros Hne (n & Hn & Hp). unfold pendingAt. rewrite fire_navs.
  rewrite decide_False by assumption. eauto.
Qed.

Lemma fire_bg_other i j w :
  j <> i -> backgroundRequests j (fireBackground i w) = backgroundRequests j w.
Proof.
  intros Hne. unfold fireBackground. destruct (navs w !! i) as [n|]; [|reflexivity].
  destruct (backgroundFired n); [reflexivity|].
  rewrite bg_emit. simpl. rewrite bool_decide_eq_false_2 by congruence.
  unfold backgroundRequests. simpl. unfold markFired.
  destruct (navs w !! i); simpl; lia.
Qed.

Lemma fire_bg_pending i w :
  pendingAt i w ->
  backgroundRequests i (fireBackground i w) = S (backgroundRequests i w).
Proof.
  intros (n & Hn & Hp). rewrite (fire_pending i w n Hn Hp), bg_emit. simpl.
  rewrite bool_decide_eq_true_2 by reflexivity.
  unfold backgroundRequests. simpl. unfold markFired. rewrite Hn. simpl. lia.
Qed.

Lemma fire_not_pending i w : ~ pendingAt i w -> fireBackground i w = w.
Proof.
  intros Hnp. destruct (navs w !! i) as [n|] eqn:Hn; [|now apply fire_missing].
  destruct (fired_or_pending n) as [Hf|Hp].
  - apply fire_fired. exists n. auto.
  - exfalso. apply Hnp. exists n. auto.
Qed.

Lemma setCancelPending_id w :
  cancelPendingBackground w = None -> setCancelPending None w = w.
Proof. destruct w. simpl. now intros ->. Qed.

Lemma cancel_navs i w j :
  navs (cancelClosure i w) !! j =
    if decide (j = i) then firedRow <$> navs w !! i else navs w !! j.
Proof.
  unfold cancelClosure. destruct (navs w !! i) as [n|] eqn:Hn.
  - destruct (backgroundFired n) eqn:Hf; simpl.
    + destruct (decide (j = i)) as [->|]; [|reflexivity].
      rewrite Hn. simpl. f_equal. destruct n. simpl in Hf. now subst.
    + rewrite markFired_navs. now rewrite Hn.
  - destruct (decide (j = i)) as [->|]; [now rewrite Hn | reflexivity].
Qed.

Lemma cancel_length i w : length (navs (cancelClosure i w)) = length (navs w).
Proof.
  unfold cancelClosure. destruct (navs w !! i) as [n|]; [|reflexivity].
  destruct (backgroundFired n); simpl; [reflexivity|]. apply markFired_length.
Qed.

Lemma cancel_trace i w : trace (cancelClosure i w) = trace w.
Proof.
  unfold cancelClosure. destruct (navs w !! i) as [n|]; [|reflexivity].
  destruct (backgroundFired n); simpl; [reflexivity|].
  unfold markFired. now destruct (navs w !! i).
Qed.

Lemma cancel_store i w : store (cancelClosure i w) = store w.
Proof.
  unfold cancelClosure. destruct (navs w !! i) as [n|]; [|reflexivity].
  destruct (backgroundFired n); simpl; [reflexivity|].
  unfold markFired. now destruct (navs w !! i).
Qed.

Lemma cancel_preflight i w :
  preflightData (cancelClosure i w) = preflightData w.
Proof.
  unfold cancelClosure. destruct (navs w !! i) as [n|]; [|reflexivity].
  destruct (backgroundFired n); simpl; [reflexivity|].
  unfold markFired. now destruct (navs w !! i).
Qed.

(** What cancelling a pending background request leaves behind. *)
Lemma cancel_pending i w :
  pendingAt i w ->
  isLoading (cancelClosure i w) = false /\
  cancelPendingBackground (cancelClosure i w) = None /\
  firedAt i (cancelClosure i w) /\
  ~ In i (listeners (cancelClosure i w)) /\
  (forall delay, ~ In (i, delay) (timers (cancelClosure i w))).
Proof.
  intros (n & Hn & Hp). unfold cancelClosure. rewrite Hn, Hp. simpl.
  split; [reflexivity|]. split; [reflexivity|]. split; [|split].
  - unfold firedAt. simpl. rewrite markFired_navs.
    rewrite decide_True by reflexivity. rewrite Hn. simpl. eauto.
  - intros Hin. apply filter_In in Hin as [_ Hb].
    now rewrite Nat.eqb_refl in Hb.
  - intros delay Hin. apply filter_In in Hin as [_ Hb]. simpl in Hb.
    now rewrite Nat.eqb_refl in Hb.
Qed.

Lemma cancel_idempotent i w :
  cancelClosure i (cancelClosure i w) = cancelClosure i w.
Proof.
  destruct (navs w !! i) as [n|] eqn:Hn.
  - assert (Hrow : navs (cancelClosure i w) !! i = Some (firedRow n)).
    { rewrite cancel_navs, decide_True by reflexivity. now rewrite Hn. }
    assert (Hnone : cancelPendingBackground (cancelClosure i w) = None).
    { unfold cancelClosure. rewrite Hn. reflexivity. }
    unfold cancelClosure at 1. rewrite Hrow. simpl.
    now apply setCancelPending_id.
  - unfold cancelClosure. rewrite Hn. now rewrite Hn.
Qed.

Lemma callCancel_idempotent w :
  callCancelPending (callCancelPending w) = callCancelPending w.
Proof.
  unfold callCancelPending at 2 3.
  destruct (cancelPendingBackground w) as [i|] eqn:Hc.
  - destruct (navs w !! i) as [n|] eqn:Hn.
    + unfold callCancelPending.
      replace (cancelPendingBackground (cancelClosure i w)) with (@None nat);
        [reflexivity|].
      unfold cancelClosure. rewrite Hn. reflexivity.
    + assert (E : cancelClosure i w = w)
        by (unfold cancelClosure; now rewrite Hn).
      rewrite E. unfold callCancelPending. rewrite Hc. exact E.
  - unfold callCancelPending. now rewrite Hc.
Qed.

Lemma callCancel_trace w : trace (callCancelPending w) = trace w.
Proof.
  unfold callCancelPending. destruct (cancelPendingBackground w);
    [apply cancel_trace | reflexivity].
Qed.

Lemma callCancel_store w : store (callCancelPending w) = store w.
Proof.
  unfold callCancelPending. destruct (cancelPendingBackground w);
    [apply cancel_store | reflexivity].
Qed.

Lemma callCancel_length w :
  length (navs (callCancelPending w)) = length (navs w).
Proof.
  unfold callCancelPending. destruct (cancelPendingBackground w);
    [apply cancel_length | reflexivity].
Qed.

Lemma callCancel_keeps_fired i w :
  firedAt i w -> firedAt i (callCancelPending w).
Proof.
  intros (n & Hn & Hf). unfold callCancelPending.
  destruct (cancelPendingBackground w) as [j|]; [|exists n; auto].
  unfold firedAt. rewrite cancel_navs.
  destruct (decide (i = j)) as [->|]; [|eauto]. rewrite Hn. simpl. eauto.
Qed.

(** After the cancellation at the head of a call nothing is pending. *)
Lemma callCancel_noPending w :
  trackedPending w -> noPending (callCancelPending w).
Proof.
  intros Htr j (n & Hn & Hp). unfold callCancelPending in Hn.
  destruct (cancelPendingBackground w) as [i|] eqn:Hc.
  - rewrite cancel_navs in Hn. destruct (decide (j = i)) as [->|Hne].
    + destruct (navs w !! i) as [n0|]; simpl in Hn; [|discriminate].
      injection Hn as <-. discriminate Hp.
    + assert (Some i = Some j) by (rewrite <- Hc; apply Htr; exists n; auto).
      congruence.
  - assert (@None nat = Some j) by (rewrite <- Hc; apply Htr; exists n; auto).
    discriminate.
Qed.

Lemma fire_tracked i w : trackedPending w -> trackedPending (fireBackground i w).
Proof.
  intros Htr j (n & Hn & Hp). rewrite fire_navs in Hn.
  destruct (decide (j = i)) as [->|Hne].
  - destruct (navs w !! i) as [n0|]; simpl in Hn; [|discriminate].
    injection Hn as <-. discriminate Hp.
  - assert (Hj : cancelPendingBackground w = Some j)
      by (apply Htr; exists n; auto).
    rewrite fire_not_pending; [assumption|].
    intros Hpi. apply Htr in Hpi. congruence.
Qed.

Lemma sameGate_refl w : sameGate w w.
Proof. repeat split. Qed.

Lemma sameGate_trans w1 w2 w3 : sameGate w1 w2 -> sameGate w2 w3 -> sameGate w1 w3.
Proof.
  intros (N1 & C1 & B1) (N2 & C2 & B2).
  split; [congruence|]. split; [congruence|].
  intros i. now rewrite B2, B1.
Qed.

Lemma sameGate_tracked w w' : sameGate w w' -> trackedPending w -> trackedPending w'.
Proof.
  intros (N & C & _) Htr j (n & Hn & Hp). rewrite C. apply Htr.
  exists n. now rewrite <- N.
Qed.

Lemma sameGate_fired i w w' : sameGate w w' -> firedAt i w -> firedAt i w'.
Proof. intros (N & _ & _) (n & Hn & Hf). exists n. now rewrite N. Qed.

Lemma sameGate_callerOnSuccess options page w :
  sameGate w (callerOnSuccess options page w).
Proof.
  unfold callerOnSuccess. destruct (opt onSuccess options); [|apply sameGate_refl].
  repeat split. intros i. rewrite bg_emit. simpl. lia.
Qed.

Lemma sameGate_callerOnError options w :
  sameGate w (callerOnError options w).
Proof.
  unfold callerOnError. destruct (opt onError options); [|apply sameGate_refl].
  repeat split. intros i. rewrite bg_emit. simpl. lia.
Qed.

Lemma sameGate_feedPreflight page w : sameGate w (feedPreflight page w).
Proof.
  unfold feedPreflight. destruct (force10_preflight (pg_props page));
    repeat split.
Qed.

Lemma sameGate_backgroundOnSuccess i page now w w' c :
  backgroundOnSuccess config patchPreflight i page now w = Some (w', c) ->
  sameGate w w'.
Proof.
  unfold backgroundOnSuccess. destruct (navs w !! i) as [n|];
    [|intros [= <- _]; apply sameGate_refl].
  set (w1 := if patchPreflight then feedPreflight page w else w).
  assert (H1 : sameGate w w1).
  { unfold w1. destruct patchPreflight;
      [apply sameGate_feedPreflight | apply sameGate_refl]. }
  destruct (negb _).
  - intros [= <- _]. eapply sameGate_trans; [exact H1|].
    eapply sameGate_trans; [|apply sameGate_callerOnSuccess].
    repeat split.
  - destruct (Cache.set _ _ _ _) as [st|]; [|discriminate].
    destruct (invalidateAll _ st) as [st' [|]]; intros [= <- _];
      (eapply sameGate_trans; [exact H1|]).
    + eapply sameGate_trans; [|apply sameGate_callerOnSuccess]. repeat split.
    + repeat split.
Qed.

Lemma sameGate_passthroughOnSuccess p page now w w' :
  passthroughOnSuccess config p page now w = Some w' -> sameGate w w'.
Proof.
  unfold passthroughOnSuccess. destruct (passes w !! p) as [c|];
    [|intros [= <-]; apply sameGate_refl].
  destruct (String.eqb _ _).
  - destruct (Cache.set _ _ _ _) as [st|]; [|discriminate]. intros [= <-].
    eapply sameGate_trans; [apply (sameGate_feedPreflight page)|].
    eapply sameGate_trans; [|apply sameGate_callerOnSuccess]. repeat split.
  - intros [= <-].
    eapply sameGate_trans; [apply (sameGate_feedPreflight page)|].
    apply sameGate_callerOnSuccess.
Qed.

Lemma sameGate_backgroundOnError i w : sameGate w (backgroundOnError i w).
Proof.
  unfold backgroundOnError. destruct (navs w !! i); [|apply sameGate_refl].
  eapply sameGate_trans; [|apply sameGate_callerOnError]. repeat split.
Qed.

Lemma sameGate_passthroughOnError p w : sameGate w (passthroughOnError p w).
Proof.
  unfold passthroughOnError. destruct (passes w !! p); [|apply sameGate_refl].
  apply sameGate_callerOnError.
Qed.

Lemma settled_refl i w : firedAt i w -> settled i w w.
Proof. intros H. split; [assumption | reflexivity]. Qed.

Lemma settled_trans i w1 w2 w3 :
  settled i w1 w2 -> settled i w2 w3 -> settled i w1 w3.
Proof. intros [F1 B1] [F2 B2]. split; [assumption | congruence]. Qed.

Lemma settled_sameGate i w w' : firedAt i w -> sameGate w w' -> settled i w w'.
Proof.
  intros Hf Hs. split; [eapply sameGate_fired; eassumption|].
  destruct Hs as (_ & _ & B). apply B.
Qed.

Lemma settled_fire i j w : firedAt i w -> settled i w (fireBackground j w).
Proof.
  intros Hf. destruct (decide (j = i)) as [->|Hne].
  - rewrite fire_fired by assumption. now apply settled_refl.
  - split; [now apply fire_keeps_fired|]. apply fire_bg_other. congruence.
Qed.

Lemma settled_fire_all i (l : list nat) w :
  firedAt i w ->
  settled i w (fold_left (fun w' j => fireBackground j w') l w).
Proof.
  revert w. induction l as [|j l IH]; intros w Hf; simpl.
  - now apply settled_refl.
  - eapply settled_trans; [apply (settled_fire i j w Hf)|].
    apply IH. now apply fire_keeps_fired.
Qed.

Lemma settled_callCancel i w : firedAt i w -> settled i w (callCancelPending w).
Proof.
  intros Hf. split; [now apply callCancel_keeps_fired|].
  unfold backgroundRequests. now rewrite callCancel_trace.
Qed.

Lemma bg_optimisticNavigate i m options now w :
  backgroundRequests i (optimisticNavigate config m options now w)
  = backgroundRequests i w.
Proof.
  unfold optimisticNavigate. destruct (isTrue (opt replace options));
    rewrite bg_emit; simpl; unfold backgroundRequests; simpl; lia.
Qed.

Lemma navs_optimisticNavigate m options now w :
  navs (optimisticNavigate config m options now w) = navs w.
Proof.
  unfold optimisticNavigate. now destruct (isTrue (opt replace options)).
Qed.

Lemma cancelPending_optimisticNavigate m options now w :
  cancelPendingBackground (optimisticNavigate config m options now w)
  = cancelPendingBackground w.
Proof.
  unfold optimisticNavigate. now destruct (isTrue (opt replace options)).
Qed.

Lemma untouched_not_background i (options : option (VisitOptions nat)) href :
  isBackgroundRequest i (OriginalVisit href (option_map untouched options))
  = false.
Proof.
  destruct options as [o|]; simpl; [|reflexivity].
  apply bool_decide_eq_false_2. destruct (onSuccess o); simpl; congruence.
Qed.

Lemma settled_afterCancel i win href options now w :
  firedAt i w -> settled i w (afterCancel win href options now w).
Proof.
  intros Hf. unfold visitAfterCancel.
  assert (Hskip : settled i w
            (emit (OriginalVisit href (option_map untouched options)) w)).
  { split; [exact Hf|]. rewrite bg_emit, untouched_not_background. lia. }
  destruct (decision win href options now w); try exact Hskip.
  - split; [exact Hf|]. rewrite bg_emit. simpl.
    unfold backgroundRequests. simpl. lia.
  - destruct Hf as (n & Hn & Hfired). split.
    + exists n. rewrite navs_optimisticNavigate. simpl.
      rewrite lookup_app_l by (eapply lookup_lt_Some, Hn). auto.
    + rewrite bg_optimisticNavigate. reflexivity.
Qed.

Lemma settled_visit i win href options now w :
  firedAt i w -> settled i w (visit win href options now w).
Proof.
  intros Hf. unfold patchedVisit.
  eapply settled_trans; [apply (settled_callCancel i w Hf)|].
  apply settled_afterCancel. now apply callCancel_keeps_fired.
Qed.

Lemma sameGate_clearTimeout i w : sameGate w (clearTimeout i w).
Proof. repeat split. Qed.

Lemma settled_step i ev w w' :
  firedAt i w -> step1 ev w = Some w' -> settled i w w'.
Proof.
  intros Hf. destruct ev as [win href options now| |j|j|cb page now|cb| |];
    simpl.
  - intros [= <-]. now apply settled_visit.
  - intros [= <-]. now apply settled_fire_all.
  - destruct (existsb _ _); intros [= <-]; [|now apply settled_refl].
    eapply settled_trans;
      [apply (settled_sameGate i w _ Hf (sameGate_clearTimeout j w))|].
    apply settled_fire. eapply sameGate_fired;
      [apply sameGate_clearTimeout | exact Hf].
  - intros [= <-]. now apply settled_fire.
  - destruct cb as [c|k|k|k|k]; try (intros [= <-]; now apply settled_refl).
    + destruct (backgroundOnSuccess _ _ _ _ _ _) as [[w1 c]|] eqn:E;
        [|discriminate].
      intros [= <-]. apply settled_sameGate; [assumption|].
      eapply sameGate_backgroundOnSuccess, E.
    + intros E. apply settled_sameGate; [assumption|].
      eapply sameGate_passthroughOnSuccess, E.
  - destruct cb as [c|k|k|k|k]; intros [= <-];
      try (now apply settled_refl); apply settled_sameGate; try assumption.
    + apply sameGate_backgroundOnError.
    + apply sameGate_passthroughOnError.
  - intros [= <-]. unfold removePatch.
    eapply settled_trans;
      [apply (settled_sameGate i w (setRouterVisitPatched false w) Hf);
       repeat split|].
    apply settled_callCancel. destruct Hf as (n & Hn & Hfired). exists n. auto.
  - intros [= <-]. apply settled_sameGate; [assumption | repeat split].
Qed.

(** Once fired or cancelled, never again: over any run of events. *)
Lemma settled_run i evs w w' :
  firedAt i w -> runAll evs w = Some w' -> settled i w w'.
Proof.
  revert w. induction evs as [|ev evs IH]; intros w Hf; simpl.
  - intros [= <-]. now apply settled_refl.
  - destruct (step1 ev w) as [w1|] eqn:E; [|discriminate]. intros Hrun.
    pose proof (settled_step i ev w w1 Hf E) as Hs.
    eapply settled_trans; [exact Hs|]. apply IH; [apply Hs | exact Hrun].
Qed.

Lemma tracked_afterCancel win href options now w :
  noPending w -> trackedPending (afterCancel win href options now w).
Proof.
  intros Hnp. unfold visitAfterCancel.
  assert (Hsame : forall w', navs w' = navs w -> trackedPending w').
  { intros w' N j (n & Hn & Hp). exfalso. apply (Hnp j). exists n.
    now rewrite <- N. }
  destruct (decision win href options now w); try (now apply Hsame).
  intros j (n & Hn & Hp).
  rewrite cancelPending_optimisticNavigate.
  rewrite navs_optimisticNavigate in Hn. simpl in *.
  destruct (decide (j < length (navs w))%nat) as [Hlt|Hge].
  - rewrite lookup_app_l in Hn by assumption.
    exfalso. apply (Hnp j). exists n. auto.
  - apply lookup_lt_Some in Hn as Hlen. rewrite length_app in Hlen.
    simpl in Hlen. f_equal. lia.
Qed.

Lemma tracked_visit win href options now w :
  trackedPending w -> trackedPending (visit win href options now w).
Proof.
  intros Htr. unfold patchedVisit.
  now apply tracked_afterCancel, callCancel_noPending.
Qed.

Lemma tracked_fire_all (l : list nat) w :
  trackedPending w ->
  trackedPending (fold_left (fun w' j => fireBackground j w') l w).
Proof.
  revert w. induction l as [|j l IH]; intros w Htr; simpl; [assumption|].
  now apply IH, fire_tracked.
Qed.

Lemma tracked_noPending w : noPending w -> trackedPending w.
Proof. intros Hnp j Hp. exfalso. now apply (Hnp j). Qed.

Lemma tracked_step ev w w' :
  trackedPending w -> step1 ev w = Some w' -> trackedPending w'.
Proof.
  intros Htr. destruct ev as [win href options now| |j|j|cb page now|cb| |];
    simpl.
  - intros [= <-]. now apply tracked_visit.
  - intros [= <-]. now apply tracked_fire_all.
  - destruct (existsb _ _); intros [= <-]; [|assumption].
    apply fire_tracked.
    eapply sameGate_tracked; [apply sameGate_clearTimeout | assumption].
  - intros [= <-]. now apply fire_tracked.
  - destruct cb as [c|k|k|k|k]; try (intros [= <-]; assumption).
    + destruct (backgroundOnSuccess _ _ _ _ _ _) as [[w1 c]|] eqn:E;
        [|discriminate].
      intros [= <-]. eapply sameGate_tracked; [|exact Htr].
      eapply sameGate_backgroundOnSuccess, E.
    + intros E. eapply sameGate_tracked; [|exact Htr].
      eapply sameGate_passthroughOnSuccess, E.
  - destruct cb as [c|k|k|k|k]; intros [= <-]; try assumption;
      (eapply sameGate_tracked; [|exact Htr]).
    + apply sameGate_backgroundOnError.
    + apply sameGate_passthroughOnError.
  - intros [= <-]. unfold removePatch. apply tracked_noPending.
    apply callCancel_noPending.
    eapply sameGate_tracked; [|exact Htr]. repeat split.
  - intros [= <-]. eapply sameGate_tracked; [|exact Htr]. repeat split.
Qed.

Lemma tracked_run evs w w' :
  trackedPending w -> runAll evs w = Some w' -> trackedPending w'.
Proof.
  revert w. induction evs as [|ev evs IH]; intros w Htr; simpl.
  - now intros [= <-].
  - destruct (step1 ev w) as [w1|] eqn:E; [|discriminate].
    apply IH. eapply tracked_step; eassumption.
Qed.

Lemma tracked_initial : trackedPending initialWorld.
Proof. intros j (n & Hn & _). discriminate Hn. Qed.

Lemma filter_none {A} (P : A -> bool) (l : list A) :
  (forall j x, l !! j = Some x -> P x = true -> False) ->
  List.filter P l = [].
Proof.
  induction l as [|x l IH]; intros H; simpl; [reflexivity|].
  destruct (P x) eqn:HP.
  - exfalso. apply (H 0%nat x); [reflexivity | assumption].
  - apply IH. intros j y Hy. apply (H (S j) y). exact Hy.
Qed.

Lemma filter_at_most_one {A} (P : A -> bool) (l : list A) (ok : option nat) :
  (forall j x, l !! j = Some x -> P x = true -> ok = Some j) ->
  (length (List.filter P l) <= 1)%nat.
Proof.
  revert ok. induction l as [|x l IH]; intros ok H; simpl; [lia|].
  destruct (P x) eqn:HP.
  - pose proof (H 0%nat x eq_refl HP) as H0.
    rewrite filter_none; [simpl; lia|].
    intros j y Hy Py. pose proof (H (S j) y Hy Py). congruence.
  - apply (IH (match ok with Some (S k) => Some k | _ => None end)).
    intros j y Hy Py. now rewrite (H (S j) y Hy Py).
Qed.

(** At most one background request is pending. *)
Lemma tracked_at_most_one w :
  trackedPending w -> (pendingBackgrounds w <= 1)%nat.
Proof.
  intros Htr. unfold pendingBackgrounds.
  apply (filter_at_most_one _ _ (cancelPendingBackground w)).
  intros j n Hn Hp. apply Htr. exists n. split; [assumption|].
  now destruct (backgroundFired n).
Qed.

Lemma advance_refl i w : advance i w w.
Proof. split; [auto | now left]. Qed.

Lemma advance_trans i w1 w2 w3 :
  advance i w1 w2 -> advance i w2 w3 -> advance i w1 w3.
Proof.
  intros [M1 [S1|(N1 & F1 & C1)]] [M2 [S2|(N2 & F2 & C2)]];
    (split; [auto|]).
  - left. congruence.
  - right. split; [|split]; [tauto | assumption | congruence].
  - right. split; [|split]; [assumption | auto | congruence].
  - contradiction.
Qed.

Lemma advance_same i w w' :
  (firedAt i w -> firedAt i w') ->
  backgroundRequests i w' = backgroundRequests i w ->
  advance i w w'.
Proof. intros M C. split; [assumption | now left]. Qed.

Lemma advance_sameGate i w w' : sameGate w w' -> advance i w w'.
Proof.
  intros Hs. apply advance_same.
  - now apply sameGate_fired.
  - destruct Hs as (_ & _ & B). apply B.
Qed.

Lemma advance_fire i j w : advance i w (fireBackground j w).
Proof.
  destruct (decide (i = j)) as [->|Hne].
  - destruct (navs w !! j) as [n|] eqn:Hn;
      [|rewrite fire_missing by assumption; apply advance_refl].
    destruct (fired_or_pending n) as [Hf|Hp].
    + rewrite fire_fired by (exists n; auto). apply advance_refl.
    + split; [apply fire_keeps_fired|]. right. split; [|split].
      * intros Hf. eapply fired_not_pending; [exact Hf | exists n; auto].
      * apply fire_makes_fired. eauto.
      * apply fire_bg_pending. exists n. auto.
  - apply advance_same; [apply fire_keeps_fired | now apply fire_bg_other].
Qed.

Lemma advance_fire_all i (l : list nat) w :
  advance i w (fold_left (fun w' j => fireBackground j w') l w).
Proof.
  revert w. induction l as [|j l IH]; intros w; simpl; [apply advance_refl|].
  eapply advance_trans; [apply (advance_fire i j w) | apply IH].
Qed.

Lemma advance_callCancel i w : advance i w (callCancelPending w).
Proof.
  apply advance_same; [apply callCancel_keeps_fired|].
  unfold backgroundRequests. now rewrite callCancel_trace.
Qed.

Lemma bg_afterCancel i win href options now w :
  backgroundRequests i (afterCancel win href options now w)
  = backgroundRequests i w.
Proof.
  unfold visitAfterCancel.
  assert (Hskip : backgroundRequests i
            (emit (OriginalVisit href (option_map untouched options)) w)
            = backgroundRequests i w).
  { rewrite bg_emit, untouched_not_background. lia. }
  destruct (decision win href options now w); try exact Hskip.
  - rewrite bg_emit. simpl. unfold backgroundRequests. simpl. lia.
  - now rewrite bg_optimisticNavigate.
Qed.

Lemma advance_afterCancel i win href options now w :
  advance i w (afterCancel win href options now w).
Proof.
  apply advance_same; [|apply bg_afterCancel].
  intros Hf. now apply settled_afterCancel.
Qed.

Lemma advance_step i ev w w' : step1 ev w = Some w' -> advance i w w'.
Proof.
  destruct ev as [win href options now| |j|j|cb page now|cb| |]; simpl.
  - intros [= <-]. unfold patchedVisit.
    eapply advance_trans; [apply advance_callCancel | apply advance_afterCancel].
  - intros [= <-]. apply advance_fire_all.
  - destruct (existsb _ _); intros [= <-]; [|apply advance_refl].
    eapply advance_trans;
      [apply advance_sameGate, (sameGate_clearTimeout j) | apply advance_fire].
  - intros [= <-]. apply advance_fire.
  - destruct cb as [c|k|k|k|k]; try (intros [= <-]; apply advance_refl).
    + destruct (backgroundOnSuccess _ _ _ _ _ _) as [[w1 c]|] eqn:E;
        [|discriminate].
      intros [= <-]. eapply advance_sameGate, sameGate_backgroundOnSuccess, E.
    + intros E. eapply advance_sameGate, sameGate_passthroughOnSuccess, E.
  - destruct cb as [c|k|k|k|k]; intros [= <-];
      try apply advance_refl; apply advance_sameGate.
    + apply sameGate_backgroundOnError.
    + apply sameGate_passthroughOnError.
  - intros [= <-]. unfold removePatch.
    eapply advance_trans; [|apply advance_callCancel].
    apply advance_sameGate. repeat split.
  - intros [= <-]. apply advance_sameGate. repeat split.
Qed.

Lemma advance_once i w w' :
  advance i w w' -> firedAtMostOnce w ->
  (backgroundRequests i w' <= 1)%nat /\
  (~ firedAt i w' -> backgroundRequests i w' = 0%nat).
Proof.
  intros [M [S|(N & F & C)]] Hinv; destruct (Hinv i) as [Hle Hzero].
  - rewrite S. split; [assumption|]. intros Hn. apply Hzero. tauto.
  - rewrite C, (Hzero N). split; [lia | contradiction].
Qed.

Lemma once_step ev w w' :
  firedAtMostOnce w -> step1 ev w = Some w' -> firedAtMostOnce w'.
Proof.
  intros Hinv Hstep i. eapply advance_once; [|exact Hinv].
  eapply advance_step, Hstep.
Qed.

Lemma once_run evs w w' :
  firedAtMostOnce w -> runAll evs w = Some w' -> firedAtMostOnce w'.
Proof.
  revert w. induction evs as [|ev evs IH]; intros w Hinv; simpl.
  - now intros [= <-].
  - destruct (step1 ev w) as [w1|] eqn:E; [|discriminate].
    apply IH. eapply once_step; eassumption.
Qed.

Lemma once_initial : firedAtMostOnce initialWorld.
Proof. intros i. split; [vm_compute; lia | reflexivity]. Qed.

Lemma markFired_trace i w : trace (markFired i w) = trace w.
Proof. unfold markFired. now destruct (navs w !! i). Qed.

Lemma fire_trace_pending i w n :
  navs w !! i = Some n -> backgroundFired n = false ->
  trace (fireBackground i w) =
    (trace w ++ [OriginalVisit (nc_href n)
                   (Some (backgroundOptions i (nc_options n)))])%list.
Proof.
  intros Hn Hp. rewrite (fire_pending i w n Hn Hp). simpl.
  now rewrite markFired_trace.
Qed.

Lemma fire_only_noPending i w :
  onlyPending i w -> noPending (fireBackground i w).
Proof.
  intros Honly j (n & Hn & Hp). rewrite fire_navs in Hn.
  destruct (decide (j = i)) as [->|Hne].
  - destruct (navs w !! i); simpl in Hn; [|discriminate].
    injection Hn as <-. discriminate Hp.
  - apply Hne, Honly. exists n. auto.
Qed.

Lemma fire_all_idle (l : list nat) w :
  noPending w -> fold_left (fun w' j => fireBackground j w') l w = w.
Proof.
  intros Hnp. induction l as [|j l IH]; simpl; [reflexivity|].
  now rewrite fire_not_pending by apply Hnp.
Qed.

Lemma fire_all_only i (l : list nat) w n :
  onlyPending i w -> navs w !! i = Some n -> backgroundFired n = false ->
  In i l ->
  noPending (fold_left (fun w' j => fireBackground j w') l w) /\
  trace (fold_left (fun w' j => fireBackground j w') l w) =
    (trace w ++ [OriginalVisit (nc_href n)
                   (Some (backgroundOptions i (nc_options n)))])%list.
Proof.
  intros Honly Hn Hp. induction l as [|j l IH]; intros Hin; [destruct Hin|].
  simpl. destruct (decide (j = i)) as [->|Hne].
  - rewrite fire_all_idle by now apply fire_only_noPending.
    split; [now apply fire_only_noPending | now apply fire_trace_pending].
  - rewrite (fire_not_pending j w).
    + apply IH. destruct Hin; [congruence | assumption].
    + intros Hpj. apply Hne, Honly, Hpj.
Qed.

Lemma armed_timer i delay (l : list (nat * Z)) :
  In (i, delay) l -> existsb (fun t => Nat.eqb (fst t) i) l = true.
Proof.
  intros Hin. apply existsb_exists. exists (i, delay). split; [assumption|].
  apply Nat.eqb_refl.
Qed.

(** The first trigger issues the request. *)
Lemma trigger_pending i ev w n delay :
  onlyPending i w -> navs w !! i = Some n -> backgroundFired n = false ->
  In i (listeners w) -> In (i, delay) (timers w) -> isTrigger i ev = true ->
  exists w', step1 ev w = Some w' /\ noPending w' /\
    trace w' = (trace w ++ [OriginalVisit (nc_href n)
                              (Some (backgroundOptions i (nc_options n)))])%list.
Proof.
  intros Honly Hn Hp Hl Ht Hev.
  destruct ev as [win href options now| |j|j|cb page now|cb| |];
    try discriminate Hev; simpl in Hev |- *.
  - eexists. split; [reflexivity|]. now apply (fire_all_only i _ w n).
  - apply Nat.eqb_eq in Hev as ->. rewrite (armed_timer i delay) by assumption.
    eexists. split; [reflexivity|]. split.
    + apply fire_only_noPending. intros j Hpj. apply Honly.
      destruct Hpj as (n' & Hn' & Hp'). exists n'. auto.
    + now rewrite (fire_trace_pending i (clearTimeout i w) n).
  - apply Nat.eqb_eq in Hev as ->. eexists. split; [reflexivity|]. split.
    + now apply fire_only_noPending.
    + now apply fire_trace_pending.
Qed.

(** Any later trigger is a no-op. *)
Lemma trigger_idle i ev w :
  noPending w -> isTrigger i ev = true ->
  exists w', step1 ev w = Some w' /\ noPending w' /\ trace w' = trace w.
Proof.
  intros Hnp Hev.
  destruct ev as [win href options now| |j|j|cb page now|cb| |];
    try discriminate Hev; simpl.
  - exists w. rewrite fire_all_idle by assumption. auto.
  - destruct (existsb _ _).
    + eexists. split; [reflexivity|].
      rewrite fire_not_pending
        by (intros (n & Hn & Hp); apply (Hnp j); exists n; auto).
      split; [|reflexivity].
      intros k (n & Hn & Hp). apply (Hnp k). exists n. auto.
    + exists w. auto.
  - exists w. rewrite fire_not_pending by apply Hnp. auto.
Qed.

Lemma triggers_idle i (triggers : list Event) w :
  noPending w -> forallb (isTrigger i) triggers = true ->
  exists w', runAll triggers w = Some w' /\ trace w' = trace w.
Proof.
  revert w. induction triggers as [|ev evs IH]; intros w Hnp Hall; simpl.
  - eauto.
  - simpl in Hall. apply andb_prop in Hall as [Hev Hall].
    destruct (trigger_idle i ev w Hnp Hev) as (w1 & -> & Hnp1 & Ht1).
    destruct (IH w1 Hnp1 Hall) as (w2 & Hrun & Ht2).
    exists w2. split; [assumption | congruence].
Qed.

(** What the optimistic path of [patchedVisit] leaves behind. *)
Lemma afterCancel_optimistic win href options now w m :
  decision win href options now w = Optimistic m ->
  let i := length (navs w) in
  let row := {| nc_href := href; nc_options := options; nc_match := m;
                backgroundFired := false |} in
  let w1 := afterCancel win href options now w in
  navs w1 = (navs w ++ [row])%list /\
  cancelPendingBackground w1 = Some i /\
  In i (listeners w1) /\ In (i, fallbackDelay) (timers w1) /\
  isLoading w1 = true /\
  exists page,
    trace w1 = (trace w ++ [if isTrue (opt replace options)
                            then RouterReplace page
                            else RouterPush page])%list.
Proof.
  intros Hd i row w1. unfold w1, visitAfterCancel. rewrite Hd.
  unfold optimisticNavigate. cbv zeta.
  destruct (isTrue (opt replace options)); simpl;
    (split; [reflexivity|]; split; [reflexivity|];
     split; [apply in_or_app; right; now left|];
     split; [apply in_or_app; right; now left|];
     split; [reflexivity|]; eexists; reflexivity).
Qed.

Lemma reachable_tracked evs w :
  runAll evs initialWorld = Some w -> trackedPending w.
Proof. apply tracked_run, tracked_initial. Qed.

Lemma reachable_once evs w :
  runAll evs initialWorld = Some w -> firedAtMostOnce w.
Proof. apply once_run, once_initial. Qed.

(** C2. On the optimistic path the intercepted call itself only renders:
    it adds the optimistic [push]/[replace] to the trace and no call of
    the original [visit], and leaves a ['navigate'] listener and a
    100 ms timer armed. After it, whatever non-empty sequence of the
    two triggers follows (the ['navigate'] event, the fallback timer, in
    any order and number), the trace has grown by exactly one call of
    the original [visit], the background request with [async: true],
    [replace: true], [showProgress: false]: the first trigger issues it
    and every later one is a no-op. Whatever events follow at all, the
    request is never issued twice. *)
Theorem background_request_fires_once
        (evs0 : list Event) (w : World) (win : option Window) (href : Href)
        (options : option (VisitOptions nat)) (now : Z) (m : MatchResult) :
  runAll evs0 initialWorld = Some w ->
  decision win href options now (callCancelPending w) = Optimistic m ->
  let i := length (navs w) in
  let w1 := visit win href options now w in
  let request := OriginalVisit href (Some (backgroundOptions i options)) in
  (exists page,
     trace w1 = (trace w ++ [if isTrue (opt replace options)
                             then RouterReplace page
                             else RouterPush page])%list) /\
  originalVisits w1 = originalVisits w /\
  In i (listeners w1) /\ In (i, 100) (timers w1) /\
  (forall triggers,
     triggers <> [] -> forallb (isTrigger i) triggers = true ->
     exists w2, runAll triggers w1 = Some w2 /\
                trace w2 = (trace w1 ++ [request])%list) /\
  (async (backgroundOptions i options) = Some true /\
   replace (backgroundOptions i options) = Some true /\
   showProgress (backgroundOptions i options) = Some false) /\
  (forall evs w', runAll evs w1 = Some w' ->
                  (backgroundRequests i w' <= 1)%nat).
Proof.
  intros Hreach Hd i w1 request.
  pose proof (reachable_tracked evs0 w Hreach) as Htr.
  pose proof (reachable_once evs0 w Hreach) as Honce.
  destruct (afterCancel_optimistic win href options now
              (callCancelPending w) m Hd)
    as (Hnavs & Hcp & Hl & Ht & _ & page & Htrace).
  fold (visit win href options now w) in Hnavs, Hcp, Hl, Ht, Htrace.
  rewrite callCancel_length in Hcp, Hl, Ht. rewrite callCancel_trace in Htrace.
  fold w1 in Hnavs, Hcp, Hl, Ht, Htrace. fold i in Hcp, Hl, Ht.
  assert (Hrow : navs w1 !! i =
                 Some {| nc_href := href; nc_options := options;
                         nc_match := m; backgroundFired := false |}).
  { rewrite Hnavs. unfold i. rewrite <- (callCancel_length w).
    apply list_lookup_middle. reflexivity. }
  assert (Htr1 : trackedPending w1) by now apply tracked_visit.
  assert (Honly : onlyPending i w1).
  { intros j Hpj. apply Htr1 in Hpj. congruence. }
  split; [exists page; exact Htrace|].
  split; [|split; [exact Hl|split; [exact Ht|split; [|split]]]].
  - unfold originalVisits. rewrite Htrace, List.filter_app, length_app.
    destruct (isTrue (opt replace options)); simpl; lia.
  - intros [|ev rest] Hne Hall; [congruence|].
    simpl in Hall. apply andb_prop in Hall as [Hev Hall].
    destruct (trigger_pending i ev w1 _ _ Honly Hrow eq_refl Hl Ht Hev)
      as (w2 & Hstep & Hnp & Ht2).
    destruct (triggers_idle i rest w2 Hnp Hall) as (w3 & Hrun & Ht3).
    exists w3. simpl. rewrite Hstep. split; [assumption|].
    rewrite Ht3, Ht2. reflexivity.
  - repeat split.
  - intros evs w' Hrun.
    assert (Honce1 : firedAtMostOnce w1).
    { eapply (once_step (EvVisit win href options now)); [exact Honce|].
      reflexivity. }
    apply (once_run evs w1 w' Honce1 Hrun).
Qed.

(** C3. In every reachable state with a pending background request (of
    navigation [i]), any call of the patched [visit], whatever its
    arguments, starts by cancelling it before any skip check: the
    cancellation issues no request, closes the latch, removes the
    listener and the timer, clears the loading flag (which stays cleared
    unless the new navigation is itself optimistic) and leaves nothing
    pending; cancelling again changes nothing; after the call, whatever
    events follow (the fallback timer included), no background request
    is ever issued for navigation [i]; and in every reachable state at
    most one background request is pending. *)
Theorem new_navigation_cancels_pending
        (evs0 : list Event) (w : World) (i : nat) (win : option Window)
        (href : Href) (options : option (VisitOptions nat)) (now : Z) :
  runAll evs0 initialWorld = Some w ->
  pendingAt i w ->
  let wc := callCancelPending w in
  visit win href options now w = afterCancel win href options now wc /\
  trace wc = trace w /\
  firedAt i wc /\ noPending wc /\
  isLoading wc = false /\
  cancelPendingBackground wc = None /\
  ~ In i (listeners wc) /\ (forall delay, ~ In (i, delay) (timers wc)) /\
  callCancelPending wc = wc /\
  cancelClosure i (cancelClosure i w) = cancelClosure i w /\
  ((forall m, decision win href options now wc <> Optimistic m) ->
   isLoading (visit win href options now w) = false) /\
  (forall evs w',
     runAll evs (visit win href options now w) = Some w' ->
     firedAt i w' /\ backgroundRequests i w' = 0%nat) /\
  (forall evs w',
     runAll evs initialWorld = Some w' -> (pendingBackgrounds w' <= 1)%nat).
Proof.
  intros Hreach Hp wc.
  pose proof (reachable_tracked evs0 w Hreach) as Htr.
  pose proof (reachable_once evs0 w Hreach) as Honce.
  assert (Hc : cancelPendingBackground w = Some i) by now apply Htr.
  assert (Hwc : wc = cancelClosure i w)
    by (unfold wc, callCancelPending; now rewrite Hc).
  destruct (cancel_pending i w Hp) as (Hload & Hnone & Hfired & Hl & Ht).
  rewrite <- Hwc in Hload, Hnone, Hfired, Hl, Ht.
  assert (Hzero : backgroundRequests i w = 0%nat).
  { apply Honce. intros Hf. eapply fired_not_pending; eassumption. }
  split; [reflexivity|]. split; [apply callCancel_trace|].
  split; [assumption|]. split; [now apply callCancel_noPending|].
  split; [assumption|]. split; [assumption|]. split; [assumption|].
  split; [assumption|]. split; [apply callCancel_idempotent|].
  split; [apply cancel_idempotent|]. split; [|split].
  - intros Hnot. unfold patchedVisit. fold wc. unfold visitAfterCancel.
    destruct (decision win href options now wc) eqn:Hd;
      try exact Hload.
    exfalso. eapply Hnot. reflexivity.
  - intros evs w' Hrun.
    assert (Hs : settled i wc (visit win href options now w)).
    { unfold patchedVisit. fold wc. now apply settled_afterCancel. }
    destruct Hs as [Hf1 Hb1].
    destruct (settled_run i evs _ w' Hf1 Hrun) as [Hf2 Hb2].
    split; [assumption|]. rewrite Hb2, Hb1.
    unfold backgroundRequests in *. unfold wc. now rewrite callCancel_trace.
  - intros evs w' Hrun. apply tracked_at_most_one.
    eapply reachable_tracked, Hrun.
Qed.

End InterceptorFacts.

Lemma drop_keys_absent k n (st : Cache.Store) :
  k ∉ Cache.storeKeys st -> k ∉ Cache.storeKeys (drop n st).
Proof.
  revert st. induction n as [|n IH]; intros st Hk; [assumption|].
  destruct st as [|[k' v] st]; [assumption|]. simpl. apply IH.
  rewrite storeKeys_cons in Hk. now apply not_elem_of_cons in Hk as [_ ?].
Qed.

(** With room for at least one entry, [set] leaves the entry it was
    given under its key. *)
Lemma set_then_get (config : Force10Config) url page (st : Cache.Store) :
  1 <= cache_maxEntries config ->
  NoDup (Cache.storeKeys st) ->
  exists st', Cache.set config url page st = Some st' /\
              Cache.storeGet url st' = Some page.
Proof.
  intros Hmax Hnd. eexists. split.
  - apply set_spec; [unfold Cache.maxEntries; lia | assumption].
  - rewrite length_app. simpl.
    rewrite drop_app_le by (unfold Cache.maxEntries; lia).
    apply storeGet_app_last, drop_keys_absent.
    rewrite storeDelete_keys. tauto.
Qed.

Lemma feedPreflight_store page w : store (feedPreflight page w) = store w.
Proof.
  unfold feedPreflight. now destruct (force10_preflight (pg_props page)).
Qed.

Lemma callerOnSuccess_store options page w :
  store (callerOnSuccess options page w) = store w /\
  isLoading (callerOnSuccess options page w) = isLoading w.
Proof. unfold callerOnSuccess. now destruct (opt onSuccess options). Qed.

(** C4 (amended). In a cache with room for at least one entry, when the
    background request of a navigation succeeds with the predicted view
    id, the response is written into the cache under the predicted URL, the URL the matcher was given ([match.url]);
    the page's own URL from the server response, which may differ from
    it in the query string, is recorded in the stored entry's [url]
    field only. The server's invalidation patterns are then applied to
    that store, and with none declared the entry is what the cache holds
    under the predicted URL and the loading flag is cleared. When the
    view id differs, the predicted URL's entry is removed, no entry is
    written, and the loading flag is cleared. *)
Theorem background_success_cache_key
        (config : Force10Config) (patchPreflight : bool) (i : nat)
        (n : NavClosure) (page : Page) (now : Z) (w : World) :
  navs w !! i = Some n ->
  NoDup (Cache.storeKeys (store w)) ->
  1 <= cache_maxEntries config ->
  let m := nc_match n in
  (pg_component page = component (mr_route m) ->
   exists st w' c,
     Cache.set config (mr_url m) (cachedPageOf page now) (store w) = Some st /\
     Cache.storeGet (mr_url m) st = Some (cachedPageOf page now) /\
     cp_url (cachedPageOf page now) = pg_url page /\
     backgroundOnSuccess config patchPreflight i page now w = Some (w', c) /\
     (store w', c) =
       invalidateAll (default [] (force10_server_invalidate (pg_props page)))
                     st /\
     (force10_server_invalidate (pg_props page) = None ->
      store w' = st /\ c = Normal /\ isLoading w' = false)) /\
  (pg_component page <> component (mr_route m) ->
   exists w',
     backgroundOnSuccess config patchPreflight i page now w
       = Some (w', Normal) /\
     store w' = Cache.remove (mr_url m) (store w) /\
     Cache.storeGet (mr_url m) (store w') = None /\
     isLoading w' = false).
Proof.
  intros Hn Hnd Hmax m.
  assert (Hst : store (if patchPreflight then feedPreflight page w else w)
                = store w)
    by (destruct patchPreflight; [apply feedPreflight_store | reflexivity]).
  split.
  - intros Hc.
    destruct (set_then_get config (mr_url m) (cachedPageOf page now)
                (store w) Hmax Hnd) as (st & Hset & Hget).
    unfold backgroundOnSuccess. rewrite Hn. fold m. rewrite Hc.
    rewrite String.eqb_refl. simpl negb. cbv iota. rewrite Hst, Hset.
    destruct (invalidateAll _ st) as [st' c] eqn:Hinv.
    exists st.
    destruct c.
    + eexists _, Normal. split; [reflexivity|]. split; [assumption|].
      split; [reflexivity|]. split; [reflexivity|].
      split.
      * rewrite (proj1 (callerOnSuccess_store _ _ _)). simpl.
        now rewrite Hinv.
      * intros Hnone. rewrite Hnone in Hinv. simpl in Hinv.
        injection Hinv as <-.
        split; [apply callerOnSuccess_store|]. split; [reflexivity|].
        now rewrite (proj2 (callerOnSuccess_store _ _ _)).
    + eexists _, Thrown. split; [reflexivity|]. split; [assumption|].
      split; [reflexivity|]. split; [reflexivity|].
      split; [simpl; now rewrite Hinv|].
      intros Hnone. rewrite Hnone in Hinv. simpl in Hinv. discriminate.
  - intros Hc. unfold backgroundOnSuccess. rewrite Hn. fold m.
    apply String.eqb_neq in Hc. rewrite Hc. simpl negb. cbv iota.
    eexists. split; [reflexivity|].
    rewrite (proj1 (callerOnSuccess_store _ _ _)),
            (proj2 (callerOnSuccess_store _ _ _)).
    simpl. rewrite Hst. split; [reflexivity|]. split; [|reflexivity].
    apply storeGet_None_key. unfold Cache.remove. rewrite storeDelete_keys.
    tauto.
Qed.

Lemma background_success_cache_key_witness :
  navs usersArmed !! 0%nat
    = Some {| nc_href := HrefString "/users"; nc_options := None;
              nc_match := {| mr_route := usersIndex; mr_url := "/users" |};
              backgroundFired := false |} /\
  NoDup (Cache.storeKeys (store usersArmed)) /\
  1 <= cache_maxEntries defaultConfig /\
  exists w',
    backgroundOnSuccess defaultConfig false 0 usersPageOne 5 usersArmed
      = Some (w', Normal) /\
    Cache.storeGet "/users" (store w') = Some (cachedPageOf usersPageOne 5).
Proof.
  assert (Hn : navs usersArmed !! 0%nat
               = Some {| nc_href := HrefString "/users"; nc_options := None;
                         nc_match := {| mr_route := usersIndex;
                                        mr_url := "/users" |};
                         backgroundFired := false |})
    by (vm_compute; reflexivity).
  assert (Hnd : NoDup (Cache.storeKeys (store usersArmed)))
    by (vm_compute; constructor).
  assert (Hmax : 1 <= cache_maxEntries defaultConfig) by (vm_compute; discriminate).
  split; [exact Hn|]. split; [exact Hnd|]. split; [exact Hmax|].
  destruct (background_success_cache_key defaultConfig false 0 _ usersPageOne
              5 usersArmed Hn Hnd Hmax) as [Hsame _].
  destruct (Hsame ltac:(vm_compute; reflexivity))
    as (st & w' & c & _ & Hget & _ & Hrun & _ & Hnone).
  destruct (Hnone ltac:(vm_compute; reflexivity)) as (Hst & -> & _).
  exists w'. split; [exact Hrun|]. now rewrite Hst.
Defined.

(** C4 as stated fails when the two URLs differ: after an optimistic
    navigation to [/users] whose response reports the page URL
    [/users?page=1] with the predicted view id, the cache holds the
    response under [/users], the predicted URL, and nothing under
    [/users?page=1]. *)
Lemma background_success_key_counterexample :
  pg_component usersPageOne = component usersIndex /\
  exists w',
    run stubHost defaultConfig usersMatcher false false
        [EvVisit (Some dashboardWindow) (HrefString "/users") None 0;
         EvNavigate;
         EvSuccess (BackgroundOnSuccess 0) usersPageOne 5]
        initialWorld = Some w' /\
    Cache.storeKeys (store w') = ["/users"] /\
    Cache.getOrStale defaultConfig 5 (pg_url usersPageOne) (store w') = None /\
    Cache.getOrStale defaultConfig 5 "/users" (store w')
      = Some (cachedPageOf usersPageOne 5, false).
Proof.
  split; [reflexivity|]. eexists.
  split; [vm_compute; reflexivity|].
  split; [vm_compute; reflexivity|].
  split; vm_compute; reflexivity.
Qed.

Lemma background_request_fires_once_witness :
  run stubHost defaultConfig usersMatcher false false [] initialWorld
    = Some initialWorld /\
  classify stubHost defaultConfig usersMatcher false false
           (Some dashboardWindow) (HrefString "/users") None 0
           (callCancelPending initialWorld)
    = Optimistic {| mr_route := usersIndex; mr_url := "/users" |} /\
  originalVisits usersArmed = 0%nat /\
  exists w2,
    run stubHost defaultConfig usersMatcher false false
        [EvNavigate; EvTimeout 0] usersArmed = Some w2 /\
    originalVisits w2 = 1%nat.
Proof.
  assert (Hd : classify stubHost defaultConfig usersMatcher false false
                 (Some dashboardWindow) (HrefString "/users") None 0
                 (callCancelPending initialWorld)
               = Optimistic {| mr_route := usersIndex; mr_url := "/users" |})
    by (vm_compute; reflexivity).
  split; [reflexivity|]. split; [exact Hd|].
  destruct (background_request_fires_once stubHost defaultConfig usersMatcher
              false false [] initialWorld (Some dashboardWindow)
              (HrefString "/users") None 0 _ eq_refl Hd)
    as (_ & Hsync & _ & _ & Htriggers & _ & _).
  split; [exact Hsync|].
  destruct (Htriggers [EvNavigate; EvTimeout 0%nat]) as (w2 & Hrun & Htrace);
    [discriminate | reflexivity |].
  exists w2. split; [exact Hrun|].
  unfold originalVisits. rewrite Htrace. vm_compute. reflexivity.
Defined.

Lemma new_navigation_cancels_pending_witness :
  run stubHost defaultConfig usersMatcher false false
      [EvVisit (Some dashboardWindow) (HrefString "/users") None 0]
      initialWorld = Some usersArmed /\
  pendingAt 0 usersArmed /\
  forall w',
    run stubHost defaultConfig usersMatcher false false
        [EvTimeout 0; EvNavigate]
        (patchedVisit stubHost defaultConfig usersMatcher false false
                      (Some dashboardWindow) (HrefString "/unknown") None 1
                      usersArmed) = Some w' ->
    backgroundRequests 0 w' = 0%nat.
Proof.
  assert (Hp : pendingAt 0 usersArmed)
    by (eexists; split; vm_compute; reflexivity).
  split; [reflexivity|]. split; [exact Hp|].
  intros w' Hrun.
  destruct (new_navigation_cancels_pending stubHost defaultConfig
              usersMatcher false false
              [EvVisit (Some dashboardWindow) (HrefString "/users") None 0]
              usersArmed 0 (Some dashboardWindow) (HrefString "/unknown")
              None 1 eq_refl Hp)
    as (_ & _ & _ & _ & _ & _ & _ & _ & _ & _ & _ & Hnever & _).
  exact (proj2 (Hnever _ w' Hrun)).
Defined.

(** C1 (the code at the failing input). The interceptor never asks the
    matcher whether a URL is excluded: its result is the same whatever
    [isExcluded] answers. With [/admin*] excluded and [/admin] in the
    manifest, [visit('/admin')] does not pass through: it renders
    optimistically, calls the original [visit] not at all, arms the
    background gate, and the ['navigate'] event then issues the
    background request. *)
Theorem excluded_route_is_not_skipped :
  (forall host config m excl navPf patchPf win href options now w,
     patchedVisit host config m navPf patchPf win href options now w =
     patchedVisit host config
                  {| match_ := match_ m; isExcluded := excl |}
                  navPf patchPf win href options now w) /\
  Matcher.createMatcher stubHost [exampleRoute "/admin" "Admin"]
                        excludingConfig = Some adminMatcher /\
  isExcluded adminMatcher "/admin" = true /\
  is_Some (match_ adminMatcher "/admin") /\
  let w := patchedVisit stubHost excludingConfig adminMatcher false false
                        (Some dashboardWindow) (HrefString "/admin") None 0
                        initialWorld in
  (exists page, trace w = [RouterPush page] /\
                pp_component page = "Admin" /\ pp_url page = "/admin") /\
  originalVisits w = 0%nat /\
  isLoading w = true /\
  cancelPendingBackground w = Some 0%nat /\
  exists w2,
    run stubHost excludingConfig adminMatcher false false [EvNavigate] w
      = Some w2 /\
    backgroundRequests 0 w2 = 1%nat.
Proof.
  split; [reflexivity|].
  split; [vm_compute; reflexivity|]. split; [vm_compute; reflexivity|].
  split; [eexists; vm_compute; reflexivity|]. cbv zeta.
  split; [eexists; split; [vm_compute; reflexivity|];
          split; vm_compute; reflexivity|].
  split; [vm_compute; reflexivity|]. split; [vm_compute; reflexivity|].
  split; [vm_compute; reflexivity|].
  eexists. split; vm_compute; reflexivity.
Qed.

(* ================================================================= *)
(** * Further properties of the code *)

(** ** Page cache: lookups after an update *)

Lemma storeGet_storeSet_same k v (st : Cache.Store) :
  Cache.storeGet k (Cache.storeSet k v st) = Some v.
Proof.
  induction st as [|[k' v'] st IH]; simpl.
  - rewrite storeGet_cons. now rewrite String.eqb_refl.
  - unfold Cache.keyIs. simpl. destruct (String.eqb_spec k' k) as [->|Hne].
    + rewrite storeGet_cons. now rewrite String.eqb_refl.
    + rewrite storeGet_cons. destruct (String.eqb_spec k' k); [congruence|].
      exact IH.
Qed.

Lemma storeGet_storeSet_other k k' v (st : Cache.Store) :
  k' <> k -> Cache.storeGet k' (Cache.storeSet k v st) = Cache.storeGet k' st.
Proof.
  intros Hne. induction st as [|[k0 v0] st IH]; simpl.
  - rewrite storeGet_cons. destruct (String.eqb_spec k k'); [congruence|].
    reflexivity.
  - unfold Cache.keyIs. simpl. destruct (String.eqb_spec k0 k) as [->|Hne0].
    + rewrite !storeGet_cons. destruct (String.eqb_spec k k'); [congruence|].
      reflexivity.
    + rewrite !storeGet_cons. destruct (String.eqb_spec k0 k'); [reflexivity|].
      exact IH.
Qed.

Lemma storeGet_storeDelete_other k k' (st : Cache.Store) :
  k' <> k -> Cache.storeGet k' (Cache.storeDelete k st) = Cache.storeGet k' st.
Proof.
  intros Hne. induction st as [|[k0 v0] st IH]; [reflexivity|].
  rewrite storeDelete_cons. destruct (String.eqb_spec k0 k) as [->|Hne0].
  - rewrite storeGet_cons. destruct (String.eqb_spec k k'); [congruence|].
    exact IH.
  - rewrite !storeGet_cons. destruct (String.eqb_spec k0 k'); [reflexivity|].
    exact IH.
Qed.

Lemma storeGet_storeDelete_same k (st : Cache.Store) :
  Cache.storeGet k (Cache.storeDelete k st) = None.
Proof. apply storeGet_None_key. rewrite storeDelete_keys. tauto. Qed.

Lemma storeGet_app_other k k' v (st : Cache.Store) :
  k' <> k -> Cache.storeGet k' (st ++ [(k, v)])%list = Cache.storeGet k' st.
Proof.
  intros Hne. induction st as [|[k0 v0] st IH]; simpl.
  - rewrite storeGet_cons. destruct (String.eqb_spec k k'); [congruence|].
    reflexivity.
  - rewrite !storeGet_cons. destruct (String.eqb_spec k0 k'); [reflexivity|].
    exact IH.
Qed.

Lemma fieldOf_cons k k' v (l : list (string * string)) :
  fieldOf k ((k', v) :: l) = if String.eqb k' k then Some v else fieldOf k l.
Proof. unfold fieldOf. simpl. now destruct (String.eqb k' k). Qed.

Lemma fieldOf_assocSet k k' v (l : list (string * string)) :
  fieldOf k (Cache.assocSet k' v l) =
    if String.eqb k' k then Some v else fieldOf k l.
Proof.
  induction l as [|[k0 v0] l IH]; simpl.
  - now rewrite fieldOf_cons.
  - destruct (String.eqb_spec k0 k') as [->|Hne].
    + rewrite !fieldOf_cons. now destruct (String.eqb k' k).
    + rewrite !fieldOf_cons, IH.
      destruct (String.eqb_spec k0 k) as [->|]; [|reflexivity].
      destruct (String.eqb_spec k' k); [congruence | reflexivity].
Qed.

Lemma fieldOf_app_last k k' v (l : list (string * string)) :
  fieldOf k (l ++ [(k', v)])%list =
    match fieldOf k l with
    | Some x => Some x
    | None => if String.eqb k' k then Some v else None
    end.
Proof.
  induction l as [|[k0 v0] l IH]; simpl.
  - now rewrite fieldOf_cons.
  - rewrite !fieldOf_cons, IH. now destruct (String.eqb k0 k).
Qed.

(** In [{ ...a, ...b }] a key has the value [b] gives it (the last one,
    should the list repeat the key) and otherwise the value of [a]. *)
Lemma fieldOf_spread k (a b : list (string * string)) :
  fieldOf k (fold_left (fun acc kv => Cache.assocSet (fst kv) (snd kv) acc) b a)
  = match fieldOf k (rev b) with
    | Some v => Some v
    | None => fieldOf k a
    end.
Proof.
  revert a. induction b as [|[k' v] b IH]; intros a; simpl; [reflexivity|].
  rewrite IH, fieldOf_app_last, fieldOf_assocSet.
  destruct (fieldOf k (rev b)); [reflexivity|].
  now destruct (String.eqb k' k).
Qed.

Lemma slotGet_cons k k' a (l : list (string * nat)) :
  CacheObjects.slotGet k ((k', a) :: l) =
    if String.eqb k' k then Some a else CacheObjects.slotGet k l.
Proof.
  unfold CacheObjects.slotGet, CacheObjects.slotIs. simpl.
  now destruct (String.eqb k' k).
Qed.

(** X1. [updateProps] on a URL without an entry changes nothing. On a
    stored URL it changes the stored object in place: the [Map] stays
    as it was (the keys, their order, which is the eviction order, and
    the objects they hold); the object keeps its component and its URL,
    takes [now] as its time stamp, and its props are the old ones
    overridden by the given ones. Every URL that holds the same object
    reads the changed entry, every URL that holds another object reads
    what it read before. With a TTL that is not negative the entry is
    fresh again, so [get] returns it. *)
Theorem updateProps_refreshes_in_place (config : Force10Config) (now : Z)
        (url : string) (props : Props) (c : CacheObjects.State) :
  let c' := CacheObjects.updateProps now url props c in
  CacheObjects.slots c' = CacheObjects.slots c /\
  (CacheObjects.storeGet url c = None -> c' = c) /\
  (forall a entry,
     CacheObjects.slotGet url (CacheObjects.slots c) = Some a ->
     CacheObjects.heap c !! a = Some entry ->
     exists entry',
       CacheObjects.storeGet url c' = Some entry' /\
       cp_timestamp entry' = now /\
       cp_url entry' = cp_url entry /\
       cp_component entry' = cp_component entry /\
       (forall k,
          fieldOf k (fields (cp_props entry')) =
            match fieldOf k (rev (fields props)) with
            | Some v => Some v
            | None => fieldOf k (fields (cp_props entry))
            end) /\
       auth_user (cp_props entry') =
         Cache.override (auth_user (cp_props entry)) (auth_user props) /\
       (forall url' a',
          CacheObjects.slotGet url' (CacheObjects.slots c) = Some a' ->
          (a' = a -> CacheObjects.storeGet url' c' = Some entry') /\
          (a' <> a ->
           CacheObjects.storeGet url' c' = CacheObjects.storeGet url' c)) /\
       (0 <= cache_ttl config ->
        CacheObjects.get config now url c' = Some entry' /\
        CacheObjects.getOrStale config now url c' = Some (entry', false))).
Proof.
  intros c'. subst c'. unfold CacheObjects.updateProps.
  split; [|split].
  - destruct (CacheObjects.slotGet url (CacheObjects.slots c)) as [a|];
      [|reflexivity].
    now destruct (CacheObjects.heap c !! a).
  - unfold CacheObjects.storeGet.
    destruct (CacheObjects.slotGet url (CacheObjects.slots c)) as [a|];
      [|reflexivity].
    now intros ->.
  - intros a entry Ha Hentry. rewrite Ha, Hentry.
    assert (Hlt : (a < length (CacheObjects.heap c))%nat)
      by (eapply lookup_lt_Some; exact Hentry).
    set (entry' := {| cp_props := Cache.spread (cp_props entry) props;
                      cp_timestamp := now;
                      cp_url := cp_url entry;
                      cp_component := cp_component entry |}).
    assert (Hread : forall url' a',
              CacheObjects.slotGet url' (CacheObjects.slots c) = Some a' ->
              (a' = a ->
               CacheObjects.storeGet url'
                 {| CacheObjects.slots := CacheObjects.slots c;
                    CacheObjects.heap := <[a:=entry']> (CacheObjects.heap c) |}
               = Some entry') /\
              (a' <> a ->
               CacheObjects.storeGet url'
                 {| CacheObjects.slots := CacheObjects.slots c;
                    CacheObjects.heap := <[a:=entry']> (CacheObjects.heap c) |}
               = CacheObjects.storeGet url' c)).
    { intros url' a' Ha'. unfold CacheObjects.storeGet. simpl. rewrite Ha'.
      split.
      - intros ->. now apply list_lookup_insert_eq.
      - intros Hne. apply list_lookup_insert_ne. congruence. }
    exists entry'. split; [now apply (Hread url a)|].
    split; [reflexivity|]. split; [reflexivity|]. split; [reflexivity|].
    split; [intros k; apply fieldOf_spread|]. split; [reflexivity|].
    split; [exact Hread|].
    intros Httl. unfold CacheObjects.get, CacheObjects.getOrStale.
    rewrite (proj1 (Hread url a Ha) eq_refl).
    unfold Cache.isExpired, Cache.ttl. simpl.
    destruct (Z.gtb_spec (now - now) (cache_ttl config)); [lia|].
    split; reflexivity.
Qed.

(** One object stored under two URLs changes under both. *)
Lemma shared_object_changes_under_both :
  let c0 := snd (CacheObjects.newObject (examplePage "/a" 0)
                   {| CacheObjects.slots := []; CacheObjects.heap := [] |}) in
  exists c1 c2,
    CacheObjects.set exampleConfig "/a" 0 c0 = Some c1 /\
    CacheObjects.set exampleConfig "/b" 0 c1 = Some c2 /\
    option_map cp_timestamp (CacheObjects.storeGet "/b" c2) = Some 0 /\
    option_map cp_timestamp
      (CacheObjects.storeGet "/b" (CacheObjects.updateProps 5 "/a" emptyProps c2))
    = Some 5.
Proof. do 2 eexists. repeat split; reflexivity. Qed.

(** *** The cache of values is the cache of objects without sharing *)

Lemma slotGet_In k a (l : list (string * nat)) :
  CacheObjects.slotGet k l = Some a -> In a (List.map snd l).
Proof.
  induction l as [|[k' a'] l IH]; [discriminate|].
  rewrite slotGet_cons. destruct (String.eqb k' k).
  - intros [= ->]. now left.
  - intros H. right. now apply IH.
Qed.

Section ViewOf.

Variable h : list CachedPage.

#[local] Abbreviation viewOf h l :=
  (omap (fun kv : string * nat =>
           match h !! snd kv with
           | Some entry => Some (fst kv, entry)
           | None => None
           end) l).

Lemma viewOf_step (h' : list CachedPage) k a (l : list (string * nat)) :
  viewOf h' ((k, a) :: l) =
    match h' !! a with
    | Some v => (k, v) :: viewOf h' l
    | None => viewOf h' l
    end.
Proof. simpl. now destruct (h' !! a). Qed.

Lemma viewOf_cons k a v (l : list (string * nat)) :
  h !! a = Some v -> viewOf h ((k, a) :: l) = (k, v) :: viewOf h l.
Proof. intros Hv. now rewrite viewOf_step, Hv. Qed.

Lemma storeGet_viewOf k (l : list (string * nat)) :
  (forall kv, In kv l -> is_Some (h !! snd kv)) ->
  Cache.storeGet k (viewOf h l) =
    match CacheObjects.slotGet k l with
    | Some a => h !! a
    | None => None
    end.
Proof.
  induction l as [|[k' a] l IH]; intros Hvalid; [reflexivity|].
  destruct (Hvalid (k', a)) as [v Hv]; [now left|]. simpl in Hv.
  rewrite (viewOf_cons k' a v l Hv), storeGet_cons, slotGet_cons.
  destruct (String.eqb k' k); [now rewrite Hv|].
  apply IH. intros kv Hin. apply Hvalid. now right.
Qed.

Lemma viewOf_insert_other a0 e (l : list (string * nat)) :
  ~ In a0 (List.map snd l) -> viewOf (<[a0:=e]> h) l = viewOf h l.
Proof.
  induction l as [|[k a] l IH]; intros Hnotin; [reflexivity|].
  simpl in *. rewrite list_lookup_insert_ne
    by (intros ->; apply Hnotin; now left).
  destruct (h !! a); [f_equal|]; apply IH; tauto.
Qed.

Lemma viewOf_insert url a0 entry e (l : list (string * nat)) :
  NoDup (List.map snd l) ->
  (forall kv, In kv l -> is_Some (h !! snd kv)) ->
  CacheObjects.slotGet url l = Some a0 -> h !! a0 = Some entry ->
  viewOf (<[a0:=e]> h) l = Cache.storeSet url e (viewOf h l).
Proof.
  intros Hnd Hvalid Hget Hentry.
  induction l as [|[k a] l IH]; [discriminate|].
  simpl in Hnd. apply NoDup_cons in Hnd as [Hnotin Hnd].
  rewrite list_elem_of_In in Hnotin.
  destruct (Hvalid (k, a)) as [v Hv]; [now left|]. simpl in Hv.
  rewrite (viewOf_cons k a v l Hv). rewrite slotGet_cons in Hget.
  simpl Cache.storeSet. unfold Cache.keyIs. simpl fst.
  destruct (String.eqb_spec k url) as [->|Hne].
  - injection Hget as ->. rewrite viewOf_step.
    rewrite list_lookup_insert_eq by (eapply lookup_lt_Some; exact Hentry).
    now rewrite viewOf_insert_other.
  - assert (Hne' : a0 <> a).
    { intros ->. apply Hnotin. eapply slotGet_In. exact Hget. }
    rewrite viewOf_step, list_lookup_insert_ne, Hv by assumption. f_equal.
    apply IH; [assumption | | assumption].
    intros kv Hin. apply Hvalid. now right.
Qed.

End ViewOf.

(** On a cache that holds no object under two URLs, [updateProps] on
    the objects is [Cache.updateProps] on the values. *)
Lemma updateProps_view now url props (c : CacheObjects.State) :
  NoDup (List.map snd (CacheObjects.slots c)) ->
  (forall kv, In kv (CacheObjects.slots c) ->
              is_Some (CacheObjects.heap c !! snd kv)) ->
  CacheObjects.view (CacheObjects.updateProps now url props c) =
  Cache.updateProps now url props (CacheObjects.view c).
Proof.
  intros Hnd Hvalid.
  unfold CacheObjects.updateProps, Cache.updateProps, CacheObjects.view.
  rewrite storeGet_viewOf by assumption.
  destruct (CacheObjects.slotGet url (CacheObjects.slots c)) as [a|] eqn:Ha;
    [|reflexivity].
  destruct (CacheObjects.heap c !! a) as [entry|] eqn:He; [|reflexivity].
  simpl. now apply (viewOf_insert _ url a entry).
Qed.

(** ** Page cache: what [set] evicts *)

Lemma storeDelete_length_present k (st : Cache.Store) :
  NoDup (Cache.storeKeys st) -> k ∈ Cache.storeKeys st ->
  S (length (Cache.storeDelete k st)) = length st.
Proof.
  induction st as [|[k' v] st IH]; intros Hnd Hin.
  - now apply elem_of_nil in Hin.
  - rewrite storeKeys_cons in Hnd, Hin. apply NoDup_cons in Hnd as [Hnotin Hnd].
    rewrite storeDelete_cons. destruct (String.eqb_spec k' k) as [->|Hne].
    + now rewrite storeDelete_absent.
    + apply elem_of_cons in Hin as [Heq|Hin]; [congruence|].
      simpl. f_equal. now apply IH.
Qed.

(** X2. In a store within its bound of at least one entry, [set] leaves
    the given entry under its key as the most recent one. Writing a key
    that is already stored, or a new key below the bound, evicts
    nothing: every other entry is still there. Writing a new key into a
    full store evicts exactly the oldest entry and no other. *)
Theorem set_evicts_only_the_oldest (config : Force10Config) (url : string)
        (page : CachedPage) (st : Cache.Store) :
  storeOk config st ->
  1 <= cache_maxEntries config ->
  exists st',
    Cache.set config url page st = Some st' /\
    Cache.storeGet url st' = Some page /\
    (url ∈ Cache.storeKeys st \/ Cache.storeSize st < cache_maxEntries config ->
     st' = (Cache.storeDelete url st ++ [(url, page)])%list /\
     forall k, k <> url -> Cache.storeGet k st' = Cache.storeGet k st) /\
    (url ∉ Cache.storeKeys st ->
     Cache.storeSize st = cache_maxEntries config ->
     exists oldest v rest,
       st = (oldest, v) :: rest /\
       st' = (rest ++ [(url, page)])%list /\
       Cache.storeGet oldest st' = None /\
       forall k, k <> url -> k <> oldest ->
                 Cache.storeGet k st' = Cache.storeGet k st).
Proof.
  intros [Hnd Hsz] Hmax. unfold Cache.storeSize, Cache.maxEntries in *.
  destruct (set_then_get config url page st Hmax Hnd) as (st' & Hset & Hget).
  exists st'. split; [assumption|]. split; [assumption|].
  rewrite set_spec in Hset by (unfold Cache.maxEntries; auto; lia).
  injection Hset as <-. unfold Cache.maxEntries. rewrite length_app. simpl.
  split.
  - intros Hcase.
    assert (Hlen : (length (Cache.storeDelete url st) + 1
                    - Z.to_nat (cache_maxEntries config) = 0)%nat).
    { destruct (decide (url ∈ Cache.storeKeys st)) as [Hin|Hnotin].
      - pose proof (storeDelete_length_present url st Hnd Hin). lia.
      - rewrite storeDelete_absent by assumption.
        destruct Hcase as [Hin|Hlt]; [contradiction | lia]. }
    rewrite Hlen, drop_0. split; [reflexivity|].
    intros k Hk. rewrite storeGet_app_other by assumption.
    now apply storeGet_storeDelete_other.
  - intros Hnotin Hfull. rewrite storeDelete_absent by assumption.
    destruct st as [|[oldest v] rest]; [simpl in Hfull; lia|].
    exists oldest, v, rest. split; [reflexivity|].
    replace (length ((oldest, v) :: rest) + 1
             - Z.to_nat (cache_maxEntries config))%nat with 1%nat
      by (simpl length in *; lia).
    rewrite <- app_comm_cons, skipn_cons, drop_0.
    rewrite storeKeys_cons in Hnd, Hnotin.
    apply NoDup_cons in Hnd as [Hold _].
    apply not_elem_of_cons in Hnotin as [Hne _].
    split; [reflexivity|]. split.
    + rewrite storeGet_app_other by congruence. now apply storeGet_None_key.
    + intros k Hk Hko. rewrite storeGet_app_other by assumption.
      rewrite storeGet_cons. destruct (String.eqb_spec oldest k); [congruence|].
      reflexivity.
Qed.

Lemma set_evicts_only_the_oldest_witness :
  storeOk exampleConfig
    [("/a", examplePage "/a" 0); ("/b", examplePage "/b" 0);
     ("/c", examplePage "/c" 0)] /\
  1 <= cache_maxEntries exampleConfig /\
  exists st',
    Cache.set exampleConfig "/d" (examplePage "/d" 0)
      [("/a", examplePage "/a" 0); ("/b", examplePage "/b" 0);
       ("/c", examplePage "/c" 0)] = Some st' /\
    Cache.storeGet "/d" st' = Some (examplePage "/d" 0).
Proof.
  assert (Hok : storeOk exampleConfig
            [("/a", examplePage "/a" 0); ("/b", examplePage "/b" 0);
             ("/c", examplePage "/c" 0)]).
  { split; [simpl; solve_keys | vm_compute; discriminate]. }
  assert (Hmax : 1 <= cache_maxEntries exampleConfig) by (simpl; lia).
  split; [exact Hok|]. split; [exact Hmax|].
  destruct (set_evicts_only_the_oldest exampleConfig "/d"
              (examplePage "/d" 0) _ Hok Hmax) as (st' & Hset & Hget & _).
  exists st'. split; assumption.
Defined.

(** ** Page cache: patterns without and with quantifiers *)

Lemma hasChar_chars c (s : string) :
  JS.hasChar c s = false <-> ~ In c (list_ascii_of_string s).
Proof.
  induction s as [|d s IH]; simpl.
  - split; [intros _ [] | reflexivity].
  - rewrite orb_false_iff, IH. destruct (Ascii.eqb_spec d c) as [->|Hne].
    + split; [intros [? _]; discriminate | intros H; exfalso; apply H; now left].
    + split; [intros [_ H] [?|?]; [congruence | contradiction]
             | intros H; split; [reflexivity | intros ?; apply H; now right]].
Qed.

(** A glob without [*] and [?] accepts its own text and nothing else. *)
Lemma glob_literal (p s : list ascii) :
  ~ In "*"%char p -> ~ In "?"%char p -> (globAccepts p s <-> s = p).
Proof.
  revert s. induction p as [|c p IH]; intros s Hs Hq.
  - split; [now inversion 1 | intros ->; constructor].
  - assert (Hc1 : c <> "*"%char) by (intros ->; apply Hs; now left).
    assert (Hc2 : c <> "?"%char) by (intros ->; apply Hq; now left).
    assert (Hs' : ~ In "*"%char p) by (intros ?; apply Hs; now right).
    assert (Hq' : ~ In "?"%char p) by (intros ?; apply Hq; now right).
    split.
    + inversion 1; subst; try congruence. f_equal. now apply IH.
    + intros ->. constructor; auto. now apply IH.
Qed.

Lemma chars_inj (s1 s2 : string) :
  list_ascii_of_string s1 = list_ascii_of_string s2 -> s1 = s2.
Proof.
  intros H. rewrite <- (string_of_list_ascii_of_string s1),
              <- (string_of_list_ascii_of_string s2). now rewrite H.
Qed.

(** X3. A pattern without [*] and [?] is taken literally, whatever other
    characters it holds: [invalidateByPattern] never throws on it and
    does what [remove] does for that URL. *)
Theorem invalidate_literal_is_remove (pattern : string) (st : Cache.Store) :
  JS.hasChar "*" pattern = false ->
  JS.hasChar "?" pattern = false ->
  Cache.invalidateByPattern pattern st = Some (Cache.remove pattern st).
Proof.
  intros Hs Hq.
  assert (Hre : Cache.patternToRegex pattern
                = Some (globRegex (list_ascii_of_string pattern))).
  { unfold Cache.patternToRegex. rewrite sources_agree by assumption.
    apply excludePatternToRegex_glob. }
  rewrite (invalidate_spec _ _ _ Hre). f_equal.
  unfold Cache.remove, Cache.storeDelete. apply filter_ext. intros [k v].
  unfold Cache.keyIs. simpl. f_equal.
  assert (Hiff : RegExp.test (globRegex (list_ascii_of_string pattern)) k = true
                 <-> k = pattern).
  { unfold RegExp.test. rewrite accepts_matches, globRegex_matches.
    rewrite glob_literal by now apply hasChar_chars.
    split; [apply chars_inj | now intros ->]. }
  destruct (String.eqb_spec k pattern) as [->|Hne].
  - now apply Hiff.
  - destruct (RegExp.test _ k); [|reflexivity]. exfalso. apply Hne.
    now apply Hiff.
Qed.

Lemma invalidate_literal_is_remove_witness :
  JS.hasChar "*" "/users/1.json" = false /\
  JS.hasChar "?" "/users/1.json" = false /\
  Cache.invalidateByPattern "/users/1.json"
    [("/users/1.json", examplePage "/users/1.json" 0);
     ("/users/1xjson", examplePage "/users/1xjson" 0)]
  = Some [("/users/1xjson", examplePage "/users/1xjson" 0)].
Proof.
  split; [reflexivity|]. split; [reflexivity|].
  exact (invalidate_literal_is_remove "/users/1.json" _ eq_refl eq_refl).
Defined.

Lemma patternSource_cons c (r : string) :
  Cache.patternSource (String c r) =
    (if Ascii.eqb c "*" then ".*"
     else if JS.hasChar c ".+^${}()|[]\" then String "\" (String c "")
     else String c "")
    ++ Cache.patternSource r.
Proof. unfold Cache.patternSource. ascii_cases c; reflexivity. Qed.

(** What the pattern grammar makes of one character of a cache pattern. *)
Lemma parse_cache_char c stack cur q :
  (q = RegExp.AfterAtom -> cur <> []) ->
  match afterPatternChar q c with
  | Some q' =>
      exists cur', (q' = RegExp.AfterAtom -> cur' <> []) /\
        forall rest,
          RegExp.parse stack cur q
            (list_ascii_of_string
               (if Ascii.eqb c "*" then ".*"
                else if JS.hasChar c ".+^${}()|[]\" then String "\" (String c "")
                else String c "") ++ rest)%list =
          RegExp.parse stack cur' q' rest
  | None =>
      forall rest,
        RegExp.parse stack cur q
          (list_ascii_of_string
             (if Ascii.eqb c "*" then ".*"
              else if JS.hasChar c ".+^${}()|[]\" then String "\" (String c "")
              else String c "") ++ rest)%list = None
  end.
Proof.
  intros Hcur. unfold afterPatternChar.
  destruct (Ascii.eqb_spec c "*") as [->|Hstar].
  - eexists. split; [discriminate|]. intros rest. reflexivity.
  - destruct (Ascii.eqb_spec c "?") as [->|Hq].
    + destruct q.
      * intros rest. reflexivity.
      * destruct cur as [|a cur]; [now exfalso; apply Hcur|].
        eexists. split; [discriminate|]. intros rest. reflexivity.
      * eexists. split; [discriminate|]. intros rest. reflexivity.
    + exists (RegExp.Chr c :: cur). split; [discriminate|]. intros rest.
      destruct (JS.hasChar c ".+^${}()|[]\") eqn:Hc.
      * apply parse_escaped_char. revert Hc. clear.
        ascii_cases c; intros H; try discriminate H; reflexivity.
      * apply parse_plain_char. revert Hc Hstar Hq. clear.
        ascii_cases c; intros H H1 H2; try discriminate H; try reflexivity;
          congruence.
Qed.

Lemma parse_cache_pattern (pattern : string) stack cur q :
  (q = RegExp.AfterAtom -> cur <> []) ->
  match afterPattern q (list_ascii_of_string pattern) with
  | Some q' =>
      exists cur', forall rest,
        RegExp.parse stack cur q
          (list_ascii_of_string (Cache.patternSource pattern) ++ rest)%list =
        RegExp.parse stack cur' q' rest
  | None =>
      forall rest,
        RegExp.parse stack cur q
          (list_ascii_of_string (Cache.patternSource pattern) ++ rest)%list
        = None
  end.
Proof.
  revert cur q. induction pattern as [|c r IH]; intros cur q Hcur.
  - exists cur. reflexivity.
  - simpl afterPattern. rewrite patternSource_cons.
    pose proof (parse_cache_char c stack cur q Hcur) as Hc.
    destruct (afterPatternChar q c) as [q1|].
    + destruct Hc as (cur1 & Hcur1 & E1).
      specialize (IH cur1 q1 Hcur1).
      destruct (afterPattern q1 (list_ascii_of_string r)) as [q2|].
      * destruct IH as (cur2 & E2). exists cur2. intros rest.
        now rewrite chars_app, <- app_assoc, E1, E2.
      * intros rest. now rewrite chars_app, <- app_assoc, E1, IH.
    + intros rest. now rewrite chars_app, <- app_assoc, Hc.
Qed.

(** [patternToRegex] throws exactly where a [?] has nothing to repeat. *)
Lemma patternToRegex_None (pattern : string) :
  Cache.patternToRegex pattern = None <->
  afterPattern RegExp.NothingToRepeat (list_ascii_of_string pattern) = None.
Proof.
  unfold Cache.patternToRegex, RegExp.anchored.
  pose proof (parse_cache_pattern pattern [] [] RegExp.NothingToRepeat) as H.
  destruct (afterPattern _ _) as [q'|].
  - destruct H as (cur' & E); [discriminate|]. specialize (E []).
    rewrite app_nil_r in E. rewrite E. simpl. split; discriminate.
  - specialize (H ltac:(discriminate) []). rewrite app_nil_r in H.
    now rewrite H.
Qed.

Lemma infix_cons_iff (sub : list ascii) c l :
  (exists a b, c :: l = (a ++ sub ++ b)%list) <->
  (exists b, c :: l = (sub ++ b)%list) \/
  (exists a b, l = (a ++ sub ++ b)%list).
Proof.
  split.
  - intros (a & b & E). destruct a as [|c' a]; simpl in E.
    + left. eauto.
    + injection E as -> ->. right. eauto.
  - intros [(b & E)|(a & b & ->)].
    + exists [], b. exact E.
    + exists (c :: a), b. reflexivity.
Qed.

Lemma cons_eq_inv {A} (a b : A) (l l' : list A) :
  a :: l = b :: l' -> a = b /\ l = l'.
Proof. intros [= -> ->]. auto. Qed.

(** Every case of a hypothesis built from disjunctions, conjunctions,
    existentials and equations between lists. *)
Ltac cases_of H :=
  repeat match type of H with
         | _ \/ _ => destruct H as [H|H]
         | _ /\ _ =>
             let H' := fresh in
             destruct H as [H' H]; try discriminate H'; try congruence
         | ex _ => let x := fresh "x" in destruct H as [x H]
         | _ :: _ = _ :: _ => apply cons_eq_inv in H
         end;
  try discriminate H; subst.

Lemma afterPattern_None q (l : list ascii) :
  afterPattern q l = None <->
  (q = RegExp.NothingToRepeat /\ exists b, l = "?"%char :: b) \/
  (q = RegExp.AfterQuantifier /\ exists b, l = "?"%char :: "?"%char :: b) \/
  (exists a b, l = (a ++ ["*"; "?"; "?"]%char ++ b)%list) \/
  (exists a b, l = (a ++ ["?"; "?"; "?"]%char ++ b)%list).
Proof.
  revert q. induction l as [|c l IH]; intros q.
  - simpl. split; [discriminate|].
    intros [(_ & b & E)|[(_ & b & E)|[(a & b & E)|(a & b & E)]]];
      try discriminate E; destruct a; discriminate E.
  - rewrite !infix_cons_iff. simpl afterPattern. unfold afterPatternChar.
    destruct (Ascii.eqb_spec c "*") as [->|Hstar].
    + rewrite IH. simpl. split; intros H; cases_of H; eauto 12.
    + destruct (Ascii.eqb_spec c "?") as [->|Hq].
      * destruct q; [|rewrite IH|rewrite IH]; simpl;
          (split; intros H; cases_of H; eauto 12).
      * rewrite IH. simpl. split; intros H; cases_of H; eauto 12.
Qed.

Lemma holdsSubstring_chars (sub s : string) :
  holdsSubstring sub s <->
  exists a b, list_ascii_of_string s =
              (a ++ list_ascii_of_string sub ++ b)%list.
Proof.
  split.
  - intros (a & b & ->). exists (list_ascii_of_string a), (list_ascii_of_string b).
    now rewrite !chars_app.
  - intros (a & b & E).
    exists (string_of_list_ascii a), (string_of_list_ascii b).
    apply chars_inj.
    now rewrite !chars_app, !list_ascii_of_string_of_list_ascii.
Qed.

(** X4. [invalidateByPattern] throws (the [RegExp] constructor rejects
    the pattern: nothing to repeat) exactly on the patterns that begin
    with [?], hold [??] right after a [*], or hold [???]; on every
    other pattern it returns. *)
Theorem invalidate_throws_on_stray_quantifier (pattern : string)
        (st : Cache.Store) :
  Cache.invalidateByPattern pattern st = None <->
  JS.startsWith pattern "?" = true \/
  holdsSubstring "*??" pattern \/
  holdsSubstring "???" pattern.
Proof.
  assert (Hthrow : Cache.invalidateByPattern pattern st = None <->
                   Cache.patternToRegex pattern = None).
  { unfold Cache.invalidateByPattern.
    destruct (Cache.patternToRegex pattern); split; congruence. }
  rewrite Hthrow, patternToRegex_None, afterPattern_None.
  rewrite !holdsSubstring_chars. simpl list_ascii_of_string.
  assert (Hstart : JS.startsWith pattern "?" = true <->
                   exists b, list_ascii_of_string pattern = "?"%char :: b).
  { unfold JS.startsWith. destruct pattern as [|c r].
    - split; [discriminate | intros (b & E); discriminate E].
    - change (String.prefix "?" (String c r))
        with (if ascii_dec "?" c then String.prefix "" r else false).
      destruct (ascii_dec "?" c) as [<-|Hne]; simpl.
      + split; [eauto|]. intros _. apply String.prefix_correct.
        now destruct r.
      + split; [discriminate | intros (b & E); congruence]. }
  rewrite Hstart. split.
  - intros [(_ & H)|[(E & _)|[H|H]]]; [auto | discriminate E | auto | auto].
  - intros [H|[H|H]]; auto.
Qed.

(** ** Preflight evaluator: time and order *)

Lemma guardFails_later (data : gmap string PreflightResult) (now now' : Z) g :
  now <= now' -> guardFails data now g = true -> guardFails data now' g = true.
Proof.
  intros Hle. unfold guardFails, failsb, Preflight.expired.
  destruct (Preflight.read data g) as [v| |]; [|reflexivity|discriminate].
  destruct (pass v); simpl; [|reflexivity].
  destruct (expiresAt v) as [e|]; [|discriminate].
  destruct (Z.eqb_spec e 0); simpl; [discriminate|].
  destruct (Z.geb_spec (now / 1000) e); [|discriminate]. intros _.
  destruct (Z.geb_spec (now' / 1000) e); [reflexivity|].
  assert (now / 1000 <= now' / 1000) by (apply Z.div_le_mono; lia). lia.
Qed.

Lemma existsb_impl {A} (P Q : A -> bool) (l : list A) :
  (forall x, P x = true -> Q x = true) ->
  existsb P l = true -> existsb Q l = true.
Proof.
  intros H. rewrite !existsb_exists. intros (x & Hin & Hx). eauto.
Qed.

Lemma existsb_same_elements {A} (P : A -> bool) (l1 l2 : list A) :
  (forall x, In x l1 <-> In x l2) -> existsb P l1 = existsb P l2.
Proof.
  intros H. apply eq_true_iff_eq. rewrite !existsb_exists.
  split; intros (x & Hin & Hx); exists x; (split; [now apply H | assumption]).
Qed.

(** X5. With the recorded verdicts unchanged, the answer of [check] can
    only get worse as time passes: a false stays false at every later
    time, a true at a later time was a true before, and whether [check]
    has an opinion at all does not depend on the time. *)
Theorem preflight_check_only_worsens (data : gmap string PreflightResult)
        (now now' : Z) (guards : list string) :
  now <= now' ->
  (Preflight.check data now guards = Some false ->
   Preflight.check data now' guards = Some false) /\
  (Preflight.check data now' guards = Some true ->
   Preflight.check data now guards = Some true) /\
  (Preflight.check data now guards = None <->
   Preflight.check data now' guards = None).
Proof.
  intros Hle. unfold Preflight.check. rewrite !checkLoop_spec. simpl.
  pose proof (existsb_impl (guardFails data now) (guardFails data now') guards
                (fun g => guardFails_later data now now' g Hle)) as Hmono.
  assert (Hknown : existsb (guardFails data now') guards = true ->
                   existsb (guardKnown data) guards = true).
  { apply existsb_impl. intros g. unfold guardFails, guardKnown.
    now destruct (Preflight.read data g). }
  destruct (existsb (guardFails data now) guards).
  - rewrite Hmono by reflexivity.
    split; [reflexivity|]. split; [discriminate|]. split; discriminate.
  - destruct (existsb (guardFails data now') guards).
    + rewrite Hknown by reflexivity.
      split; [discriminate|]. split; [discriminate|]. split; discriminate.
    + destruct (existsb (guardKnown data) guards);
        (split; [discriminate|]); (split; [reflexivity || discriminate|]);
        split; discriminate || reflexivity.
Qed.

Lemma preflight_check_only_worsens_witness :
  50000 <= 99000 /\
  Preflight.check boundaryVerdicts 50000 ["password.confirm"] = Some true.
Proof.
  assert (Hle : 50000 <= 99000) by lia.
  split; [exact Hle|].
  apply (preflight_check_only_worsens boundaryVerdicts 50000 99000
           ["password.confirm"] Hle).
  reflexivity.
Defined.

(** X6. The answer of [check] depends on the set of guards only: neither
    their order (where the loop stops early) nor repetitions change
    it. *)
Theorem preflight_check_order_independent
        (data : gmap string PreflightResult) (now : Z)
        (guards guards' : list string) :
  (forall g, In g guards <-> In g guards') ->
  Preflight.check data now guards = Preflight.check data now guards'.
Proof.
  intros Hsame. unfold Preflight.check. rewrite !checkLoop_spec.
  now rewrite (existsb_same_elements (guardFails data now) guards guards'),
    (existsb_same_elements (guardKnown data) guards guards').
Qed.

Lemma preflight_check_order_independent_witness :
  (forall g, In g ["auth"; "password.confirm"] <->
             In g ["password.confirm"; "auth"; "auth"]) /\
  Preflight.check boundaryVerdicts 100000 ["auth"; "password.confirm"] =
  Preflight.check boundaryVerdicts 100000 ["password.confirm"; "auth"; "auth"].
Proof.
  assert (Hsame : forall g, In g ["auth"; "password.confirm"] <->
                            In g ["password.confirm"; "auth"; "auth"])
    by (intros g; simpl; tauto).
  split; [exact Hsame|].
  exact (preflight_check_order_independent boundaryVerdicts 100000 _ _ Hsame).
Defined.

(** ** Route matcher: construction, exclusion and selection *)

Lemma mapM_map {A B} (f : A -> option B) (g : A -> B) (l : list A) :
  (forall x, f x = Some (g x)) -> mapM f l = Some (List.map g l).
Proof.
  intros H. induction l as [|x l IH]; [reflexivity|].
  simpl. rewrite H. simpl. now rewrite IH.
Qed.

(** X7. [createMatcher] never throws, whatever the patterns of the
    manifest and of [config.routes.exclude] are: every character that
    is special in a regular expression is escaped or translated. The
    matcher's [isExcluded] accepts a URL exactly when one of the exclude
    patterns, read as a glob ([*] any run of characters other than
    line terminators, [?] any one character other than a line
    terminator, anything else itself), accepts its normalised path; a
    line feed or a carriage return in the path (from [%0A] or [%0D] in
    the URL) is matched by neither [*] nor [?]. *)
Theorem createMatcher_never_throws (host : Host)
        (routes : list ManifestRoute) (config : Force10Config) :
  exists m,
    Matcher.createMatcher host routes config = Some m /\
    forall url,
      isExcluded m url = true <->
      exists p, In p (routes_exclude config) /\
                globAccepts (list_ascii_of_string p)
                  (list_ascii_of_string (Matcher.normalizePath host url)).
Proof.
  destruct (createMatcher_total host routes config)
    as (compiled & regexes & _ & Hex & ->).
  eexists. split; [reflexivity|]. intros url. simpl.
  rewrite (mapM_map _ (fun p => globRegex (list_ascii_of_string p)))
    in Hex by apply excludePatternToRegex_glob.
  injection Hex as <-. unfold Matcher.isExcludedBy.
  rewrite existsb_exists. split.
  - intros (r & Hin & Ht). apply in_map_iff in Hin as (p & <- & Hp).
    exists p. split; [assumption|]. unfold RegExp.test in Ht.
    now rewrite accepts_matches, globRegex_matches in Ht.
  - intros (p & Hp & Hg). exists (globRegex (list_ascii_of_string p)).
    split; [apply in_map_iff; eauto|]. unfold RegExp.test.
    now rewrite accepts_matches, globRegex_matches.
Qed.

Lemma bestCompiled_None P (l : list Matcher.CompiledRoute) :
  bestCompiled P l = None <-> forall z, In z l -> P z = false.
Proof.
  induction l as [|x l IH]; simpl.
  - split; [intros _ z [] | reflexivity].
  - destruct (P x) eqn:HP.
    + split.
      * destruct (bestCompiled P l) as [y|];
          [destruct (Matcher.specificity y >? Matcher.specificity x)|];
          discriminate.
      * intros H. rewrite (H x) in HP by now left. discriminate.
    + rewrite IH. split.
      * intros H z [<-|Hz]; auto.
      * intros H z Hz. apply H. now right.
Qed.

(** Where the chosen candidate sits in the manifest order. *)
Lemma bestCompiled_split P (l : list Matcher.CompiledRoute) y :
  bestCompiled P l = Some y ->
  exists before after,
    l = (before ++ y :: after)%list /\ P y = true /\
    (forall z, In z before -> P z = true ->
               Matcher.specificity z < Matcher.specificity y) /\
    (forall z, In z after -> P z = true ->
               Matcher.specificity z <= Matcher.specificity y).
Proof.
  revert y. induction l as [|x l IH]; intros y; simpl; [discriminate|].
  destruct (P x) eqn:HP.
  - destruct (bestCompiled P l) as [z|] eqn:Hbest.
    + destruct (IH z eq_refl) as (before & after & -> & HPz & Hb & Ha).
      destruct (Z.gtb_spec (Matcher.specificity z) (Matcher.specificity x))
        as [Hgt|Hle]; intros [= <-].
      * exists (x :: before), after. split; [reflexivity|].
        split; [assumption|]. split; [|assumption].
        intros z' [<-|Hz'] HPz'; [lia | now apply Hb].
      * exists [], (before ++ z :: after)%list. split; [reflexivity|].
        split; [assumption|]. split; [intros z' []|].
        intros z' Hz' HPz'. apply in_app_or in Hz' as [Hz'|[<-|Hz']].
        -- specialize (Hb z' Hz' HPz'). lia.
        -- assumption.
        -- specialize (Ha z' Hz' HPz'). lia.
    + intros [= <-]. exists [], l. split; [reflexivity|].
      split; [assumption|]. split; [intros z' []|].
      intros z' Hz' HPz'. rewrite bestCompiled_None in Hbest.
      rewrite (Hbest z' Hz') in HPz'. discriminate.
  - intros Hy. destruct (IH y Hy) as (before & after & -> & HPy & Hb & Ha).
    exists (x :: before), after. split; [reflexivity|].
    split; [assumption|]. split; [|assumption].
    intros z' [<-|Hz'] HPz'; [congruence | now apply Hb].
Qed.

(** X8. [match] returns a route exactly when some route of the manifest
    accepts the normalised URL, and then, among the accepting routes,
    one of the highest specificity, and of those the one that comes
    first in the manifest: every accepting route before it scores
    strictly less, every accepting route after it scores no more. The
    result carries the URL as it was given. *)
Theorem match_earliest_of_most_specific (host : Host)
        (config : Force10Config) (routes : list ManifestRoute) :
  exists m,
    Matcher.createMatcher host routes config = Some m /\
    forall url,
      (match_ m url = None <->
       forall r, In r routes -> routeAccepts host r url = false) /\
      (forall res,
         match_ m url = Some res ->
         mr_url res = url /\
         exists before after,
           routes = (before ++ mr_route res :: after)%list /\
           routeAccepts host (mr_route res) url = true /\
           (forall r, In r before -> routeAccepts host r url = true ->
                      Matcher.calcSpecificity (pattern r)
                      < Matcher.calcSpecificity (pattern (mr_route res))) /\
           (forall r, In r after -> routeAccepts host r url = true ->
                      Matcher.calcSpecificity (pattern r)
                      <= Matcher.calcSpecificity (pattern (mr_route res)))).
Proof.
  destruct (createMatcher_total host routes config)
    as (compiled & regexes & Hall & _ & ->).
  destruct (compiled_sound host routes compiled Hall) as [Hmap Hsound].
  rewrite List.Forall_forall in Hsound.
  eexists. split; [reflexivity|]. intros url. simpl.
  unfold Matcher.matchCompiled. rewrite find_sort.
  set (P := fun c => RegExp.test (Matcher.regex c)
                       (Matcher.normalizePath host url)).
  assert (HP : forall c, In c compiled ->
                 P c = routeAccepts host (Matcher.route c) url /\
                 Matcher.specificity c
                 = Matcher.calcSpecificity (pattern (Matcher.route c))).
  { intros c Hin.
    destruct (compileRoute_fields host _ _ (Hsound c Hin)) as (_ & Hs & Ha).
    split; [apply Ha | exact Hs]. }
  split.
  - destruct (bestCompiled P compiled) as [c|] eqn:Hbest.
    + split; [discriminate|]. intros Hnone. exfalso.
      destruct (bestCompiled_In _ _ _ Hbest) as [Hin Hc].
      destruct (HP c Hin) as [Hacc _]. rewrite Hacc in Hc.
      rewrite Hnone in Hc; [discriminate|].
      rewrite <- Hmap. now apply in_map.
    + split; [|reflexivity]. intros _ r Hr.
      rewrite bestCompiled_None in Hbest. rewrite <- Hmap in Hr.
      apply in_map_iff in Hr as (c & <- & Hin).
      destruct (HP c Hin) as [<- _]. now apply Hbest.
  - intros res Hres.
    destruct (bestCompiled P compiled) as [c|] eqn:Hbest; [|discriminate].
    injection Hres as <-. simpl. split; [reflexivity|].
    destruct (bestCompiled_split _ _ _ Hbest)
      as (before & after & E & Hc & Hb & Ha).
    exists (List.map Matcher.route before), (List.map Matcher.route after).
    assert (Hin : forall z, In z before \/ c = z \/ In z after -> In z compiled).
    { intros z Hz. rewrite E. apply in_or_app. simpl. tauto. }
    destruct (HP c (Hin c ltac:(auto))) as [Hacc Hspec].
    split; [|split; [|split]].
    + rewrite <- Hmap, E, List.map_app. reflexivity.
    + now rewrite <- Hacc.
    + intros r Hr Hra. apply in_map_iff in Hr as (z & <- & Hz).
      destruct (HP z (Hin z ltac:(auto))) as [Hzacc Hzspec].
      rewrite <- Hzspec, <- Hspec. apply Hb; [assumption|]. now rewrite Hzacc.
    + intros r Hr Hra. apply in_map_iff in Hr as (z & <- & Hz).
      destruct (HP z (Hin z ltac:(auto))) as [Hzacc Hzspec].
      rewrite <- Hzspec, <- Hspec. apply Ha; [assumption|]. now rewrite Hzacc.
Qed.

(** ** Route matcher: escaping, query strings and hashes *)

Lemma parse_escapeRegex (s : string) stack cur q :
  exists q', forall rest,
    RegExp.parse stack cur q
      (list_ascii_of_string (Matcher.escapeRegex s) ++ rest)%list =
    RegExp.parse stack
      (rev (List.map RegExp.Chr (list_ascii_of_string s)) ++ cur)%list q' rest.
Proof.
  revert cur q. induction s as [|c s IH]; intros cur q.
  - exists q. reflexivity.
  - destruct (IH (RegExp.Chr c :: cur) RegExp.AfterAtom) as [q' Hq'].
    exists q'. intros rest. rewrite escapeRegex_cons.
    replace (rev (List.map RegExp.Chr (list_ascii_of_string (String c s)))
             ++ cur)%list
      with (rev (List.map RegExp.Chr (list_ascii_of_string s))
            ++ RegExp.Chr c :: cur)%list
      by (simpl; now rewrite <- app_assoc).
    rewrite <- Hq'.
    destruct (JS.hasChar c ".*+?^${}()|[]\") eqn:Hc.
    + apply parse_escaped_char, escaped_is_syntax, Hc.
    + apply parse_plain_char, Hc.
Qed.

Lemma matches_literal (l s : list ascii) :
  matches (fold_right (fun t acc => RegExp.Cat t acc) RegExp.Eps
                      (List.map RegExp.Chr l)) s <-> s = l.
Proof.
  revert s. induction l as [|c l IH]; intros s; simpl.
  - split; [apply matches_eps_inv | intros ->; constructor].
  - split.
    + intros H. apply matches_cat_inv in H as (s1 & s2 & -> & H1 & H2).
      apply matches_chr_inv in H1 as ->. apply IH in H2 as ->. reflexivity.
    + intros ->. apply (matches_cat _ _ [c] l); [constructor | now apply IH].
Qed.

(** X9. [escapeRegex] makes any string a regular expression for itself:
    whatever characters the string holds, the escaped text is a valid
    pattern, and anchored it accepts the original string and no other. *)
Theorem escapeRegex_accepts_only_the_text (s : string) :
  exists r,
    RegExp.anchored (Matcher.escapeRegex s) = Some r /\
    forall k, RegExp.test r k = true <-> k = s.
Proof.
  unfold RegExp.anchored.
  destruct (parse_escapeRegex s [] [] RegExp.NothingToRepeat) as [q' H].
  specialize (H []). rewrite !app_nil_r in H. rewrite H. simpl.
  eexists. split; [reflexivity|]. intros k. unfold RegExp.test.
  rewrite accepts_matches, seqOf_rev, matches_literal.
  split; [apply chars_inj | now intros ->].
Qed.

Lemma beforeFirst_cons sep c (r : string) :
  JS.beforeFirst sep (String c r) =
    if Ascii.eqb c sep then "" else String c (JS.beforeFirst sep r).
Proof.
  unfold JS.beforeFirst. simpl. destruct (Ascii.eqb c sep); [reflexivity|].
  now destruct (JS.split sep r).
Qed.

Lemma beforeFirst_app sep (a b : string) :
  JS.hasChar sep a = false ->
  JS.beforeFirst sep (a ++ b) = a ++ JS.beforeFirst sep b.
Proof.
  induction a as [|c a IH]; intros H; [reflexivity|].
  simpl in H. apply orb_false_elim in H as [Hc Ha].
  change (String c a ++ b) with (String c (a ++ b)).
  rewrite beforeFirst_cons, Hc, IH by assumption. reflexivity.
Qed.

Lemma beforeFirst_absent sep (a : string) :
  JS.hasChar sep a = false -> JS.beforeFirst sep a = a.
Proof.
  induction a as [|c a IH]; intros H; [reflexivity|].
  simpl in H. apply orb_false_elim in H as [Hc Ha].
  now rewrite beforeFirst_cons, Hc, IH.
Qed.

Lemma append_empty_r (s : string) : s ++ "" = s.
Proof.
  induction s as [|c s IH]; [reflexivity|].
  change (String c s ++ "") with (String c (s ++ "")). now rewrite IH.
Qed.

Lemma startsWith_char (s : string) c :
  JS.startsWith s (String c "") = true -> exists r, s = String c r.
Proof.
  unfold JS.startsWith. destruct s as [|d r]; [discriminate|].
  change (String.prefix (String c "") (String d r))
    with (if ascii_dec c d then String.prefix "" r else false).
  destruct (ascii_dec c d) as [->|]; [eauto | discriminate].
Qed.

(** What follows a path from its first [?] or [#] on does not reach the
    patterns. *)
Lemma normalizePath_tail (host : Host) (path tail : string) :
  JS.hasChar "?" path = false ->
  JS.hasChar "#" path = false ->
  JS.startsWith tail "?" = true \/ JS.startsWith tail "#" = true ->
  Matcher.normalizePath host (path ++ tail) = Matcher.normalizePath host path.
Proof.
  intros Hq Hh Htail. unfold Matcher.normalizePath.
  rewrite (beforeFirst_absent "#" path), (beforeFirst_absent "?" path)
    by assumption.
  rewrite (beforeFirst_app "#") by assumption.
  assert (Hsep : forall sep x, JS.beforeFirst sep (String sep x) = "").
  { intros sep x. now rewrite beforeFirst_cons, Ascii.eqb_refl. }
  destruct Htail as [Ht|Ht]; apply startsWith_char in Ht as [r ->].
  - assert (E : JS.beforeFirst "#" (String "?" r)
                = String "?" (JS.beforeFirst "#" r))
      by now rewrite beforeFirst_cons.
    rewrite E, (beforeFirst_app "?"), Hsep by assumption.
    now rewrite append_empty_r.
  - rewrite Hsep, append_empty_r. now rewrite beforeFirst_absent.
Qed.

(** X10. A query string or a hash does not take part in matching: the
    matcher finds for [path?query] or [path#hash] the route it finds for
    [path], and excludes the one exactly when it excludes the other; the
    result of [match] still carries the URL in full, query string and
    hash included. *)
Theorem match_ignores_query_and_hash (host : Host) (config : Force10Config)
        (routes : list ManifestRoute) (path tail : string) :
  JS.hasChar "?" path = false ->
  JS.hasChar "#" path = false ->
  JS.startsWith tail "?" = true \/ JS.startsWith tail "#" = true ->
  exists m,
    Matcher.createMatcher host routes config = Some m /\
    match_ m (path ++ tail) =
      option_map (fun res => {| mr_route := mr_route res;
                                mr_url := path ++ tail |})
                 (match_ m path) /\
    isExcluded m (path ++ tail) = isExcluded m path.
Proof.
  intros Hq Hh Htail.
  destruct (createMatcher_total host routes config)
    as (compiled & regexes & _ & _ & ->).
  eexists. split; [reflexivity|]. simpl.
  unfold Matcher.matchCompiled, Matcher.isExcludedBy.
  rewrite normalizePath_tail by assumption.
  split; [|reflexivity].
  now destruct (find _ (Matcher.sortBySpecificity compiled)).
Qed.

Lemma match_ignores_query_and_hash_witness :
  JS.hasChar "?" "/users" = false /\
  JS.hasChar "#" "/users" = false /\
  JS.startsWith "?page=2#top" "?" = true /\
  exists m,
    Matcher.createMatcher stubHost [usersIndex] defaultConfig = Some m /\
    match_ m ("/users" ++ "?page=2#top") =
      option_map (fun res => {| mr_route := mr_route res;
                                mr_url := "/users" ++ "?page=2#top" |})
                 (match_ m "/users") /\
    isExcluded m ("/users" ++ "?page=2#top") = isExcluded m "/users".
Proof.
  assert (Hq : JS.hasChar "?" "/users" = false) by reflexivity.
  assert (Hh : JS.hasChar "#" "/users" = false) by reflexivity.
  assert (Ht : JS.startsWith "?page=2#top" "?" = true)
    by (vm_compute; reflexivity).
  split; [exact Hq|]. split; [exact Hh|]. split; [exact Ht|].
  exact (match_ignores_query_and_hash stubHost defaultConfig [usersIndex]
           "/users" "?page=2#top" Hq Hh (or_introl Ht)).
Defined.

(** ** Route matcher: what a route pattern accepts *)

Lemma parse_segmentRegex (seg : string) stack cur q :
  exists q', forall rest,
    RegExp.parse stack cur q
      (list_ascii_of_string (Matcher.segmentRegex seg) ++ rest)%list =
    RegExp.parse stack (rev (segmentTerms seg) ++ cur)%list q' rest.
Proof.
  unfold Matcher.segmentRegex, segmentTerms.
  destruct (Matcher.isWildcard seg); [|destruct (Matcher.isParam seg)].
  - eexists. intros rest. reflexivity.
  - destruct (JS.endsWithChar seg "?"); eexists; intros rest; reflexivity.
  - destruct (parse_escapeRegex seg stack (RegExp.Chr "/" :: cur)
                RegExp.AfterAtom) as [q' Hq'].
    exists q'. intros rest.
    change (list_ascii_of_string ("/" ++ Matcher.escapeRegex seg) ++ rest)%list
      with ("/"%char :: (list_ascii_of_string (Matcher.escapeRegex seg)
                         ++ rest))%list.
    rewrite (parse_plain_char "/") by reflexivity.
    rewrite Hq'. simpl. now rewrite <- app_assoc.
Qed.

Lemma parse_segments (segs : list string) (acc : string) stack cur q curA qA :
  (forall rest,
     RegExp.parse stack cur q (list_ascii_of_string acc ++ rest)%list =
     RegExp.parse stack curA qA rest) ->
  exists q', forall rest,
    RegExp.parse stack cur q
      (list_ascii_of_string
         (fold_left (fun acc seg => (acc ++ Matcher.segmentRegex seg)%string)
                    segs acc)
       ++ rest)%list =
    RegExp.parse stack
      (rev (List.concat (List.map segmentTerms segs)) ++ curA)%list q' rest.
Proof.
  revert acc curA qA. induction segs as [|seg segs IH]; intros acc curA qA Hacc.
  - exists qA. exact Hacc.
  - simpl fold_left.
    destruct (parse_segmentRegex seg stack curA qA) as [q1 Hq1].
    destruct (IH (acc ++ Matcher.segmentRegex seg)
                 (rev (segmentTerms seg) ++ curA)%list q1) as [q' Hq'].
    { intros rest. now rewrite chars_app, <- app_assoc, Hacc, Hq1. }
    exists q'. intros rest. rewrite Hq'. simpl.
    now rewrite rev_app_distr, <- app_assoc.
Qed.

(** The regular expression of a route pattern, term by term. *)
Lemma compilePattern_terms (pattern : string) :
  RegExp.anchored (Matcher.patternRegexSource pattern) =
    Some (sequence
            (List.concat (List.map segmentTerms (Matcher.segments pattern))
             ++ [RegExp.Alt (RegExp.Chr "/") RegExp.Eps])%list).
Proof.
  unfold RegExp.anchored, Matcher.patternRegexSource.
  assert (Hfold : match Matcher.segments pattern with
                  | [] => ""
                  | _ :: _ =>
                      fold_left (fun acc seg => acc ++ Matcher.segmentRegex seg)
                                (Matcher.segments pattern) ""
                  end
                  = fold_left (fun acc seg => acc ++ Matcher.segmentRegex seg)
                              (Matcher.segments pattern) "")
    by now destruct (Matcher.segments pattern).
  rewrite Hfold, chars_app.
  destruct (parse_segments (Matcher.segments pattern) "" [] []
              RegExp.NothingToRepeat [] RegExp.NothingToRepeat) as [q' Hq'];
    [reflexivity|].
  rewrite Hq', app_nil_r. simpl.
  unfold sequence. rewrite <- seqOf_rev, rev_app_distr. reflexivity.
Qed.

Lemma sequence_app (ts1 ts2 : list RegExp.re) s :
  matches (sequence (ts1 ++ ts2)) s <->
  exists s1 s2, s = (s1 ++ s2)%list /\
                matches (sequence ts1) s1 /\ matches (sequence ts2) s2.
Proof.
  revert s. induction ts1 as [|t ts1 IH]; intros s; simpl.
  - split.
    + intros H. exists [], s. split; [reflexivity|]. split; [constructor|].
      exact H.
    + intros (s1 & s2 & -> & H1 & H2). apply matches_eps_inv in H1 as ->.
      exact H2.
  - split.
    + intros H. apply matches_cat_inv in H as (a & b & -> & Ha & Hb).
      apply IH in Hb as (s1 & s2 & -> & H1 & H2).
      exists (a ++ s1)%list, s2. split; [now rewrite app_assoc|].
      split; [now constructor | assumption].
    + intros (s1 & s2 & -> & H1 & H2).
      apply matches_cat_inv in H1 as (a & b & -> & Ha & Hb).
      rewrite <- app_assoc. constructor; [assumption|].
      apply IH. eauto.
Qed.

Lemma matches_star_notchr c s :
  matches (RegExp.Star (RegExp.NotChr c)) s <-> ~ In c s.
Proof.
  split.
  - intros H. remember (RegExp.Star (RegExp.NotChr c)) as r eqn:Er.
    induction H; try discriminate Er.
    + intros [].
    + injection Er as ->. apply matches_notchr_inv in H as (d & -> & Hd).
      intros [E|Hin]; [congruence|]. now apply IHmatches2.
  - induction s as [|d s IH]; intros Hn; [constructor|].
    apply (matches_star_app _ [d] s).
    + constructor. intros ->. apply Hn. now left.
    + apply IH. intros Hin. apply Hn. now right.
Qed.

Lemma matches_paramGroup v :
  matches paramGroup v <-> v <> [] /\ ~ In "/"%char v.
Proof.
  unfold paramGroup. simpl. split.
  - intros H. apply matches_cat_inv in H as (a & b & -> & Ha & Hb).
    apply matches_eps_inv in Hb as ->. rewrite app_nil_r.
    apply matches_cat_inv in Ha as (x & y & -> & Hx & Hy).
    apply matches_notchr_inv in Hx as (d & -> & Hd).
    apply matches_star_notchr in Hy. split; [discriminate|].
    intros [E|Hin]; [congruence | contradiction].
  - intros [Hne Hn]. destruct v as [|d v]; [congruence|].
    rewrite <- (app_nil_r (d :: v)). constructor; [|constructor].
    apply (matches_cat _ _ [d] v).
    + constructor. intros ->. apply Hn. now left.
    + apply matches_star_notchr. intros Hin. apply Hn. now right.
Qed.

(** What the expression of one segment accepts. *)
Lemma matches_segmentTerms (seg : string) t :
  matches (sequence (segmentTerms seg)) t <->
  if Matcher.isWildcard seg then
    t = [] \/
    exists run, t = "/"%char :: run /\
                List.Forall (fun c => RegExp.isLineTerminator c = false) run
  else if Matcher.isParam seg then
    (JS.endsWithChar seg "?" = true /\ t = []) \/
    exists v, t = "/"%char :: v /\ v <> [] /\ ~ In "/"%char v
  else t = "/"%char :: list_ascii_of_string seg.
Proof.
  unfold segmentTerms.
  destruct (Matcher.isWildcard seg); [|destruct (Matcher.isParam seg)].
  - simpl. split.
    + intros H. apply matches_cat_inv in H as (a & b & -> & Ha & Hb).
      apply matches_eps_inv in Hb as ->. rewrite app_nil_r.
      apply matches_alt_inv in Ha as [Ha|Ha].
      * right. apply matches_cat_inv in Ha as (x & y & -> & Hx & Hy).
        apply matches_chr_inv in Hx as ->.
        apply matches_cat_inv in Hy as (y1 & y2 & -> & Hy1 & Hy2).
        apply matches_eps_inv in Hy2 as ->. rewrite app_nil_r.
        exists y1. split; [reflexivity|]. now apply matches_star_dot.
      * left. now apply matches_eps_inv in Ha.
    + intros [->|(run & -> & Hrun)].
      * apply (matches_cat _ _ [] []); [|constructor].
        apply matches_alt_r. constructor.
      * rewrite <- (app_nil_r ("/"%char :: run)). constructor; [|constructor].
        apply matches_alt_l. apply (matches_cat _ _ ["/"%char] run);
          [constructor|].
        rewrite <- (app_nil_r run). constructor; [|constructor].
        now apply matches_star_dot.
  - destruct (JS.endsWithChar seg "?"); simpl.
    + split.
      * intros H. apply matches_cat_inv in H as (a & b & -> & Ha & Hb).
        apply matches_eps_inv in Hb as ->. rewrite app_nil_r.
        apply matches_alt_inv in Ha as [Ha|Ha].
        -- right. apply matches_cat_inv in Ha as (x & y & -> & Hx & Hy).
           apply matches_chr_inv in Hx as ->.
           apply matches_cat_inv in Hy as (y1 & y2 & -> & Hy1 & Hy2).
           apply matches_eps_inv in Hy2 as ->. rewrite app_nil_r.
           exists y1. split; [reflexivity|]. now apply matches_paramGroup.
        -- left. apply matches_eps_inv in Ha. auto.
      * intros [[_ ->]|(v & -> & Hv)].
        -- apply (matches_cat _ _ [] []); [|constructor].
           apply matches_alt_r. constructor.
        -- rewrite <- (app_nil_r ("/"%char :: v)). constructor; [|constructor].
           apply matches_alt_l. apply (matches_cat _ _ ["/"%char] v);
             [constructor|].
           rewrite <- (app_nil_r v). constructor; [|constructor].
           now apply matches_paramGroup.
    + split.
      * intros H. apply matches_cat_inv in H as (a & b & -> & Ha & Hb).
        apply matches_chr_inv in Ha as ->.
        apply matches_cat_inv in Hb as (y1 & y2 & -> & Hy1 & Hy2).
        apply matches_eps_inv in Hy2 as ->. rewrite app_nil_r.
        right. exists y1. split; [reflexivity|]. now apply matches_paramGroup.
      * intros [[E _]|(v & -> & Hv)]; [discriminate|].
        apply (matches_cat _ _ ["/"%char] v); [constructor|].
        rewrite <- (app_nil_r v). constructor; [|constructor].
        now apply matches_paramGroup.
  - change (sequence (RegExp.Chr "/" :: List.map RegExp.Chr
                                         (list_ascii_of_string seg)))
      with (sequence (List.map RegExp.Chr ("/"%char :: list_ascii_of_string seg))).
    apply matches_literal.
Qed.

Lemma matches_segments (segs : list string) s :
  matches (sequence (List.concat (List.map segmentTerms segs))) s <->
  segmentsAccept segs s.
Proof.
  revert s. induction segs as [|seg segs IH]; intros s; simpl.
  - split; [intros H; apply matches_eps_inv in H as ->; constructor|].
    inversion 1. constructor.
  - rewrite sequence_app. split.
    + intros (s1 & s2 & -> & H1 & H2). apply IH in H2.
      apply matches_segmentTerms in H1.
      destruct (Matcher.isWildcard seg) eqn:Hw;
        [|destruct (Matcher.isParam seg) eqn:Hp].
      * destruct H1 as [->|(run & -> & Hrun)].
        -- now apply accept_wildcard_absent.
        -- now apply accept_wildcard.
      * assert (Hps : isParamSegment seg = true)
          by (unfold isParamSegment; now rewrite Hw, Hp).
        destruct H1 as [[Hopt ->]|(v & -> & Hne & Hv)].
        -- now apply accept_param_absent.
        -- now apply accept_param.
      * subst s1. apply accept_static; [|assumption].
        unfold isStaticSegment. now rewrite Hw, Hp.
    + intros H. inversion H as [|seg' segs' s' Hk Hs|seg' segs' v s' Hk Hne Hv Hs
                                |seg' segs' s' Hk Hopt Hs
                                |seg' segs' run s' Hk Hrun Hs
                                |seg' segs' s' Hk Hs]; subst.
      * exists ("/"%char :: list_ascii_of_string seg), s'.
        split; [reflexivity|]. split; [|now apply IH].
        apply matches_segmentTerms. unfold isStaticSegment in Hk.
        apply andb_true_iff in Hk as [Hw Hp].
        apply negb_true_iff in Hw, Hp. now rewrite Hw, Hp.
      * exists ("/"%char :: v), s'.
        split; [reflexivity|]. split; [|now apply IH].
        apply matches_segmentTerms. unfold isParamSegment in Hk.
        apply andb_true_iff in Hk as [Hw Hp].
        apply negb_true_iff in Hw. rewrite Hw, Hp. right. eauto.
      * exists [], s. split; [reflexivity|]. split; [|now apply IH].
        apply matches_segmentTerms. unfold isParamSegment in Hk.
        apply andb_true_iff in Hk as [Hw Hp].
        apply negb_true_iff in Hw. rewrite Hw, Hp. left. auto.
      * exists ("/"%char :: run), s'.
        split; [reflexivity|]. split; [|now apply IH].
        apply matches_segmentTerms. rewrite Hk. right. eauto.
      * exists [], s. split; [reflexivity|]. split; [|now apply IH].
        apply matches_segmentTerms. rewrite Hk. now left.
Qed.

Lemma pattern_terms_accept (pattern path : string) :
  RegExp.test
    (sequence
       (List.concat (List.map segmentTerms (Matcher.segments pattern))
        ++ [RegExp.Alt (RegExp.Chr "/") RegExp.Eps])%list) path = true <->
  patternAccepts pattern (list_ascii_of_string path).
Proof.
  unfold RegExp.test, patternAccepts.
  rewrite accepts_matches, sequence_app. split.
  - intros (s1 & s2 & E & H1 & H2). apply matches_segments in H1.
    exists s1. split; [assumption|]. simpl in H2.
    apply matches_cat_inv in H2 as (a & b & -> & Ha & Hb).
    apply matches_eps_inv in Hb as ->. rewrite app_nil_r in E.
    apply matches_alt_inv in Ha as [Ha|Ha].
    + apply matches_chr_inv in Ha as ->. now right.
    + apply matches_eps_inv in Ha as ->. left. now rewrite app_nil_r in E.
  - intros (s & Hs & [E|E]).
    + exists s, []. split; [now rewrite app_nil_r|].
      split; [now apply matches_segments|]. simpl.
      apply (matches_cat _ _ [] []); [|constructor].
      apply matches_alt_r. constructor.
    + exists s, ["/"%char]. split; [assumption|].
      split; [now apply matches_segments|]. simpl.
      apply (matches_cat _ _ ["/"%char] []); [|constructor].
      apply matches_alt_l. constructor.
Qed.

(** X11. [compilePattern] never throws, and the regular expression it
    builds accepts exactly the paths the pattern describes: segment by
    segment, a static segment matches [/] and its own text taken
    literally, [:name] matches [/] and a non-empty run of characters
    without [/], [:name?] that or nothing, [*] and [**] match [/] and
    any run of characters other than line terminators or nothing; one
    [/] may follow at the end. *)
Theorem route_pattern_language (pattern : string) :
  exists re names,
    Matcher.compilePattern pattern = Some (re, names) /\
    forall path,
      RegExp.test re path = true <->
      patternAccepts pattern (list_ascii_of_string path).
Proof.
  unfold Matcher.compilePattern. rewrite compilePattern_terms.
  eexists _, _. split; [reflexivity|]. apply pattern_terms_accept.
Qed.

(** ** Route matcher: the trailing slash *)

Lemma split_no_sep sep (s : string) x :
  In x (JS.split sep s) -> JS.hasChar sep x = false.
Proof.
  revert x. induction s as [|c s IH]; intros x; simpl.
  - intros [<-|[]]. reflexivity.
  - destruct (Ascii.eqb_spec c sep) as [->|Hne].
    + intros [<-|Hin]; [reflexivity | now apply IH].
    + destruct (JS.split sep s) as [|y ys] eqn:E.
      * intros [<-|[]]. simpl.
        destruct (Ascii.eqb_spec c sep); [congruence | reflexivity].
      * intros [<-|Hin].
        -- simpl. destruct (Ascii.eqb_spec c sep); [congruence|].
           apply IH. now left.
        -- apply IH. now right.
Qed.

(** A segment of a pattern is not empty and holds no [/]. *)
Lemma segments_plain (pattern seg : string) :
  In seg (Matcher.segments pattern) ->
  list_ascii_of_string seg <> [] /\ ~ In "/"%char (list_ascii_of_string seg).
Proof.
  unfold Matcher.segments. intros Hin. apply filter_In in Hin as [Hin Ht].
  split.
  - destruct seg; [discriminate Ht | discriminate].
  - apply hasChar_chars. eapply split_no_sep, Hin.
Qed.

Lemma app_eq_snoc {A} (p s s0 : list A) a :
  (p ++ s)%list = (s0 ++ [a])%list ->
  (s = [] /\ p = (s0 ++ [a])%list) \/
  exists s', s = (s' ++ [a])%list /\ s0 = (p ++ s')%list.
Proof.
  intros E. destruct s as [|b s' _] using rev_ind.
  - left. now rewrite app_nil_r in E.
  - right. rewrite app_assoc in E. apply app_inj_tail in E as [<- ->]. eauto.
Qed.

(** A run that is not empty and holds no [/] does not end a string that
    ends in [/]. *)
Lemma no_slash_last (v s0 : list ascii) :
  v <> [] -> ~ In "/"%char v -> ("/"%char :: v)%list <> (s0 ++ ["/"%char])%list.
Proof.
  intros Hne Hv E. destruct v as [|x v' _] using rev_ind; [congruence|].
  rewrite app_comm_cons in E. apply app_inj_tail in E as [_ ->].
  apply Hv, in_or_app. right. now left.
Qed.

(** The segments accept a string that ends in [/] also without it. *)
Lemma accept_strip (segs : list string) (t : list ascii) :
  segmentsAccept segs t ->
  (forall seg, In seg segs ->
     list_ascii_of_string seg <> [] /\
     ~ In "/"%char (list_ascii_of_string seg)) ->
  forall s0, t = (s0 ++ ["/"%char])%list -> segmentsAccept segs s0.
Proof.
  induction 1 as [|seg segs s Hk Hs IH|seg segs v s Hk Hne Hv Hs IH
                  |seg segs s Hk Hopt Hs IH|seg segs run s Hk Hrun Hs IH
                  |seg segs s Hk Hs IH]; intros Hok s0 E.
  - destruct s0; discriminate E.
  - rewrite app_comm_cons in E.
    apply app_eq_snoc in E as [[-> E]|(s' & -> & ->)].
    + exfalso. destruct (Hok seg (or_introl eq_refl)) as [Hne Hns].
      now apply (no_slash_last _ s0 Hne Hns).
    + apply accept_static; [assumption|].
      apply IH; [intros; apply Hok; now right | reflexivity].
  - rewrite app_comm_cons in E.
    apply app_eq_snoc in E as [[-> E]|(s' & -> & ->)].
    + exfalso. now apply (no_slash_last _ s0 Hne Hv).
    + apply accept_param; try assumption.
      apply IH; [intros; apply Hok; now right | reflexivity].
  - apply accept_param_absent; try assumption.
    apply IH; [intros; apply Hok; now right | assumption].
  - rewrite app_comm_cons in E.
    apply app_eq_snoc in E as [[-> E]|(s' & -> & ->)].
    + destruct run as [|x run' _] using rev_ind.
      * change ["/"%char] with ([] ++ ["/"%char])%list in E.
        apply app_inj_tail in E as [<- _].
        now apply accept_wildcard_absent.
      * rewrite app_comm_cons in E. apply app_inj_tail in E as [<- ->].
        rewrite <- (app_nil_r run'). apply accept_wildcard; try assumption.
        now apply List.Forall_app in Hrun as [? _].
    + apply accept_wildcard; try assumption.
      apply IH; [intros; apply Hok; now right | reflexivity].
  - apply accept_wildcard_absent; [assumption|].
    apply IH; [intros; apply Hok; now right | assumption].
Qed.

Lemma lastChar_chars (s : string) c :
  JS.lastChar s = Some c <-> exists l, list_ascii_of_string s = (l ++ [c])%list.
Proof.
  induction s as [|d s IH].
  - split; [discriminate | intros (l & E); destruct l; discriminate E].
  - destruct s as [|e s].
    + simpl. split.
      * intros [= ->]. now exists [].
      * intros (l & E). destruct l as [|x [|y l]]; simpl in E;
          [congruence | discriminate E | discriminate E].
    + change (JS.lastChar (String d (String e s)))
        with (JS.lastChar (String e s)).
      rewrite IH. split.
      * intros (l & E). exists (d :: l). simpl in *. now rewrite E.
      * intros (l & E). destruct l as [|x l]; [discriminate E|].
        injection E as -> E. eauto.
Qed.

Lemma endsWithChar_false (s : string) c :
  JS.endsWithChar s c = false ->
  forall l, list_ascii_of_string s <> (l ++ [c])%list.
Proof.
  unfold JS.endsWithChar. intros H l E.
  assert (Hl : JS.lastChar s = Some c) by (apply lastChar_chars; eauto).
  rewrite Hl, Ascii.eqb_refl in H. discriminate.
Qed.

(** A compiled route accepts a path with a slash added at its end
    exactly when it accepts the path. *)
Lemma compiled_trailing_slash (r : ManifestRoute) c (path : string) :
  Matcher.compileRoute r = Some c ->
  JS.endsWithChar path "/" = false ->
  RegExp.test (Matcher.regex c) (path ++ "/")
  = RegExp.test (Matcher.regex c) path.
Proof.
  unfold Matcher.compileRoute, Matcher.compilePattern.
  rewrite compilePattern_terms. intros [= <-] Hend. simpl.
  apply eq_true_iff_eq. rewrite !pattern_terms_accept, chars_app. simpl.
  unfold patternAccepts. split.
  - intros (s & Hs & [E|E]).
    + exists (list_ascii_of_string path). split; [|now left].
      subst s. eapply accept_strip; [exact Hs | | reflexivity].
      intros seg. apply segments_plain.
    + apply app_inj_tail in E as [-> _]. exists s. auto.
  - intros (s & Hs & [E|E]).
    + exists s. split; [assumption|]. right. now rewrite E.
    + exfalso. now apply (endsWithChar_false _ _ Hend s).
Qed.

Lemma hasChar_app c (a b : string) :
  JS.hasChar c (a ++ b) = JS.hasChar c a || JS.hasChar c b.
Proof.
  induction a as [|d a IH]; [reflexivity|].
  change (String d a ++ b) with (String d (a ++ b)). simpl.
  now rewrite IH, orb_assoc.
Qed.

Lemma normalizePath_plain (host : Host) (url : string) :
  JS.hasChar "?" url = false -> JS.hasChar "#" url = false ->
  JS.hasChar "%" url = false ->
  Matcher.normalizePath host url = url.
Proof.
  intros Hq Hh Hp. unfold Matcher.normalizePath, Matcher.decodeURI.
  rewrite (beforeFirst_absent "#"), (beforeFirst_absent "?") by assumption.
  now rewrite Hp.
Qed.

(** X12. A trailing slash does not change the route: for a URL without
    query string, hash and percent escape that does not end in [/],
    [match] finds for the URL with a [/] added the route it finds for
    the URL itself. *)
Theorem match_ignores_trailing_slash (host : Host) (config : Force10Config)
        (routes : list ManifestRoute) (url : string) :
  JS.hasChar "?" url = false ->
  JS.hasChar "#" url = false ->
  JS.hasChar "%" url = false ->
  JS.endsWithChar url "/" = false ->
  exists m,
    Matcher.createMatcher host routes config = Some m /\
    option_map mr_route (match_ m (url ++ "/")) =
    option_map mr_route (match_ m url).
Proof.
  intros Hq Hh Hp Hend.
  destruct (createMatcher_total host routes config)
    as (compiled & regexes & Hall & _ & ->).
  destruct (compiled_sound host routes compiled Hall) as [_ Hsound].
  rewrite List.Forall_forall in Hsound.
  eexists. split; [reflexivity|]. simpl. unfold Matcher.matchCompiled.
  rewrite !normalizePath_plain
    by (rewrite ?hasChar_app, ?Hq, ?Hh, ?Hp; reflexivity || assumption).
  rewrite (find_ext_In
             (fun c => RegExp.test (Matcher.regex c) (url ++ "/"))
             (fun c => RegExp.test (Matcher.regex c) url)).
  - now destruct (find _ (Matcher.sortBySpecificity compiled)).
  - intros c Hin. eapply compiled_trailing_slash; [|assumption].
    apply Hsound. eapply Permutation_in; [apply sort_Permutation | exact Hin].
Qed.

Lemma match_ignores_trailing_slash_witness :
  JS.hasChar "?" "/users/7" = false /\
  JS.hasChar "#" "/users/7" = false /\
  JS.hasChar "%" "/users/7" = false /\
  JS.endsWithChar "/users/7" "/" = false /\
  exists m,
    Matcher.createMatcher stubHost [usersShow; usersCreate] defaultConfig
      = Some m /\
    option_map mr_route (match_ m ("/users/7" ++ "/")) =
    option_map mr_route (match_ m "/users/7").
Proof.
  assert (Hq : JS.hasChar "?" "/users/7" = false) by reflexivity.
  assert (Hh : JS.hasChar "#" "/users/7" = false) by reflexivity.
  assert (Hp : JS.hasChar "%" "/users/7" = false) by reflexivity.
  assert (He : JS.endsWithChar "/users/7" "/" = false) by reflexivity.
  split; [exact Hq|]. split; [exact Hh|]. split; [exact Hp|].
  split; [exact He|].
  exact (match_ignores_trailing_slash stubHost defaultConfig
           [usersShow; usersCreate] "/users/7" Hq Hh Hp He).
Defined.

(** ** Interceptor: reachable states *)

Section InterceptorCoverage.

Variable host : Host.
Variable config : Force10Config.
Variable matcher : Force10Matcher.
Variable navigatorPreflight : bool.
Variable patchPreflight : bool.

Lemma callCancel_preflight w :
  preflightData (callCancelPending w) = preflightData w.
Proof.
  unfold callCancelPending. destruct (cancelPendingBackground w);
    [apply cancel_preflight | reflexivity].
Qed.

Lemma store_optimisticNavigate m options now w :
  store (optimisticNavigate config m options now w) = store w.
Proof.
  unfold optimisticNavigate. now destruct (isTrue (opt replace options)).
Qed.

Lemma store_visitAfterCancel win href options now w :
  store (visitAfterCancel host config matcher navigatorPreflight
           patchPreflight win href options now w) = store w.
Proof.
  unfold visitAfterCancel.
  destruct (classify _ _ _ _ _ _ _ _ _ _); try reflexivity.
  now rewrite store_optimisticNavigate.
Qed.

Lemma store_patchedVisit win href options now w :
  store (patchedVisit host config matcher navigatorPreflight
           patchPreflight win href options now w) = store w.
Proof.
  unfold patchedVisit. now rewrite store_visitAfterCancel, callCancel_store.
Qed.

Lemma store_markFired i w : store (markFired i w) = store w.
Proof. unfold markFired. now destruct (navs w !! i). Qed.

Lemma store_fireBackground i w : store (fireBackground i w) = store w.
Proof.
  unfold fireBackground. destruct (navs w !! i) as [n|]; [|reflexivity].
  destruct (backgroundFired n); [reflexivity|]. simpl. apply store_markFired.
Qed.

Lemma store_fire_all (l : list nat) w :
  store (fold_left (fun w' i => fireBackground i w') l w) = store w.
Proof.
  revert w. induction l as [|i l IH]; intros w; simpl; [reflexivity|].
  now rewrite IH, store_fireBackground.
Qed.

Lemma store_callerOnError options w :
  store (callerOnError options w) = store w.
Proof. unfold callerOnError. now destruct (opt onError options). Qed.

Lemma invalidateAll_ok (patterns : list string) (st : Cache.Store) :
  storeOk config st -> storeOk config (fst (invalidateAll patterns st)).
Proof.
  revert st. induction patterns as [|p patterns IH]; intros st Hok; simpl.
  - assumption.
  - pose proof (invalidate_ok config p st Hok) as Hp.
    destruct (Cache.invalidateByPattern p st) as [st'|]; simpl in *.
    + now apply IH.
    + assumption.
Qed.

(** One event from a state whose store is within its bound. *)
Lemma step_ok ev w :
  0 <= cache_maxEntries config ->
  storeOk config (store w) ->
  exists w', step host config matcher navigatorPreflight patchPreflight ev w
             = Some w' /\ storeOk config (store w').
Proof.
  intros Hmax Hok.
  destruct ev as [win href options now| |i|i|cb page now|cb| |]; simpl.
  - eexists. split; [reflexivity|]. now rewrite store_patchedVisit.
  - eexists. split; [reflexivity|]. now rewrite store_fire_all.
  - destruct (existsb _ (timers w)); eexists; (split; [reflexivity|]);
      [now rewrite store_fireBackground | assumption].
  - eexists. split; [reflexivity|]. now rewrite store_fireBackground.
  - destruct cb as [id|i|i|p|p]; try (eexists; split; [reflexivity|assumption]).
    + unfold backgroundOnSuccess.
      destruct (navs w !! i) as [n|]; [|eexists; split; [reflexivity|assumption]].
      set (w0 := if patchPreflight then feedPreflight page w else w).
      assert (Hst : store w0 = store w)
        by (unfold w0; destruct patchPreflight;
            [apply feedPreflight_store | reflexivity]).
      destruct (negb (String.eqb (pg_component page)
                        (component (mr_route (nc_match n))))).
      * eexists. split; [reflexivity|]. simpl.
        rewrite (proj1 (callerOnSuccess_store _ _ _)). simpl. rewrite Hst.
        now apply remove_ok.
      * destruct (set_ok config (mr_url (nc_match n)) (cachedPageOf page now)
                    (store w0)) as (st & -> & Hst');
          [assumption | rewrite Hst; apply Hok|].
        pose proof (invalidateAll_ok
                      (default [] (force10_server_invalidate (pg_props page)))
                      st Hst') as Hinv.
        destruct (invalidateAll _ st) as [st' []]; simpl in *.
        -- eexists. split; [reflexivity|]. simpl.
           now rewrite (proj1 (callerOnSuccess_store _ _ _)).
        -- eexists. split; [reflexivity|]. assumption.
    + unfold passthroughOnSuccess.
      destruct (passes w !! p) as [c|]; [|eexists; split; [reflexivity|assumption]].
      destruct (String.eqb (pg_component page) (component (mr_route (pc_match c)))).
      * destruct (set_ok config (mr_url (pc_match c)) (cachedPageOf page now)
                    (store (feedPreflight page w))) as (st & -> & Hst');
          [assumption | rewrite feedPreflight_store; apply Hok|].
        eexists. split; [reflexivity|].
        now rewrite (proj1 (callerOnSuccess_store _ _ _)).
      * eexists. split; [reflexivity|].
        now rewrite (proj1 (callerOnSuccess_store _ _ _)), feedPreflight_store.
  - destruct cb as [id|i|i|p|p]; try (eexists; split; [reflexivity|assumption]).
    + eexists. split; [reflexivity|]. unfold backgroundOnError.
      destruct (navs w !! i); [|assumption]. now rewrite store_callerOnError.
    + eexists. split; [reflexivity|]. unfold passthroughOnError.
      destruct (passes w !! p); [|assumption]. now rewrite store_callerOnError.
  - eexists. split; [reflexivity|]. unfold removePatch.
    now rewrite callCancel_store.
  - eexists. split; [reflexivity|]. assumption.
Qed.

(** X13. With a cache bound that is not negative the engine never
    hangs, and the cache stays within its bound whatever happens: after
    every sequence of calls of the patched [visit], ['navigate'] events,
    timers, server responses and errors, [remove()] and [apply()], the
    store holds one entry per URL and at most [maxEntries] entries. *)
Theorem engine_keeps_the_cache_bound (evs : list Event) :
  0 <= cache_maxEntries config ->
  exists w,
    run host config matcher navigatorPreflight patchPreflight evs initialWorld
      = Some w /\
    NoDup (Cache.storeKeys (store w)) /\
    Cache.storeSize (store w) <= cache_maxEntries config.
Proof.
  intros Hmax.
  assert (Hrun : forall evs w, storeOk config (store w) ->
            exists w', run host config matcher navigatorPreflight
                         patchPreflight evs w = Some w' /\
                       storeOk config (store w')).
  { clear evs. induction evs as [|ev evs IH]; intros w Hok; simpl.
    - eauto.
    - destruct (step_ok ev w Hmax Hok) as (w1 & -> & Hok1). now apply IH. }
  destruct (Hrun evs initialWorld) as (w & Hw & Hok).
  - split; [constructor | unfold Cache.storeSize; simpl; assumption].
  - exists w. split; [assumption | exact Hok].
Qed.

End InterceptorCoverage.

Lemma engine_keeps_the_cache_bound_witness :
  0 <= cache_maxEntries defaultConfig /\
  exists w,
    run stubHost defaultConfig usersMatcher false false
      [EvVisit (Some dashboardWindow) (HrefString "/users") None 0;
       EvNavigate;
       EvSuccess (BackgroundOnSuccess 0) usersPageOne 7] initialWorld
    = Some w /\
    NoDup (Cache.storeKeys (store w)) /\
    Cache.storeSize (store w) <= cache_maxEntries defaultConfig.
Proof.
  assert (Hmax : 0 <= cache_maxEntries defaultConfig) by (simpl; lia).
  split; [exact Hmax|].
  exact (engine_keeps_the_cache_bound stubHost defaultConfig usersMatcher
           false false _ Hmax).
Defined.

(** ** Interceptor: when it steps aside and when it renders *)

Section InterceptorConduct.

Variable host : Host.
Variable config : Force10Config.
Variable matcher : Force10Matcher.
Variable navigatorPreflight : bool.
Variable patchPreflight : bool.

(** What the interceptor has checked when it decides to render. *)
Lemma classifyPath_optimistic win urlPath options now w m :
  classifyPath config matcher navigatorPreflight patchPreflight
               win urlPath options now w = Optimistic m ->
  nonGet options = false /\
  match_ matcher urlPath = Some m /\
  shouldOptimisticallyNavigate config navigatorPreflight win m now w = true /\
  (patchPreflight = true ->
   is_Some (Cache.getOrStale config now (mr_url m) (store w)) \/
   Preflight.check (preflightData w) now (middleware (mr_route m)) <> None).
Proof.
  unfold classifyPath. destruct (nonGet options); [discriminate|].
  destruct (match_ matcher urlPath) as [m'|]; [|discriminate].
  destruct (shouldOptimisticallyNavigate _ _ _ m' _ _) eqn:Hs;
    [|discriminate]. simpl.
  destruct (Cache.getOrStale config now (mr_url m') (store w)) as [c|] eqn:Hc.
  - simpl. intros [= <-]. rewrite Hc. repeat split; eauto.
  - rewrite bool_decide_eq_false_2 by (intros [x Hx]; discriminate Hx). simpl.
    destruct patchPreflight; simpl.
    + destruct (bool_decide_reflect
                  (Preflight.check (preflightData w) now
                     (middleware (mr_route m')) = None)) as [E|E];
        [discriminate|].
      intros [= <-]. rewrite Hc. repeat split; auto.
    + intros [= <-]. repeat split; auto; discriminate.
Qed.

Lemma classify_optimistic win href options now w m :
  classify host config matcher navigatorPreflight patchPreflight
           win href options now w = Optimistic m ->
  JS.startsWith (hrefPath href) "#" = false /\
  (forall wd pg, win = Some wd -> history_page wd = Some pg ->
                 pg_url pg <> hrefPath href) /\
  exists urlPath,
    classifyPath config matcher navigatorPreflight patchPreflight
                 win urlPath options now w = Optimistic m.
Proof.
  unfold classify. fold (hrefPath href).
  destruct (JS.startsWith (hrefPath href) "#"); [discriminate|].
  destruct (bool_decide_reflect
              (match win with
               | Some wd => option_map pg_url (history_page wd)
               | None => None
               end = Some (hrefPath href))) as [E|E]; [discriminate|].
  intros H. split; [reflexivity|]. split.
  - intros wd pg -> Hpg Hurl. apply E. rewrite Hpg. simpl. now rewrite Hurl.
  - destruct (JS.startsWith (hrefPath href) "http://"
              || JS.startsWith (hrefPath href) "https://").
    + destruct (newURL host (hrefPath href)) as [u|]; [|discriminate].
      destruct (negb (String.eqb (origin u) _)); [discriminate|]. eauto.
    + eauto.
Qed.

Lemma classify_optimistic_path win href options now w m :
  classify host config matcher navigatorPreflight patchPreflight
           win href options now w = Optimistic m ->
  exists urlPath,
    visitedPath host win href = Some urlPath /\
    classifyPath config matcher navigatorPreflight patchPreflight
                 win urlPath options now w = Optimistic m.
Proof.
  unfold classify, visitedPath. fold (hrefPath href). fold (currentOrigin win).
  destruct (JS.startsWith (hrefPath href) "#"); [discriminate|].
  destruct (bool_decide _); [discriminate|].
  destruct (JS.startsWith (hrefPath href) "http://"
            || JS.startsWith (hrefPath href) "https://").
  - destruct (newURL host (hrefPath href)) as [u|]; [|discriminate].
    destruct (String.eqb (origin u) (currentOrigin win)); [|discriminate].
    simpl. eauto.
  - eauto.
Qed.

Lemma shouldOptimisticallyNavigate_true win m now w :
  shouldOptimisticallyNavigate config navigatorPreflight win m now w = true ->
  enabled config = true /\
  (navigatorPreflight = true ->
   Preflight.check (preflightData w) now (middleware (mr_route m))
   <> Some false) /\
  (JS.includes (middleware (mr_route m)) "auth" = true ->
   currentUser win = true).
Proof.
  unfold shouldOptimisticallyNavigate.
  destruct (enabled config); simpl; [|discriminate].
  destruct navigatorPreflight; simpl.
  - destruct (bool_decide_reflect
                (Preflight.check (preflightData w) now
                   (middleware (mr_route m)) = Some false)) as [E|E];
      [discriminate|].
    destruct (JS.includes (middleware (mr_route m)) "auth"); intros H;
      repeat split; auto; discriminate.
  - destruct (JS.includes (middleware (mr_route m)) "auth"); intros H;
      repeat split; auto; discriminate.
Qed.

(** X14. Every call of the patched [visit] makes exactly one call to
    the host: the original [visit] with the caller's own [href], or one
    [router.push] / [router.replace]. It renders through [push] or
    [replace] only when the engine is enabled, the request is a GET,
    the target is neither a hash nor the current page, the matcher
    has a route for the target's path (the [href]'s own, or for an
    absolute [http(s)] URL of the window's origin its [pathname]),
    the route's guards do not forbid it (a route behind [auth] has a
    user on the current page and, where the navigator was given the
    preflight evaluator, [check] does not answer false), and, where
    the interceptor was given the evaluator, the page is cached or
    [check] has an answer; the page rendered is that route's component
    under the URL of the matcher's result. *)
Theorem rendering_is_guarded (win : option Window) (href : Href)
        (options : option (VisitOptions nat)) (now : Z) (w : World) :
  let w' := patchedVisit host config matcher navigatorPreflight
                         patchPreflight win href options now w in
  exists e,
    trace w' = (trace w ++ [e])%list /\
    (renderedPage e = None -> exists o, e = OriginalVisit href o) /\
    (forall page,
       renderedPage e = Some page ->
       enabled config = true /\
       nonGet options = false /\
       JS.startsWith (hrefPath href) "#" = false /\
       (forall wd pg, win = Some wd -> history_page wd = Some pg ->
                      pg_url pg <> hrefPath href) /\
       exists urlPath m,
         visitedPath host win href = Some urlPath /\
         match_ matcher urlPath = Some m /\
         pp_component page = component (mr_route m) /\
         pp_url page = mr_url m /\
         (JS.includes (middleware (mr_route m)) "auth" = true ->
          currentUser win = true) /\
         (navigatorPreflight = true ->
          Preflight.check (preflightData w) now (middleware (mr_route m))
          <> Some false) /\
         (patchPreflight = true ->
          is_Some (Cache.getOrStale config now (mr_url m) (store w)) \/
          Preflight.check (preflightData w) now (middleware (mr_route m))
          <> None)).
Proof.
  intros w'. subst w'. unfold patchedVisit, visitAfterCancel.
  set (w0 := callCancelPending w).
  assert (Htr : trace w0 = trace w) by apply callCancel_trace.
  assert (Hst : store w0 = store w) by apply callCancel_store.
  assert (Hpf : preflightData w0 = preflightData w)
    by apply callCancel_preflight.
  destruct (classify host config matcher navigatorPreflight patchPreflight
              win href options now w0) as [| | | | | | |m|m] eqn:Hd;
    try (eexists; simpl; rewrite Htr; split; [reflexivity|];
         split; [eauto | discriminate]).
  pose proof (classify_optimistic_path _ _ _ _ _ _ Hd) as (urlPath & Hpath & Hd').
  apply classify_optimistic in Hd as (Hhash & Hsame & _).
  apply classifyPath_optimistic in Hd' as (Hget & Hm & Hs & Hgate).
  apply shouldOptimisticallyNavigate_true in Hs as (Hen & Hpre & Hauth).
  rewrite Hst, Hpf in *.
  unfold optimisticNavigate. cbv zeta.
  destruct (isTrue (opt replace options));
    (eexists; simpl; rewrite Htr; split; [reflexivity|];
     split; [discriminate|]; intros page [= <-]; simpl;
     split; [assumption|]; split; [assumption|]; split; [assumption|];
     split; [assumption|]; exists urlPath, m; repeat split; auto).
Qed.

(** A disabled engine intercepts nothing. *)
Lemma disabled_visit win href options now w :
  enabled config = false ->
  visitAfterCancel host config matcher navigatorPreflight patchPreflight
                   win href options now w
  = emit (OriginalVisit href (option_map untouched options)) w.
Proof.
  intros Hoff. unfold visitAfterCancel.
  destruct (classify host config matcher navigatorPreflight patchPreflight
              win href options now w) as [| | | | | | |m|m] eqn:Hd;
    try reflexivity; exfalso.
  - unfold classify in Hd.
    assert (Hp : forall urlPath,
               classifyPath config matcher navigatorPreflight patchPreflight
                            win urlPath options now w <> Passthrough m).
    { intros urlPath. unfold classifyPath, shouldOptimisticallyNavigate.
      rewrite Hoff. simpl. destruct (nonGet options); [discriminate|].
      destruct (match_ matcher urlPath); discriminate. }
    destruct (JS.startsWith _ "#"); [discriminate|].
    destruct (bool_decide _); [discriminate|].
    destruct (JS.startsWith _ "http://" || JS.startsWith _ "https://").
    + destruct (newURL host _) as [u|]; [|discriminate].
      destruct (negb (String.eqb (origin u) _)); [discriminate|].
      now apply Hp in Hd.
    + now apply Hp in Hd.
  - apply classify_optimistic in Hd as (_ & _ & urlPath & Hd).
    apply classifyPath_optimistic in Hd as (_ & _ & Hs & _).
    apply shouldOptimisticallyNavigate_true in Hs as (Hen & _). congruence.
Qed.

Lemma disabled_step ev w :
  enabled config = false -> idle w ->
  exists w',
    step host config matcher navigatorPreflight patchPreflight ev w = Some w' /\
    idle w' /\ trace w' = (trace w ++ passedThrough [ev])%list.
Proof.
  intros Hoff (Hn & Hp & Hc & Hl & Ht & Hs & Hload).
  destruct ev as [win href options now| |i|i|cb page now|cb| |]; simpl.
  - eexists. split; [reflexivity|]. unfold patchedVisit, callCancelPending.
    rewrite Hc, disabled_visit by assumption. simpl.
    split; [repeat split; assumption | reflexivity].
  - rewrite Hl. simpl. eexists. split; [reflexivity|].
    split; [repeat split; assumption | now rewrite app_nil_r].
  - rewrite Ht. simpl. eexists. split; [reflexivity|].
    split; [repeat split; assumption | now rewrite app_nil_r].
  - rewrite fire_missing by now rewrite Hn.
    eexists. split; [reflexivity|].
    split; [repeat split; assumption | now rewrite app_nil_r].
  - assert (Hsame : exists w',
              match cb with
              | BackgroundOnSuccess i =>
                  option_map fst (backgroundOnSuccess config patchPreflight
                                    i page now w)
              | PassthroughOnSuccess p =>
                  passthroughOnSuccess config p page now w
              | _ => Some w
              end = Some w' /\ w' = w).
    { destruct cb as [id|i|i|p|p]; try (now exists w).
      - unfold backgroundOnSuccess. rewrite Hn. now exists w.
      - unfold passthroughOnSuccess. rewrite Hp. now exists w. }
    destruct Hsame as (w' & -> & ->). eexists. split; [reflexivity|].
    split; [repeat split; assumption | now rewrite app_nil_r].
  - assert (Hsame : match cb with
                    | BackgroundOnError i => Some (backgroundOnError i w)
                    | PassthroughOnError p => Some (passthroughOnError p w)
                    | _ => Some w
                    end = Some w).
    { destruct cb as [id|i|i|p|p]; try reflexivity.
      - unfold backgroundOnError. now rewrite Hn.
      - unfold passthroughOnError. now rewrite Hp. }
    rewrite Hsame. eexists. split; [reflexivity|].
    split; [repeat split; assumption | now rewrite app_nil_r].
  - eexists. split; [reflexivity|]. unfold removePatch, callCancelPending.
    simpl. rewrite Hc. simpl.
    split; [repeat split; assumption | now rewrite app_nil_r].
  - eexists. split; [reflexivity|]. simpl.
    split; [repeat split; assumption | now rewrite app_nil_r].
Qed.

(** X15. With [enabled: false] the patched [visit] is the original
    one: whatever calls and events reach the engine, each call of the
    patched [visit] hands its own arguments to the original [visit] and
    nothing else reaches the host; nothing is ever rendered
    optimistically, cached or left pending, and the loading flag stays
    off. *)
Theorem disabled_engine_is_transparent (evs : list Event) :
  enabled config = false ->
  exists w,
    run host config matcher navigatorPreflight patchPreflight evs initialWorld
      = Some w /\
    trace w = passedThrough evs /\
    store w = [] /\ isLoading w = false /\
    navs w = [] /\ listeners w = [] /\ timers w = [].
Proof.
  intros Hoff.
  assert (Hrun : forall evs w, idle w ->
            exists w', run host config matcher navigatorPreflight
                         patchPreflight evs w = Some w' /\
                       idle w' /\
                       trace w' = (trace w ++ passedThrough evs)%list).
  { clear evs. induction evs as [|ev evs IH]; intros w Hidle; simpl.
    - exists w. split; [reflexivity|]. split; [assumption|].
      now rewrite app_nil_r.
    - destruct (disabled_step ev w Hoff Hidle) as (w1 & -> & Hidle1 & Ht1).
      destruct (IH w1 Hidle1) as (w2 & Hw2 & Hidle2 & Ht2).
      exists w2. split; [assumption|]. split; [assumption|].
      rewrite Ht2, Ht1. simpl in *. rewrite app_nil_r in *.
      now rewrite <- app_assoc. }
  destruct (Hrun evs initialWorld) as (w & Hw & Hidle & Ht).
  - repeat split.
  - destruct Hidle as (Hn & Hp & Hc & Hl & Hti & Hs & Hload).
    exists w. simpl in Ht. repeat split; assumption.
Qed.

End InterceptorConduct.

Lemma disabled_engine_is_transparent_witness :
  enabled disabledConfig = false /\
  exists w,
    run stubHost disabledConfig usersMatcher false false
      [EvVisit (Some dashboardWindow) (HrefString "/users") None 0;
       EvNavigate] initialWorld = Some w /\
    trace w = [OriginalVisit (HrefString "/users") None] /\
    store w = [] /\ isLoading w = false.
Proof.
  split; [reflexivity|].
  destruct (disabled_engine_is_transparent stubHost disabledConfig
              usersMatcher false false
              [EvVisit (Some dashboardWindow) (HrefString "/users") None 0;
               EvNavigate] eq_refl)
    as (w & Hw & Ht & Hs & Hl & _).
  exists w. repeat split; assumption.
Defined.

(** ** Interceptor: the cache-gated passthrough and a failing handler *)

Section InterceptorHandlers.

Variable host : Host.
Variable config : Force10Config.
Variable matcher : Force10Matcher.
Variable navigatorPreflight : bool.
Variable patchPreflight : bool.

Lemma cancel_passes i w : passes (cancelClosure i w) = passes w.
Proof.
  unfold cancelClosure. destruct (navs w !! i) as [n|]; [|reflexivity].
  destruct (backgroundFired n); simpl; [reflexivity|].
  unfold markFired. now destruct (navs w !! i).
Qed.

Lemma callCancel_passes w : passes (callCancelPending w) = passes w.
Proof.
  unfold callCancelPending. destruct (cancelPendingBackground w);
    [apply cancel_passes | reflexivity].
Qed.

(** The interceptor gates a call only where the cache has no entry. *)
Lemma classify_passthrough win href options now w m :
  classify host config matcher navigatorPreflight patchPreflight
           win href options now w = Passthrough m ->
  Cache.getOrStale config now (mr_url m) (store w) = None.
Proof.
  assert (Hp : forall urlPath,
             classifyPath config matcher navigatorPreflight patchPreflight
                          win urlPath options now w = Passthrough m ->
             Cache.getOrStale config now (mr_url m) (store w) = None).
  { intros urlPath. unfold classifyPath.
    destruct (nonGet options); [discriminate|].
    destruct (match_ matcher urlPath) as [m'|]; [|discriminate].
    destruct (negb (shouldOptimisticallyNavigate _ _ _ m' _ _));
      [discriminate|].
    destruct (Cache.getOrStale config now (mr_url m') (store w)) as [c|] eqn:Hc.
    - rewrite bool_decide_eq_true_2 by eauto. discriminate.
    - destruct (_ && _ && _); [|discriminate]. now intros [= <-]. }
  unfold classify. destruct (JS.startsWith _ "#"); [discriminate|].
  destruct (bool_decide _); [discriminate|].
  destruct (JS.startsWith _ "http://" || JS.startsWith _ "https://").
  - destruct (newURL host _) as [u|]; [|discriminate].
    destruct (negb (String.eqb (origin u) _)); [discriminate|]. apply Hp.
  - apply Hp.
Qed.

Lemma callerOnSuccess_trace options page w :
  trace (callerOnSuccess options page w) =
    (trace w ++ match opt onSuccess options with
                | Some cb => [CallerSuccess cb page]
                | None => []
                end)%list.
Proof.
  unfold callerOnSuccess. destruct (opt onSuccess options); simpl;
    [reflexivity | now rewrite app_nil_r].
Qed.

Lemma feedPreflight_rest page w :
  trace (feedPreflight page w) = trace w /\
  passes (feedPreflight page w) = passes w /\
  isLoading (feedPreflight page w) = isLoading w.
Proof.
  unfold feedPreflight. now destruct (force10_preflight (pg_props page)).
Qed.

(** X16. A call the interceptor gates (no cached entry, no preflight
    opinion) goes to the original [visit] with the caller's options and
    wrapped callbacks, and nothing is rendered. When its response names
    the predicted component, the handler stores the page under the
    matched URL and calls the caller's [onSuccess] once; in a state
    whose cache holds an entry under that URL, as this one does, a call
    for the URL is not gated. When the response names another component
    the cache is left as it was and the caller's [onSuccess] is still
    called. *)
Theorem passthrough_seeds_the_cache (win : option Window) (href : Href)
        (options : option (VisitOptions nat)) (now : Z) (w : World)
        (m : MatchResult) :
  classify host config matcher navigatorPreflight patchPreflight
           win href options now (callCancelPending w) = Passthrough m ->
  NoDup (Cache.storeKeys (store w)) ->
  1 <= cache_maxEntries config ->
  let p := length (passes w) in
  let w1 := patchedVisit host config matcher navigatorPreflight
                         patchPreflight win href options now w in
  let called := match opt onSuccess options with
                | Some cb => fun page => [CallerSuccess cb page]
                | None => fun _ => []
                end in
  trace w1 = (trace w ++ [OriginalVisit href
                            (Some (passthroughOptions p options))])%list /\
  Cache.getOrStale config now (mr_url m) (store w) = None /\
  forall page now',
    (pg_component page = component (mr_route m) ->
     exists w2,
       passthroughOnSuccess config p page now' w1 = Some w2 /\
       Cache.storeGet (mr_url m) (store w2) = Some (cachedPageOf page now') /\
       trace w2 = (trace w1 ++ called page)%list /\
       forall w3,
         is_Some (Cache.storeGet (mr_url m) (store w3)) ->
         forall win' href' options' now'' m',
           classify host config matcher navigatorPreflight patchPreflight
                    win' href' options' now'' w3 = Passthrough m' ->
           mr_url m' <> mr_url m) /\
    (pg_component page <> component (mr_route m) ->
     exists w2,
       passthroughOnSuccess config p page now' w1 = Some w2 /\
       store w2 = store w /\
       trace w2 = (trace w1 ++ called page)%list).
Proof.
  intros Hd Hnd Hmax p w1 called.
  assert (Hnone := classify_passthrough _ _ _ _ _ _ Hd).
  rewrite callCancel_store in Hnone.
  subst w1. unfold patchedVisit, visitAfterCancel. rewrite Hd.
  rewrite callCancel_passes. fold p. simpl.
  rewrite callCancel_trace. split; [reflexivity|]. split; [assumption|].
  intros page now'. unfold passthroughOnSuccess. simpl.
  rewrite list_lookup_middle by reflexivity.
  simpl. destruct (feedPreflight_rest page
                     (emit (OriginalVisit href (Some (passthroughOptions p options)))
                        (setPasses (passes w ++ [{| pc_options := options;
                                                    pc_match := m |}])
                                   (callCancelPending w))))
    as (Htr & _ & _).
  rewrite feedPreflight_store. simpl. rewrite callCancel_store.
  assert (Hcalled : forall page0 w0,
            trace (callerOnSuccess options page0 w0)
            = (trace w0 ++ called page0)%list).
  { intros page0 w0. rewrite callerOnSuccess_trace. unfold called.
    now destruct (opt onSuccess options). }
  split.
  - intros Hc. rewrite Hc, String.eqb_refl.
    destruct (set_then_get config (mr_url m) (cachedPageOf page now')
                (store w) Hmax Hnd) as (st & -> & Hget).
    eexists. split; [reflexivity|].
    rewrite (proj1 (callerOnSuccess_store _ _ _)). simpl.
    split; [assumption|]. split.
    + rewrite Hcalled. simpl. rewrite Htr. simpl.
      now rewrite callCancel_trace.
    + intros w3 [entry Hentry] win' href' options' now'' m' Hd' Heq.
      apply classify_passthrough in Hd'.
      unfold Cache.getOrStale in Hd'. rewrite Heq, Hentry in Hd'.
      discriminate.
  - intros Hc. apply String.eqb_neq in Hc. rewrite Hc.
    eexists. split; [reflexivity|].
    rewrite (proj1 (callerOnSuccess_store _ _ _)), feedPreflight_store. simpl.
    rewrite callCancel_store. split; [reflexivity|].
    rewrite Hcalled, Htr. simpl. now rewrite callCancel_trace.
Qed.

Lemma invalidateAll_thrown (patterns : list string) (st : Cache.Store) :
  (exists p, In p patterns /\ Cache.patternToRegex p = None) ->
  snd (invalidateAll patterns st) = Thrown.
Proof.
  revert st. induction patterns as [|q patterns IH]; intros st (p & Hin & Hp).
  - destruct Hin.
  - simpl. unfold Cache.invalidateByPattern at 1.
    destruct (Cache.patternToRegex q) as [re|] eqn:Hq; [|reflexivity].
    apply IH. destruct Hin as [->|Hin]; [congruence | eauto].
Qed.

Lemma leading_question_mark_throws (p : string) :
  JS.startsWith p "?" = true -> Cache.patternToRegex p = None.
Proof.
  intros H. apply startsWith_char in H as [r ->].
  now apply patternToRegex_None.
Qed.

(** X17. When a server response carries an invalidation pattern that
    is not a valid regular expression (one that begins with [?], say),
    the success handler of the background request throws where it
    reaches the pattern: the response is already in the cache, but the
    loading flag is not cleared and the caller's [onSuccess] is not
    called. *)
Theorem bad_invalidation_pattern_keeps_loading (i : nat) (n : NavClosure)
        (page : Page) (now : Z) (w : World) (patterns : list string) :
  navs w !! i = Some n ->
  pg_component page = component (mr_route (nc_match n)) ->
  NoDup (Cache.storeKeys (store w)) ->
  0 <= cache_maxEntries config ->
  force10_server_invalidate (pg_props page) = Some patterns ->
  (exists p, In p patterns /\ JS.startsWith p "?" = true) ->
  exists w',
    backgroundOnSuccess config patchPreflight i page now w
      = Some (w', Thrown) /\
    isLoading w' = isLoading w /\
    trace w' = trace w.
Proof.
  intros Hn Hc Hnd Hmax Hinv (p & Hin & Hp).
  unfold backgroundOnSuccess. rewrite Hn, Hc, String.eqb_refl. simpl.
  set (w0 := if patchPreflight then feedPreflight page w else w).
  assert (Hw0 : store w0 = store w /\ trace w0 = trace w /\
                isLoading w0 = isLoading w).
  { unfold w0. destruct patchPreflight; [|auto].
    destruct (feedPreflight_rest page w) as (? & _ & ?).
    now rewrite feedPreflight_store. }
  destruct Hw0 as (Hst & Htr & Hl).
  destruct (set_ok config (mr_url (nc_match n)) (cachedPageOf page now)
              (store w0)) as (st & -> & _);
    [assumption | now rewrite Hst|].
  rewrite Hinv. simpl.
  pose proof (invalidateAll_thrown patterns st) as Hthrown.
  destruct (invalidateAll patterns st) as [st' c]. simpl in Hthrown.
  rewrite Hthrown by (exists p; split;
                      [assumption | now apply leading_question_mark_throws]).
  eexists. split; [reflexivity|]. simpl. auto.
Qed.

End InterceptorHandlers.

Lemma passthrough_seeds_the_cache_witness :
  classify stubHost defaultConfig usersMatcher true true
           (Some dashboardWindow) (HrefString "/users") None 0
           (callCancelPending initialWorld)
  = Passthrough {| mr_route := usersIndex; mr_url := "/users" |} /\
  NoDup (Cache.storeKeys (store initialWorld)) /\
  1 <= cache_maxEntries defaultConfig /\
  exists w2,
    passthroughOnSuccess defaultConfig 0 usersPageOne 5
      (patchedVisit stubHost defaultConfig usersMatcher true true
                    (Some dashboardWindow) (HrefString "/users") None 0
                    initialWorld) = Some w2 /\
    Cache.storeGet "/users" (store w2) = Some (cachedPageOf usersPageOne 5).
Proof.
  assert (Hd : classify stubHost defaultConfig usersMatcher true true
                 (Some dashboardWindow) (HrefString "/users") None 0
                 (callCancelPending initialWorld)
               = Passthrough {| mr_route := usersIndex; mr_url := "/users" |})
    by (vm_compute; reflexivity).
  assert (Hnd : NoDup (Cache.storeKeys (store initialWorld)))
    by (vm_compute; constructor).
  assert (Hmax : 1 <= cache_maxEntries defaultConfig)
    by (vm_compute; discriminate).
  split; [exact Hd|]. split; [exact Hnd|]. split; [exact Hmax|].
  destruct (passthrough_seeds_the_cache stubHost defaultConfig usersMatcher
              true true _ _ _ _ _ _ Hd Hnd Hmax) as (_ & _ & Hresp).
  destruct (Hresp usersPageOne 5) as [Hsame _].
  destruct (Hsame ltac:(vm_compute; reflexivity)) as (w2 & Hw2 & Hget & _).
  exists w2. split; assumption.
Defined.

Lemma bad_invalidation_pattern_keeps_loading_witness :
  navs usersArmed !! 0%nat
    = Some {| nc_href := HrefString "/users"; nc_options := None;
              nc_match := {| mr_route := usersIndex; mr_url := "/users" |};
              backgroundFired := false |} /\
  NoDup (Cache.storeKeys (store usersArmed)) /\
  0 <= cache_maxEntries defaultConfig /\
  JS.startsWith "?page=*" "?" = true /\
  exists w',
    backgroundOnSuccess defaultConfig false 0 usersPageBadPattern 5 usersArmed
      = Some (w', Thrown) /\
    isLoading w' = true.
Proof.
  assert (Hn : navs usersArmed !! 0%nat
               = Some {| nc_href := HrefString "/users"; nc_options := None;
                         nc_match := {| mr_route := usersIndex;
                                        mr_url := "/users" |};
                         backgroundFired := false |})
    by (vm_compute; reflexivity).
  assert (Hnd : NoDup (Cache.storeKeys (store usersArmed)))
    by (vm_compute; constructor).
  assert (Hmax : 0 <= cache_maxEntries defaultConfig)
    by (vm_compute; discriminate).
  assert (Hq : JS.startsWith "?page=*" "?" = true) by (vm_compute; reflexivity).
  split; [exact Hn|]. split; [exact Hnd|]. split; [exact Hmax|].
  split; [exact Hq|].
  destruct (bad_invalidation_pattern_keeps_loading defaultConfig false 0 _
              usersPageBadPattern 5 usersArmed ["?page=*"] Hn
              ltac:(vm_compute; reflexivity) Hnd Hmax eq_refl
              (ex_intro _ "?page=*" (conj (or_introl eq_refl) Hq)))
    as (w' & Hw & Hl & _).
  exists w'. split; [exact Hw|]. rewrite Hl. vm_compute. reflexivity.
Defined.

(** ** Configuration *)

Lemma objGet_cons k k' v (o : Config.Obj) :
  Config.objGet k ((k', v) :: o) =
    if String.eqb k' k then v else Config.objGet k o.
Proof. unfold Config.objGet. simpl. now destruct (String.eqb k' k). Qed.

Lemma objGet_objSet k k' v (o : Config.Obj) :
  Config.objGet k (Config.objSet k' v o) =
    if String.eqb k' k then v else Config.objGet k o.
Proof.
  induction o as [|[k0 v0] o IH]; simpl.
  - now rewrite objGet_cons.
  - destruct (String.eqb_spec k0 k') as [->|Hne].
    + rewrite !objGet_cons. now destruct (String.eqb k' k).
    + rewrite !objGet_cons, IH.
      destruct (String.eqb_spec k0 k) as [->|]; [|reflexivity].
      destruct (String.eqb_spec k' k); [congruence | reflexivity].
Qed.




Lemma deepMerge_fold (target source : Config.Obj) (ks : list string)
      (result : Config.Obj) k :
  Config.objGet k
    (fold_left
       (fun result key =>
          match Config.objGet key source, Config.objGet key target with
          | Config.VObject so, Config.VObject to =>
              Config.objSet key (Config.VObject (Config.spread to so)) result
          | Config.VUndefined, _ => result
          | _, _ => Config.objSet key (Config.objGet key source) result
          end) ks result) =
  if existsb (String.eqb k) ks then
    match Config.objGet k source, Config.objGet k target with
    | Config.VObject so, Config.VObject to =>
        Config.VObject (Config.spread to so)
    | Config.VUndefined, _ => Config.objGet k result
    | sv, _ => sv
    end
  else Config.objGet k result.
Proof.
  revert result. induction ks as [|key ks IH]; intros result; simpl;
    [reflexivity|].
  rewrite IH. destruct (String.eqb_spec k key) as [<-|Hne]; simpl.
  - destruct (existsb (String.eqb k) ks);
      destruct (Config.objGet k source) eqn:Hs;
      destruct (Config.objGet k target) eqn:Ht;
      rewrite ?objGet_objSet, ?String.eqb_refl; reflexivity.
  - assert (Hk : String.eqb key k = false)
      by (apply String.eqb_neq; congruence).
    destruct (existsb (String.eqb k) ks);
      destruct (Config.objGet key source) eqn:Hs;
      destruct (Config.objGet key target) eqn:Ht;
      rewrite ?objGet_objSet, ?Hk; reflexivity.
Qed.

Lemma objGet_absent k (o : Config.Obj) :
  ~ In k (Config.objKeys o) -> Config.objGet k o = Config.VUndefined.
Proof.
  induction o as [|[k' v] o IH]; intros Hn; [reflexivity|].
  rewrite objGet_cons. destruct (String.eqb_spec k' k) as [->|Hne].
  - exfalso. apply Hn. now left.
  - apply IH. intros Hin. apply Hn. now right.
Qed.

(** What [deepMerge] leaves under a key. *)
Lemma deepMerge_get (target source : Config.Obj) k :
  Config.objGet k (Config.deepMerge target source) =
    match Config.objGet k source, Config.objGet k target with
    | Config.VObject so, Config.VObject to =>
        Config.VObject (Config.spread to so)
    | Config.VUndefined, tv => tv
    | sv, _ => sv
    end.
Proof.
  unfold Config.deepMerge. rewrite deepMerge_fold.
  destruct (existsb (String.eqb k) (Config.objKeys source)) eqn:Hex.
  - now destruct (Config.objGet k source), (Config.objGet k target).
  - rewrite (objGet_absent k source); [reflexivity|].
    intros Hin. assert (Ht : existsb (String.eqb k) (Config.objKeys source) = true)
      by (apply existsb_exists; exists k; split;
          [assumption | apply String.eqb_refl]).
    congruence.
Qed.



Lemma readConfig_inv (st : Config.Obj) (c : Force10Config) :
  readConfig st = Some c ->
  exists co lo ro ex,
    Config.objGet "enabled" st = Config.VBool (enabled c) /\
    Config.objGet "cache" st = Config.VObject co /\
    Config.objGet "ttl" co = Config.VNumber (cache_ttl c) /\
    Config.objGet "maxEntries" co = Config.VNumber (cache_maxEntries c) /\
    Config.objGet "loading" st = Config.VObject lo /\
    Config.objGet "suppressProgress" lo
      = Config.VBool (loading_suppressProgress c) /\
    Config.objGet "debug" st = Config.VBool (debug c) /\
    Config.objGet "routes" st = Config.VObject ro /\
    Config.objGet "exclude" ro = Config.VArray ex /\
    stringsOf ex = Some (routes_exclude c).
Proof.
  unfold readConfig.
  destruct (Config.objGet "enabled" st) as [| |en| | | |] eqn:H1;
    try discriminate.
  destruct (Config.objGet "cache" st) as [| | | | | |co] eqn:H2;
    try discriminate.
  destruct (Config.objGet "loading" st) as [| | | | | |lo] eqn:H3;
    try discriminate.
  destruct (Config.objGet "debug" st) as [| |d| | | |] eqn:H4;
    try discriminate.
  destruct (Config.objGet "routes" st) as [| | | | | |ro] eqn:H5;
    try discriminate.
  destruct (Config.objGet "ttl" co) as [| | |t| | |] eqn:H6;
    try discriminate.
  destruct (Config.objGet "maxEntries" co) as [| | |mx| | |] eqn:H7;
    try discriminate.
  destruct (Config.objGet "suppressProgress" lo) as [| |sp| | | |] eqn:H8;
    try discriminate.
  destruct (Config.objGet "exclude" ro) as [| | | | |ex|] eqn:H9;
    try discriminate.
  destruct (stringsOf ex) as [exs|] eqn:Hex; [|discriminate].
  intros [= <-]. simpl. exists co, lo, ro, ex. repeat split; assumption.
Qed.

Lemma stringsOf_map (l : list string) :
  stringsOf (List.map Config.VString l) = Some l.
Proof.
  unfold stringsOf. induction l as [|s l IH]; [reflexivity|].
  simpl. now rewrite IH.
Qed.

(** A well-typed partial configuration merged into a configuration. *)
Lemma merge_reads (st : Config.Obj) (c : Force10Config) (p : PartialConfig) :
  readConfig st = Some c ->
  readConfig (Config.deepMerge st (objectOf p)) = Some (overrideConfig c p).
Proof.
  intros Hread.
  destruct (readConfig_inv st c Hread)
    as (co & lo & ro & ex & He & Hc & Httl & Hmax & Hl & Hsp & Hd & Hr
        & Hex & Hstr).
  unfold readConfig. rewrite !deepMerge_get, He, Hc, Hl, Hd, Hr.
  destruct c as [en ttl mx sup dbg excl]. simpl in *.
  destruct p as [pe pc pl pd pr].
  destruct pe as [e|], pc as [[[t|] [m|]]|], pl as [[s|]|], pd as [d|],
           pr as [[exs|]|];
    unfold overrideConfig; simpl;
    repeat (rewrite ?objGet_objSet; simpl);
    rewrite ?Httl, ?Hmax, ?Hsp, ?Hex, ?Hstr, ?stringsOf_map; reflexivity.
Qed.

(** X19. For a well-typed partial configuration, nested objects
    partial or not, merging is overriding field by field: after
    [updateConfig(p)] the configuration is the current one with the
    given fields replaced, and [createConfig(p)] gives the defaults
    with the given fields replaced, whatever the configuration was
    before; [createConfig()] gives the defaults. [log] and [warn] read
    the current configuration at each call: they print exactly when
    its [debug] is on. *)
Theorem updateConfig_overrides_field_by_field (st : Config.Obj)
        (c : Force10Config) (p : PartialConfig) :
  readConfig st = Some c ->
  readConfig (Config.updateConfig (objectOf p) st) = Some (overrideConfig c p) /\
  readConfig (Config.createConfig (Some (objectOf p)) st)
    = Some (overrideConfig defaultConfig p) /\
  readConfig (Config.createConfig None st) = Some defaultConfig /\
  forall message data console,
    Debug.log message data (Config.updateConfig (objectOf p) st) console =
      (if debug (overrideConfig c p)
       then (console ++ [Debug.ConsoleLog message data])%list
       else console) /\
    Debug.warn message data (Config.updateConfig (objectOf p) st) console =
      (if debug (overrideConfig c p)
       then (console ++ [Debug.ConsoleWarn message data])%list
       else console).
Proof.
  intros Hread.
  pose proof (merge_reads st c p Hread) as Hupd.
  split; [exact Hupd|].
  split; [apply (merge_reads Config.defaultConfig defaultConfig p);
          reflexivity|].
  split; [reflexivity|]. intros message data console.
  unfold Debug.log, Debug.warn, Config.getConfig, Config.updateConfig.
  destruct (readConfig_inv _ _ Hupd) as (_ & _ & _ & _ & _ & _ & _ & _ & _
                                          & _ & Hd & _).
  rewrite !Hd. unfold Config.truthy.
  destruct (debug (overrideConfig c p)); split; reflexivity.
Qed.

Lemma updateConfig_overrides_field_by_field_witness :
  readConfig Config.initialConfig = Some defaultConfig /\
  readConfig
    (Config.updateConfig
       (objectOf {| p_enabled := None; p_cache := Some (Some 10000, None);
                    p_loading := None; p_debug := Some true;
                    p_routes := None |})
       Config.initialConfig)
  = Some {| enabled := true; cache_ttl := 10000; cache_maxEntries := 50;
            loading_suppressProgress := true; debug := true;
            routes_exclude := [] |}.
Proof.
  assert (Hread : readConfig Config.initialConfig = Some defaultConfig)
    by reflexivity.
  split; [exact Hread|].
  exact (proj1 (updateConfig_overrides_field_by_field Config.initialConfig
                  defaultConfig
                  {| p_enabled := None; p_cache := Some (Some 10000, None);
                     p_loading := None; p_debug := Some true;
                     p_routes := None |} Hread)).
Defined.

(** ** Server-side evaluator *)

Lemma arrayGet_cons {A} key k (v : A) (array : list (string * A)) :
  PreflightChecker.arrayGet key ((k, v) :: array) =
    if String.eqb k key then Some v else PreflightChecker.arrayGet key array.
Proof.
  unfold PreflightChecker.arrayGet. simpl. now destruct (String.eqb k key).
Qed.

Lemma arrayGet_arraySet {A} key k (v : A) (array : list (string * A)) :
  PreflightChecker.arrayGet key (PreflightChecker.arraySet k v array) =
    if String.eqb k key then Some v else PreflightChecker.arrayGet key array.
Proof.
  induction array as [|[k0 v0] array IH]; simpl.
  - now rewrite arrayGet_cons.
  - destruct (String.eqb_spec k0 k) as [->|Hne].
    + rewrite !arrayGet_cons. now destruct (String.eqb k key).
    + rewrite !arrayGet_cons, IH.
      destruct (String.eqb_spec k0 key) as [->|]; [|reflexivity].
      destruct (String.eqb_spec k key); [congruence | reflexivity].
Qed.

Lemma arraySet_keys {A} k (v : A) (array : list (string * A)) :
  NoDup (List.map fst array) ->
  NoDup (List.map fst (PreflightChecker.arraySet k v array)) /\
  forall x, In x (List.map fst (PreflightChecker.arraySet k v array)) <->
            x = k \/ In x (List.map fst array).
Proof.
  induction array as [|[k0 v0] array IH]; intros Hnd; simpl.
  - split; [apply NoDup_singleton | intuition].
  - apply NoDup_cons in Hnd as [Hnotin Hnd].
    destruct (String.eqb_spec k0 k) as [->|Hne]; simpl.
    + split; [now apply NoDup_cons | intuition].
    + destruct (IH Hnd) as [IHnd IHin]. split.
      * apply NoDup_cons. split; [|assumption].
        rewrite list_elem_of_In, IHin. rewrite list_elem_of_In in Hnotin.
        intros [?|?]; [congruence | contradiction].
      * intros x. rewrite IHin. intuition.
Qed.

Lemma array_unique_In (values : list string) x :
  In x (PreflightChecker.array_unique values) <-> In x values.
Proof.
  induction values as [|y values IH]; simpl; [reflexivity|].
  rewrite filter_In, IH. destruct (String.eqb_spec x y) as [->|Hne].
  - intuition.
  - simpl. intuition congruence.
Qed.

Lemma evaluate_fold (evaluators : list (string * PreflightChecker.Evaluator))
      (request : PreflightChecker.Request) (mws : list string)
      (results : list (string * PreflightResult)) mw :
  NoDup (List.map fst results) ->
  let out :=
    fold_left
      (fun results mw =>
         match PreflightChecker.arrayGet (PreflightChecker.Str_before mw)
                 evaluators with
         | Some evaluator =>
             PreflightChecker.arraySet mw (evaluator request) results
         | None => results
         end) mws results in
  NoDup (List.map fst out) /\
  PreflightChecker.arrayGet mw out =
    if existsb (String.eqb mw) mws then
      match PreflightChecker.arrayGet (PreflightChecker.Str_before mw)
              evaluators with
      | Some evaluator => Some (evaluator request)
      | None => PreflightChecker.arrayGet mw results
      end
    else PreflightChecker.arrayGet mw results.
Proof.
  revert results. induction mws as [|m mws IH]; intros results Hnd; simpl.
  - auto.
  - set (results' :=
           match PreflightChecker.arrayGet (PreflightChecker.Str_before m)
                   evaluators with
           | Some evaluator =>
               PreflightChecker.arraySet m (evaluator request) results
           | None => results
           end).
    assert (Hnd' : NoDup (List.map fst results')).
    { unfold results'.
      destruct (PreflightChecker.arrayGet (PreflightChecker.Str_before m)
                  evaluators); [now apply arraySet_keys | assumption]. }
    destruct (IH results' Hnd') as [IHnd IHget]. split; [exact IHnd|].
    rewrite IHget.
    destruct (String.eqb_spec mw m) as [->|Hne]; simpl.
    + unfold results'.
      destruct (existsb (String.eqb m) mws);
        destruct (PreflightChecker.arrayGet (PreflightChecker.Str_before m)
                    evaluators); try reflexivity.
      now rewrite arrayGet_arraySet, String.eqb_refl.
    + assert (Hsame : PreflightChecker.arrayGet mw results'
                      = PreflightChecker.arrayGet mw results).
      { unfold results'.
        destruct (PreflightChecker.arrayGet (PreflightChecker.Str_before m)
                    evaluators); [|reflexivity].
        rewrite arrayGet_arraySet.
        destruct (String.eqb_spec m mw); [congruence | reflexivity]. }
      now rewrite Hsame.
Qed.

(** What [evaluate] reports under a middleware string. *)
Lemma evaluate_get (evaluators : list (string * PreflightChecker.Evaluator))
      (request : PreflightChecker.Request) (mws : list string) mw :
  NoDup (List.map fst
           (PreflightChecker.evaluate evaluators request mws)) /\
  PreflightChecker.arrayGet mw
    (PreflightChecker.evaluate evaluators request mws) =
    if existsb (String.eqb mw) mws then
      match PreflightChecker.arrayGet (PreflightChecker.Str_before mw)
              evaluators with
      | Some evaluator => Some (evaluator request)
      | None => None
      end
    else None.
Proof.
  unfold PreflightChecker.evaluate.
  destruct (evaluate_fold evaluators request
              (PreflightChecker.array_unique mws) [] mw (NoDup_nil_2))
    as [Hnd Hget].
  split; [exact Hnd|]. cbv zeta in Hget. rewrite Hget.
  assert (Hex : existsb (String.eqb mw) (PreflightChecker.array_unique mws)
                = existsb (String.eqb mw) mws).
  { apply existsb_same_elements. intros x. apply array_unique_In. }
  rewrite Hex. destruct (existsb (String.eqb mw) mws); [|reflexivity].
  now destruct (PreflightChecker.arrayGet _ evaluators).
Qed.

(** X20. [evaluate] reports one verdict per distinct middleware string
    whose name (the part before a [:]) has a registered evaluator, under
    the full string, parameters included; it is the verdict of that
    evaluator on the request; a middleware without a registered
    evaluator, or not in the list, is left out. *)
Theorem evaluate_reports_registered_guards
        (evaluators : list (string * PreflightChecker.Evaluator))
        (request : PreflightChecker.Request) (mws : list string) :
  let results := PreflightChecker.evaluate evaluators request mws in
  NoDup (List.map fst results) /\
  forall mw,
    PreflightChecker.arrayGet mw results =
      if existsb (String.eqb mw) mws then
        match PreflightChecker.arrayGet (PreflightChecker.Str_before mw)
                evaluators with
        | Some evaluator => Some (evaluator request)
        | None => None
        end
      else None.
Proof.
  intros results. split.
  - apply (evaluate_get evaluators request mws "").
  - intros mw. apply evaluate_get.
Qed.

Lemma received_lookup (results : list (string * PreflightResult)) mw :
  NoDup (List.map fst results) ->
  receivedVerdicts results !! mw = PreflightChecker.arrayGet mw results.
Proof.
  unfold receivedVerdicts. induction results as [|[k v] results IH];
    intros Hnd; [reflexivity|].
  apply NoDup_cons in Hnd as [Hnotin Hnd]. simpl.
  rewrite arrayGet_cons. destruct (String.eqb_spec k mw) as [->|Hne].
  - apply lookup_insert_eq.
  - rewrite lookup_insert_ne by assumption. now apply IH.
Qed.

(** X21. The client's reading of a [password.confirm] verdict agrees
    with the server: for a verdict evaluated at second [time()], at any
    later moment [now] the client's [check] answers what the server's
    evaluator would answer at that moment for the same session: the
    confirmation counts until the second [expiresAt], and no longer. *)
Theorem client_expiry_agrees_with_server (request : PreflightChecker.Request)
        (mws : list string) (mw : string) (now : Z) :
  In mw mws ->
  PreflightChecker.Str_before mw = "password.confirm" ->
  0 <= PreflightChecker.time request ->
  PreflightChecker.time request <= now / 1000 ->
  Preflight.check
    (receivedVerdicts
       (PreflightChecker.evaluate PreflightChecker.construct request mws))
    now [mw]
  = Some (pass (PreflightChecker.evaluatePasswordConfirm
                  (atTime (now / 1000) request))).
Proof.
  intros Hin Hname Ht0 Ht.
  destruct (evaluate_get PreflightChecker.construct request mws mw)
    as [Hnd Hget].
  assert (Hex : existsb (String.eqb mw) mws = true)
    by (apply existsb_exists; exists mw; split;
        [assumption | apply String.eqb_refl]).
  rewrite Hex, Hname in Hget.
  change (PreflightChecker.arrayGet "password.confirm"
            PreflightChecker.construct)
    with (Some PreflightChecker.evaluatePasswordConfirm) in Hget.
  unfold Preflight.check, Preflight.checkLoop, Preflight.read.
  rewrite received_lookup, Hget by assumption.
  unfold PreflightChecker.evaluatePasswordConfirm, atTime,
    Preflight.expired. simpl.
  destruct (PreflightChecker.passwordConfirmedAt request) as [at_|];
    [|reflexivity].
  destruct (Z.eqb_spec at_ 0); [reflexivity|]. simpl.
  set (e := at_ + default 10800 (PreflightChecker.passwordTimeout request)).
  destruct (Z.ltb_spec (PreflightChecker.time request) e);
    destruct (Z.ltb_spec (now / 1000) e); simpl; try lia; try reflexivity.
  - destruct (Z.eqb_spec e 0); [lia|]. simpl.
    destruct (Z.geb_spec (now / 1000) e); [lia | reflexivity].
  - destruct (Z.eqb_spec e 0); [lia|]. simpl.
    destruct (Z.geb_spec (now / 1000) e); [reflexivity | lia].
Qed.

Lemma client_expiry_agrees_with_server_witness :
  In "password.confirm" ["auth"; "password.confirm"] /\
  0 <= PreflightChecker.time exampleRequest /\
  PreflightChecker.time exampleRequest <= 11800000 / 1000 /\
  Preflight.check
    (receivedVerdicts
       (PreflightChecker.evaluate PreflightChecker.construct exampleRequest
          ["auth"; "password.confirm"]))
    11800000 ["password.confirm"]
  = Some false.
Proof.
  assert (Hin : In "password.confirm" ["auth"; "password.confirm"])
    by (right; now left).
  assert (H0 : 0 <= PreflightChecker.time exampleRequest)
    by (vm_compute; discriminate).
  assert (H1 : PreflightChecker.time exampleRequest <= 11800000 / 1000)
    by (vm_compute; discriminate).
  split; [exact Hin|]. split; [exact H0|]. split; [exact H1|].
  exact (client_expiry_agrees_with_server exampleRequest
           ["auth"; "password.confirm"] "password.confirm" 11800000
           Hin eq_refl H0 H1).
Defined.

(** ** Vite plugin: the file watcher *)

Lemma startsWith_app (p r : string) : JS.startsWith (p ++ r) p = true.
Proof.
  unfold JS.startsWith. induction p as [|c p IH].
  - now destruct r.
  - change (String.prefix (String c p) (String c p ++ r))
      with (if ascii_dec c c then String.prefix p (p ++ r) else false).
    destruct (ascii_dec c c); [exact IH | congruence].
Qed.

Lemma includes_infix (a sub b : string) :
  Vite.includes (a ++ sub ++ b) sub = true.
Proof.
  assert (Hunfold : forall s,
            Vite.includes s sub =
              JS.startsWith s sub ||
              match s with
              | EmptyString => false
              | String _ r => Vite.includes r sub
              end) by (intros s; now destruct s).
  induction a as [|c a IH].
  - change ("" ++ sub ++ b) with (sub ++ b).
    now rewrite Hunfold, startsWith_app.
  - change (String c a ++ sub ++ b) with (String c (a ++ sub ++ b)).
    rewrite Hunfold, IH. apply orb_true_r.
Qed.

Lemma endsWith_suffix (a suffix : string) :
  Vite.endsWith (a ++ suffix) suffix = true.
Proof.
  assert (Hunfold : forall s,
            Vite.endsWith s suffix =
              String.eqb s suffix ||
              match s with
              | EmptyString => false
              | String _ r => Vite.endsWith r suffix
              end) by (intros s; now destruct s).
  induction a as [|c a IH].
  - change ("" ++ suffix) with suffix.
    now rewrite Hunfold, String.eqb_refl.
  - change (String c a ++ suffix) with (String c (a ++ suffix)).
    rewrite Hunfold, IH. apply orb_true_r.
Qed.

Lemma append_assoc (a b c : string) : (a ++ b) ++ c = a ++ b ++ c.
Proof.
  induction a as [|x a IH]; [reflexivity|].
  change ((String x a ++ b) ++ c) with (String x ((a ++ b) ++ c)).
  now rewrite IH.
Qed.

(** A string the glob accepts begins with the first part and ends with
    the last. *)
Lemma starGlob_ends (parts : list string) (s : string) :
  starGlob parts s ->
  (exists r, s = List.hd "" parts ++ r) /\
  (exists l, s = l ++ List.last parts "").
Proof.
  induction 1 as [part|part any rest s Hne _ [_ (l & IHl)]].
  - split; [exists ""; now rewrite append_empty_r | now exists ""].
  - split; [now exists (any ++ s)|].
    exists (part ++ any ++ l). destruct rest as [|x rest]; [congruence|].
    change (List.last (part :: x :: rest) "") with (List.last (x :: rest) "").
    rewrite IHl at 1. now rewrite !append_assoc.
Qed.

(** X22. The watcher misses no file a watch pattern stands for: when a
    changed file's path ends in a path the pattern accepts as a glob
    (the text between its [*]s in order, anything in between), under
    whatever directory, [handleChange] takes the file as watched. *)
Theorem watcher_covers_glob (watchPatterns : list string)
        (pattern dir path : string) :
  In pattern watchPatterns ->
  starGlob (JS.split "*" pattern) path ->
  Vite.isWatchedFile watchPatterns (dir ++ path) = true.
Proof.
  intros Hin Hglob. unfold Vite.isWatchedFile. apply existsb_exists.
  exists pattern. split; [assumption|]. unfold Vite.matchesPattern.
  destruct (starGlob_ends _ _ Hglob) as [(r & Hr) (l & Hl)].
  apply andb_true_iff. split.
  - rewrite Hr. apply includes_infix.
  - rewrite Hl, <- append_assoc. apply endsWith_suffix.
Qed.

Lemma watcher_covers_glob_witness :
  In "routes/*.php" Vite.DEFAULT_WATCH_PATTERNS /\
  starGlob (JS.split "*" "routes/*.php") "routes/web.php" /\
  Vite.isWatchedFile Vite.DEFAULT_WATCH_PATTERNS
    ("/var/www/app/" ++ "routes/web.php") = true.
Proof.
  assert (Hin : In "routes/*.php" Vite.DEFAULT_WATCH_PATTERNS) by now left.
  assert (Hglob : starGlob (JS.split "*" "routes/*.php") "routes/web.php").
  { apply (star_more "routes/" "web" [".php"] ".php");
      [discriminate | constructor]. }
  split; [exact Hin|]. split; [exact Hglob|].
  exact (watcher_covers_glob Vite.DEFAULT_WATCH_PATTERNS "routes/*.php"
           "/var/www/app/" "routes/web.php" Hin Hglob).
Defined.

Lemma NoDup_List_filter {A} (P : A -> bool) (l : list A) :
  NoDup l -> NoDup (List.filter P l).
Proof.
  induction l as [|x l IH]; intros Hnd; [constructor|].
  apply NoDup_cons in Hnd as [Hnotin Hnd]. simpl.
  destruct (P x); [|now apply IH].
  apply NoDup_cons. split; [|now apply IH].
  rewrite list_elem_of_In, filter_In. rewrite list_elem_of_In in Hnotin.
  tauto.
Qed.

Lemma debounced_armed (s : Vite.Server) :
  debounced s ->
  Vite.armed s = [] \/
  exists t, Vite.armed s = [t] /\ Vite.debounceTimer s = Some t.
Proof.
  intros (Hsub & Hnd & _). destruct (Vite.armed s) as [|t [|t' l]] eqn:E.
  - now left.
  - right. exists t. split; [reflexivity|]. apply Hsub. now left.
  - exfalso. assert (H1 : Vite.debounceTimer s = Some t) by (apply Hsub; now left).
    assert (H2 : Vite.debounceTimer s = Some t')
      by (apply Hsub; right; now left).
    apply NoDup_cons in Hnd as [Hnotin _]. apply Hnotin.
    rewrite H1 in H2. injection H2 as ->. now left.
Qed.

(** A watched change leaves exactly its own timer armed. *)
Lemma handleChange_watched (watchPatterns : list string) (filePath : string)
      (s : Vite.Server) :
  debounced s ->
  Vite.isWatchedFile watchPatterns filePath = true ->
  let s' := Vite.handleChange watchPatterns filePath s in
  Vite.armed s' = [Vite.nextTimer s] /\
  Vite.debounceTimer s' = Some (Vite.nextTimer s) /\
  Vite.nextTimer s' = S (Vite.nextTimer s) /\
  Vite.actions s' = Vite.actions s.
Proof.
  intros Hd Hw s'. subst s'. unfold Vite.handleChange. rewrite Hw. simpl.
  destruct (debounced_armed s Hd) as [E|(t & E & Ht)].
  - destruct (Vite.debounceTimer s); simpl; rewrite E; auto.
  - rewrite Ht. simpl. rewrite E. simpl. rewrite Nat.eqb_refl. simpl. auto.
Qed.

Lemma debounced_step (watchPatterns : list string) (ev : Vite.Event)
      (s : Vite.Server) :
  debounced s -> debounced (Vite.step watchPatterns ev s).
Proof.
  intros Hd.
  assert (Hchange : forall filePath,
            debounced (Vite.handleChange watchPatterns filePath s)).
  { intros filePath.
    destruct (Vite.isWatchedFile watchPatterns filePath) eqn:Hw.
    - destruct (handleChange_watched watchPatterns filePath s Hd Hw)
        as (Ha & Ht & Hn & _).
      unfold debounced. rewrite Ha, Ht, Hn. split; [|split].
      + intros t [<-|[]]. reflexivity.
      + apply NoDup_singleton.
      + intros t [<-|[]]. lia.
    - unfold Vite.handleChange. now rewrite Hw. }
  destruct ev as [filePath|filePath|t success]; simpl; try apply Hchange.
  unfold Vite.timerFires. destruct (existsb (Nat.eqb t) (Vite.armed s));
    [|assumption].
  destruct Hd as (Hsub & Hnd & Hlt). unfold debounced. simpl.
  split; [|split].
  - intros t' Hin. apply filter_In in Hin as [Hin _]. now apply Hsub.
  - now apply NoDup_List_filter.
  - intros t' Hin. apply filter_In in Hin as [Hin _]. now apply Hlt.
Qed.

Lemma debounced_run (watchPatterns : list string) (evs : list Vite.Event)
      (s : Vite.Server) :
  debounced s -> debounced (Vite.run watchPatterns evs s).
Proof.
  unfold Vite.run. revert s. induction evs as [|ev evs IH]; intros s Hd;
    [assumption|].
  simpl. apply IH. now apply debounced_step.
Qed.

Lemma debounced_initial : debounced Vite.initialServer.
Proof.
  split; [intros t []|]. split; [constructor | intros t []].
Qed.

(** A burst of watched changes leaves the last change's timer armed
    and has done nothing yet. *)
Lemma burst_arms_one (watchPatterns : list string) (burst : list Vite.Event)
      (s : Vite.Server) :
  debounced s -> burst <> [] ->
  forallb (isWatchedChange watchPatterns) burst = true ->
  let s1 := Vite.run watchPatterns burst s in
  exists t, Vite.armed s1 = [t] /\ Vite.debounceTimer s1 = Some t /\
            Vite.actions s1 = Vite.actions s.
Proof.
  unfold Vite.run. revert s.
  induction burst as [|ev burst IH]; intros s Hd Hne Hall; [congruence|].
  simpl in Hall. apply andb_true_iff in Hall as [Hev Hall]. simpl.
  assert (Hstep : exists filePath,
            Vite.step watchPatterns ev s
            = Vite.handleChange watchPatterns filePath s /\
            Vite.isWatchedFile watchPatterns filePath = true).
  { destruct ev as [f|f|t ok]; simpl in *; eauto; discriminate. }
  destruct Hstep as (filePath & Hs & Hw).
  destruct (handleChange_watched watchPatterns filePath s Hd Hw)
    as (Ha & Ht & _ & Hact).
  destruct burst as [|ev' burst'].
  - simpl. rewrite Hs. eauto.
  - destruct (IH (Vite.step watchPatterns ev s)) as (t & H1 & H2 & H3);
      [now apply debounced_step | discriminate | assumption|].
    exists t. split; [assumption|]. split; [assumption|].
    rewrite H3, Hs. exact Hact.
Qed.

(** X23. The regeneration of the manifest is debounced: in every state
    the watcher reaches the host holds at most one of its timers armed;
    and after any burst of watched changes and additions, however long,
    exactly one timer is armed and nothing has been done yet. When that
    timer runs out the manifest is generated once, a full reload
    follows exactly when the generation succeeded, and no timer of the
    burst is left to run. *)
Theorem regeneration_is_debounced (watchPatterns : list string)
        (evs burst : list Vite.Event) (success : bool) :
  burst <> [] ->
  forallb (isWatchedChange watchPatterns) burst = true ->
  let s := Vite.run watchPatterns evs Vite.initialServer in
  let s1 := Vite.run watchPatterns burst s in
  (length (Vite.armed s) <= 1)%nat /\
  exists t,
    Vite.armed s1 = [t] /\
    Vite.actions s1 = Vite.actions s /\
    let s2 := Vite.timerFires t success s1 in
    Vite.actions s2 =
      (Vite.actions s ++ Vite.GenerateManifest ::
         (if success then [Vite.FullReload] else []))%list /\
    regenerations s2 = S (regenerations s) /\
    Vite.armed s2 = [] /\
    forall t' success', Vite.timerFires t' success' s2 = s2.
Proof.
  intros Hne Hall s s1.
  assert (Hd : debounced s) by apply debounced_run, debounced_initial.
  split.
  - destruct (debounced_armed s Hd) as [->|(t & -> & _)]; simpl; lia.
  - destruct (burst_arms_one watchPatterns burst s Hd Hne Hall)
      as (t & Ha & _ & Hact).
    fold s1 in Ha, Hact. exists t. split; [assumption|].
    split; [assumption|]. unfold Vite.timerFires. rewrite Ha. simpl.
    rewrite Nat.eqb_refl. simpl. rewrite Hact.
    split; [reflexivity|]. split.
    + unfold regenerations. simpl. rewrite List.filter_app, length_app.
      simpl. destruct success; simpl; lia.
    + split; [reflexivity|]. intros t' success'. reflexivity.
Qed.

Lemma regeneration_is_debounced_witness :
  let burst := [Vite.Changed "/app/routes/web.php";
                Vite.Added "/app/routes/api.php";
                Vite.Changed "/app/routes/web.php"] in
  let s1 := Vite.run Vite.DEFAULT_WATCH_PATTERNS burst Vite.initialServer in
  burst <> [] /\
  forallb (isWatchedChange Vite.DEFAULT_WATCH_PATTERNS) burst = true /\
  exists t,
    Vite.armed s1 = [t] /\
    Vite.actions (Vite.timerFires t true s1)
      = [Vite.GenerateManifest; Vite.FullReload] /\
    regenerations (Vite.timerFires t true s1) = 1%nat.
Proof.
  intros burst s1.
  assert (Hne : burst <> []) by discriminate.
  assert (Hall : forallb (isWatchedChange Vite.DEFAULT_WATCH_PATTERNS) burst
                 = true) by (vm_compute; reflexivity).
  split; [exact Hne|]. split; [exact Hall|].
  destruct (regeneration_is_debounced Vite.DEFAULT_WATCH_PATTERNS [] burst
              true Hne Hall) as (_ & t & Ha & _ & Hact & Hreg & _).
  exists t. split; [exact Ha|]. split; [exact Hact | exact Hreg].
Defined.

(** ** Entry point: the life cycle of the patch *)

(** A call of [initForce10] either stops at one of its guards, leaving
    the router, the module variables and the instances as they are, or
    makes one instance over what [router.visit] holds and switches to
    it. *)
Lemma initForce10_cases (window : option Window)
      (manifest : option Index.Manifest) (config : option Config.Obj)
      (rt : Index.Runtime) :
  let out := fst (Index.initForce10 window manifest config rt) in
  let rt' := snd (Index.initForce10 window manifest config rt) in
  (out = Index.Returned Index.NoOp /\
   Index.routerVisit rt' = Index.routerVisit rt /\
   Index._initialized rt' = Index._initialized rt /\
   Index._navigator rt' = Index._navigator rt /\
   Index.instances rt' = Index.instances rt) \/
  (Index._initialized rt = false /\
   (out = Index.Threw \/
    out = Index.Returned (Index.Remove (length (Index.instances rt)))) /\
   switchedOn (length (Index.instances rt)) rt' /\
   exists inst,
     Index.instances rt' = (Index.instances rt ++ [inst])%list /\
     Index.originalVisit inst = Index.routerVisit rt).
Proof.
  unfold Index.initForce10. destruct window as [wd|]; [|left; now simpl].
  destruct (Index._initialized rt) eqn:Hinit; [left; now simpl|].
  destruct (negb (Config.truthy _)); [left; now simpl|].
  destruct (Index.noRoutes manifest); [left; now simpl|].
  right. split; [reflexivity|].
  assert (Hlen : forall (l : list Index.Instance) x,
            S (length l) = length (l ++ [x])%list)
    by (intros l x; rewrite length_app; simpl; lia).
  destruct (manifest ≫= Index.preload) as [[|]|]; simpl;
    (split; [auto|]); (split; [repeat split; apply Hlen|]);
    eexists; split; reflexivity.
Qed.

Lemma cleanup_switches_off (i : nat) (rt : Index.Runtime) :
  (i < length (Index.instances rt))%nat ->
  (forall inst, In inst (Index.instances rt) ->
                Index.originalVisit inst = Index.RouterVisit) ->
  switchedOff (Index.cleanup i rt) /\
  Index.instances (Index.cleanup i rt) = Index.instances rt.
Proof.
  intros Hlt Horig. unfold Index.cleanup.
  destruct (Index.instances rt !! i) as [inst|] eqn:E.
  - assert (Hin : In inst (Index.instances rt)).
    { apply list_elem_of_In. eapply list_elem_of_lookup_2. exact E. }
    split; [|reflexivity]. repeat split; simpl. now apply Horig.
  - apply lookup_ge_None in E. lia.
Qed.

Lemma lifecycle_step (c : Index.Call) (app : Index.App) :
  lifecycle app -> lifecycle (Index.step c app).
Proof.
  unfold lifecycle. destruct app as [rt held]. simpl.
  intros (Hstate & Horig & Hheld).
  destruct c as [window manifest config|k|config]; simpl.
  - pose proof (initForce10_cases window manifest config rt) as Hcases.
    destruct (Index.initForce10 window manifest config rt) as [out rt'].
    simpl in Hcases.
    destruct Hcases as [(-> & Hv & Hi & Hn & Hinst)
                       |(Hinit & Hout & Hon & inst & Hinst & Hov)].
    + simpl. rewrite Hinst. split; [|split].
      * destruct Hstate as [(H1 & H2 & H3)|(i & H1 & H2 & H3 & H4)].
        -- left. unfold switchedOff. now rewrite Hv, Hi, Hn.
        -- right. exists i. unfold switchedOn.
           now rewrite Hv, Hi, Hn, Hinst.
      * assumption.
      * intros k i Hk. apply lookup_app_Some in Hk as [Hk|[_ Hk]].
        -- now apply (Hheld k).
        -- destruct (k - length held)%nat as [|n]; simpl in Hk;
             [|destruct n]; discriminate.
    + assert (Hoff : Index.routerVisit rt = Index.RouterVisit).
      { destruct Hstate as [(H1 & _)|(i & _ & H2 & _)];
          [assumption | congruence]. }
      assert (Horig' : forall inst', In inst' (Index.instances rt') ->
                Index.originalVisit inst' = Index.RouterVisit).
      { intros inst'. rewrite Hinst, in_app_iff. intros [Hin|[<-|[]]].
        - now apply Horig.
        - congruence. }
      assert (Hheld' : forall k i, held !! k = Some (Index.Remove i) ->
                (i < length (Index.instances rt'))%nat).
      { intros k i Hk. apply Hheld in Hk. rewrite Hinst, length_app.
        simpl in *. lia. }
      destruct Hout as [->| ->]; simpl.
      * split; [right; eauto|]. split; assumption.
      * split; [right; eauto|]. split; [assumption|].
        intros k i Hk. apply lookup_app_Some in Hk as [Hk|[_ Hk]].
        -- now apply (Hheld' k).
        -- destruct (k - length held)%nat as [|n]; simpl in Hk;
             [|destruct n; discriminate].
           injection Hk as <-. rewrite Hinst, length_app. simpl. lia.
  - destruct (held !! k) as [[|i]|] eqn:Hk; simpl; auto.
    destruct (cleanup_switches_off i rt (Hheld k i Hk) Horig) as [Hoff Hinst].
    rewrite Hinst. auto.
  - split; [|split]; assumption.
Qed.

Lemma lifecycle_run (calls : list Index.Call) (app : Index.App) :
  lifecycle app -> lifecycle (Index.run calls app).
Proof.
  unfold Index.run. revert app.
  induction calls as [|c calls IH]; intros app H; [exact H|].
  simpl. apply IH. now apply lifecycle_step.
Qed.

Lemma lifecycle_initial : lifecycle (Index.initialRuntime, []).
Proof.
  split; [left; now repeat split|]. split; [intros inst []|].
  intros k i Hk. destruct k; discriminate.
Qed.

(** X24. However the application calls [initForce10] and the functions
    it returned (each at any time, any number of times, also after a
    later [initForce10]), patches never stack: [router.visit] is the
    router's own function with Force10 off, or the [patchedVisit] of
    the newest instance with Force10 on, and every interceptor has
    captured the router's own function as its [originalVisit]. Of the
    functions returned, the [() => {}] of a call that stopped at a
    guard changes nothing; the cleanup of an instance, called at that
    point, leaves [router.visit] the router's own function and Force10
    off, whichever instance is the live one, and [isForce10Loading()]
    then answers [false] whatever the navigators hold. *)
Theorem initForce10_never_stacks_patches (calls : list Index.Call) :
  let app := Index.run calls (Index.initialRuntime, []) in
  let rt := fst app in
  let held := snd app in
  (switchedOff rt \/ exists i, switchedOn i rt) /\
  (forall inst, In inst (Index.instances rt) ->
                Index.originalVisit inst = Index.RouterVisit) /\
  (forall k cl, held !! k = Some cl ->
     (cl = Index.NoOp /\ Index.callCleanup cl rt = rt) \/
     (switchedOff (Index.callCleanup cl rt) /\
      forall isLoading,
        Index.isForce10Loading isLoading (Index.callCleanup cl rt) = false)).
Proof.
  intros app rt held.
  assert (Hinv : lifecycle app)
    by apply lifecycle_run, lifecycle_initial.
  destruct Hinv as (Hstate & Horig & Hheld).
  split; [assumption|]. split; [assumption|].
  intros k [|i] Hk; [left; split; reflexivity|]. right. simpl.
  destruct (cleanup_switches_off i rt (Hheld k i Hk) Horig)
    as [(H1 & H2 & H3) _].
  split; [now repeat split|]. intros isLoading.
  unfold Index.isForce10Loading. now rewrite H3.
Qed.

(** ** Interceptor: what it reads of the configuration *)

Lemma evictIfNeeded_bound (c1 c2 : Force10Config) (fuel : nat)
      (st : Cache.Store) :
  cache_maxEntries c1 = cache_maxEntries c2 ->
  Cache.evictIfNeeded c1 fuel st = Cache.evictIfNeeded c2 fuel st.
Proof.
  intros Hmax. revert st. induction fuel as [|fuel IH]; intros st; simpl;
    unfold Cache.maxEntries; rewrite Hmax; [reflexivity|].
  destruct (Cache.storeSize st >? cache_maxEntries c2); [|reflexivity].
  apply IH.
Qed.

Lemma set_bound (c1 c2 : Force10Config) (url : string) (page : CachedPage)
      (st : Cache.Store) :
  cache_maxEntries c1 = cache_maxEntries c2 ->
  Cache.set c1 url page st = Cache.set c2 url page st.
Proof. intros Hmax. unfold Cache.set. now apply evictIfNeeded_bound. Qed.

(** The TTL decides the [isStale] flag of [getOrStale] and nothing
    else of its answer. *)
Lemma getOrStale_entry (c1 c2 : Force10Config) (now : Z) (url : string)
      (st : Cache.Store) :
  option_map fst (Cache.getOrStale c1 now url st) =
  option_map fst (Cache.getOrStale c2 now url st).
Proof. unfold Cache.getOrStale. now destruct (Cache.storeGet url st). Qed.

Lemma patchedVisit_reads (host : Host) (c1 c2 : Force10Config)
      (matcher : Force10Matcher) (np pp : bool) (win : option Window)
      (href : Href) (options : option (VisitOptions nat)) (now : Z)
      (w : World) :
  enabled c1 = enabled c2 ->
  patchedVisit host c1 matcher np pp win href options now w =
  patchedVisit host c2 matcher np pp win href options now w.
Proof.
  intros Hen. unfold patchedVisit. generalize (callCancelPending w).
  clear w. intros w.
  assert (Hnav : forall m w0,
            optimisticNavigate c1 m options now w0 =
            optimisticNavigate c2 m options now w0).
  { intros m w0. unfold optimisticNavigate, Cache.getOrStale.
    now destruct (Cache.storeGet (mr_url m) (store w0)). }
  assert (Hpath : forall urlPath,
            classifyPath c1 matcher np pp win urlPath options now w =
            classifyPath c2 matcher np pp win urlPath options now w).
  { intros urlPath. unfold classifyPath, shouldOptimisticallyNavigate,
      Cache.getOrStale.
    rewrite Hen. destruct (nonGet options); [reflexivity|].
    destruct (match_ matcher urlPath) as [m|]; [|reflexivity].
    now destruct (Cache.storeGet (mr_url m) (store w)). }
  assert (Hclass : classify host c1 matcher np pp win href options now w =
                   classify host c2 matcher np pp win href options now w).
  { unfold classify. destruct (JS.startsWith _ "#"); [reflexivity|].
    destruct (bool_decide _); [reflexivity|].
    destruct (_ || _); [|apply Hpath].
    destruct (newURL host _) as [parsedUrl|]; [|reflexivity].
    destruct (negb _); [reflexivity | apply Hpath]. }
  unfold visitAfterCancel. rewrite Hclass.
  destruct (classify host c2 matcher np pp win href options now w);
    try reflexivity.
  apply Hnav.
Qed.

(** X25. Of its configuration the navigator and the interceptor read
    [enabled] and [cache.maxEntries] and nothing else: over the same
    matcher, two engines whose configurations agree on these two do
    the same to the router, the cache, the caller's callbacks and their
    own state, whatever calls and events reach them. In particular
    [cache.ttl] decides nothing: an entry is rendered however old it
    is, and the [isStale] flag of [getOrStale] goes to the debug log
    only. *)
Theorem engine_reads_enabled_and_bound_only (host : Host)
        (c1 c2 : Force10Config) (matcher : Force10Matcher) (np pp : bool)
        (evs : list Event) (w : World) :
  enabled c1 = enabled c2 ->
  cache_maxEntries c1 = cache_maxEntries c2 ->
  run host c1 matcher np pp evs w = run host c2 matcher np pp evs w.
Proof.
  intros Hen Hmax. revert w. induction evs as [|ev evs IH]; intros w;
    [reflexivity|].
  assert (Hstep : step host c1 matcher np pp ev w
                  = step host c2 matcher np pp ev w).
  { destruct ev as [win href options now| |i|i|cb page now|cb| |]; simpl;
      try reflexivity.
    - now rewrite (patchedVisit_reads host c1 c2).
    - destruct cb as [id|i|i|p|p]; try reflexivity.
      + unfold backgroundOnSuccess. destruct (navs w !! i); [|reflexivity].
        now rewrite (set_bound c1 c2).
      + unfold passthroughOnSuccess. destruct (passes w !! p); [|reflexivity].
        now rewrite (set_bound c1 c2). }
  simpl. rewrite Hstep.
  destruct (step host c2 matcher np pp ev w); [apply IH | reflexivity].
Qed.

Lemma engine_reads_enabled_and_bound_only_witness :
  enabled impatientConfig = enabled defaultConfig /\
  cache_maxEntries impatientConfig = cache_maxEntries defaultConfig /\
  run stubHost impatientConfig usersMatcher true true
    [EvVisit (Some dashboardWindow) (HrefString "/users") None 0;
     EvNavigate;
     EvSuccess (BackgroundOnSuccess 0) usersPageOne 7;
     EvVisit (Some dashboardWindow) (HrefString "/users") None 1000000]
    initialWorld
  = run stubHost defaultConfig usersMatcher true true
      [EvVisit (Some dashboardWindow) (HrefString "/users") None 0;
       EvNavigate;
       EvSuccess (BackgroundOnSuccess 0) usersPageOne 7;
       EvVisit (Some dashboardWindow) (HrefString "/users") None 1000000]
      initialWorld.
Proof.
  split; [reflexivity|]. split; [reflexivity|].
  exact (engine_reads_enabled_and_bound_only stubHost impatientConfig
           defaultConfig usersMatcher true true _ initialWorld
           eq_refl eq_refl).
Defined.

(** ** Preflight evaluator: names every object answers to *)

(** X27. A guard named like a member of [Object.prototype]
    ([toString], [constructor], ...) with nothing recorded under it
    makes [check] answer false, wherever it stands in the list and
    whatever is recorded for the other guards: [_data[mw]] finds the
    inherited member, which is truthy and has no [pass]. *)
Theorem check_fails_on_inherited_name
        (data : gmap string PreflightResult) (now : Z) (guards : list string)
        (g : string) :
  In g guards ->
  In g Preflight.objectPrototypeMembers ->
  data !! g = None ->
  Preflight.check data now guards = Some false.
Proof.
  intros Hin Hmember Hnone. unfold Preflight.check. rewrite checkLoop_spec.
  assert (Hfails : existsb (guardFails data now) guards = true).
  { apply existsb_exists. exists g. split; [assumption|].
    unfold guardFails, Preflight.read. rewrite Hnone.
    assert (E : existsb (String.eqb g) Preflight.objectPrototypeMembers
                = true).
    { apply existsb_exists. exists g. split;
        [assumption | apply String.eqb_refl]. }
    now rewrite E. }
  now rewrite Hfails.
Qed.

Lemma check_fails_on_inherited_name_witness :
  In "toString" ["auth"; "toString"] /\
  In "toString" Preflight.objectPrototypeMembers /\
  boundaryVerdicts !! "toString" = None /\
  Preflight.check boundaryVerdicts 0 ["auth"; "toString"] = Some false.
Proof.
  assert (Hin : In "toString" ["auth"; "toString"]) by (right; now left).
  assert (Hmember : In "toString" Preflight.objectPrototypeMembers)
    by (simpl; tauto).
  assert (Hnone : boundaryVerdicts !! "toString" = None) by reflexivity.
  split; [exact Hin|]. split; [exact Hmember|]. split; [exact Hnone|].
  exact (check_fails_on_inherited_name boundaryVerdicts 0
           ["auth"; "toString"] "toString" Hin Hmember Hnone).
Defined.
